(** * Run orchestration of the V8 optimization lab server

    A shallow embedding of [server/src/validation.ts],
    [server/src/services/RunService.ts] and the runs router
    ([routes/runs.ts]), with [parseArgs] and [buildNodeFlags] of
    [scripts/run-experiment.js] and the message handler of
    [frontend/components/LiveLogViewer.tsx], followed by the properties
    of the run queue, of request validation, of the persisted run
    records, of the live stream and of the arguments of the child.

    Conventions of the embedding:
    - ISO timestamps ([new Date().toISOString()]) and [Date.now()] are
      epoch milliseconds in [Z]; the text form is not modelled, since
      [new Date(iso).getTime()] gives back the same millisecond count.
    - JSON numbers are rationals ([Q]); the two infinities, which
      [JSON.parse] produces on overflow, are [JInfinity].
    - Strings are sequences of 8-bit code units; the identifiers the
      schema lets through are ASCII, where this agrees with JavaScript.
    - The code between two [await]s runs without interruption; each such
      chunk is one transition of the service, and what it reads from the
      ambient globals ([Date], [process], [randomUUID]) is carried by the
      label of the transition; a chunk that reads the clock twice gets the
      same reading both times.
    - What the child process prints and how it ends are inputs of the
      transitions; the argument vector [executeRun] hands to [execa], and
      what [parseArgs] of [scripts/run-experiment.js] and the experiment
      read from it, are functions of the options of the run.
    - [RunMetadata] objects are shared by reference between the queue, the
      worker and the suspended [createRun] calls: they live in a heap and
      are addressed by their index.
    - The directory [artifacts/runs] is a finite map from the names of
      its entries to what they hold. The service finds it as it is when
      it starts: an entry holds a run record, or other JSON, which
      nothing in the code tells from a record, or nothing that can be
      read and parsed.
    - A rejected promise that nothing handles ends the Node process
      ([index.ts] installs no handler). The one promise of the service
      that can be rejected unhandled is that of [processQueue], which
      [createRun] does not await; once it is, no transition follows.
    - [Array.prototype.sort] is stable; it calls the comparator only on
      arrays of two or more elements, an exception of the comparator is
      one of [sort], and with a comparator that returns [NaN] the order
      is left to the engine. *)

From Stdlib Require Import ZArith QArith String Ascii.
From Stdlib Require Import DecimalString DecimalPos DecimalZ.
From stdpp Require Import base numbers option list strings gmap sorting.
Close Scope Q_scope.

(** ** types.ts *)

Inductive Variant := baseline | deopt | fixed.

Inductive RunStatus := queued | running | completed | failed.

Record RunOptions := {
  exp : string;
  variant : Variant;
  trace : bool;
  profile : bool;
  warmup : Z;
  repeat_ : Z;
}.

Record MetaOptions := {
  o_trace : bool;
  o_profile : bool;
  o_warmup : Z;
  o_repeat : Z;
}.

Record Timestamps := {
  ts_queued : Z;
  ts_started : option Z;
  ts_completed : option Z;
}.

Record Environment := {
  nodeVersion : string;
  v8Version : string;
  platform : string;
  arch : string;
  gitSha : option string;
}.

Record Results := {
  exitCode : Z;
  durationMs : Z;
}.

Record Artifacts := {
  a_stdout : option string;
  a_stderr : option string;
  a_cpuProfile : option string;
}.

Record RunMetadata := {
  md_id : string;
  experiment : string;
  md_variant : string;
  options : MetaOptions;
  status : RunStatus;
  timestamps : Timestamps;
  environment : Environment;
  results : option Results;
  artifacts : Artifacts;
}.

Global Instance Variant_eq_dec : EqDecision Variant.
Proof. solve_decision. Defined.
Global Instance RunStatus_eq_dec : EqDecision RunStatus.
Proof. solve_decision. Defined.
Global Instance RunOptions_eq_dec : EqDecision RunOptions.
Proof. solve_decision. Defined.
Global Instance MetaOptions_eq_dec : EqDecision MetaOptions.
Proof. solve_decision. Defined.
Global Instance Timestamps_eq_dec : EqDecision Timestamps.
Proof. solve_decision. Defined.
Global Instance Environment_eq_dec : EqDecision Environment.
Proof. solve_decision. Defined.
Global Instance Results_eq_dec : EqDecision Results.
Proof. solve_decision. Defined.
Global Instance Artifacts_eq_dec : EqDecision Artifacts.
Proof. solve_decision. Defined.
Global Instance RunMetadata_eq_dec : EqDecision RunMetadata.
Proof. solve_decision. Defined.

Definition variantName (v : Variant) : string :=
  match v with
  | baseline => "baseline"
  | deopt => "deopt"
  | fixed => "fixed"
  end.

(** A status is terminal once the run has completed or failed. *)
Definition terminal (st : RunStatus) : bool :=
  match st with
  | completed | failed => true
  | queued | running => false
  end.

(** ** validation.ts: [runOptionsSchema] *)

(** The values a field of [req.body] can hold after [express.json()]. *)
Inductive JsValue :=
| JUndefined
| JNull
| JBoolean (b : bool)
| JNumber (q : Q)
| JInfinity (negative : bool)
| JString (s : string)
| JOther.

(** The six keys the schema reads; a key that is absent is [JUndefined],
    and every other key is stripped by [z.object]. *)
Record RequestBody := {
  body_exp : JsValue;
  body_variant : JsValue;
  body_trace : JsValue;
  body_profile : JsValue;
  body_warmup : JsValue;
  body_repeat : JsValue;
}.

Inductive IssueCode :=
| invalid_type
| invalid_enum_value
| invalid_string
| too_small
| too_big.

Record ZodIssue := {
  path : string;
  code : IssueCode;
}.

Inductive SafeParse (A : Type) :=
| Success (data : A)
| Failure (errors : list ZodIssue).
Arguments Success {A} data.
Arguments Failure {A} errors.

(** A field schema returns the codes of the checks that failed. *)
Definition FieldSchema (A : Type) := JsValue → list IssueCode + A.

Definition isWordOrDash (c : ascii) : bool :=
  let n := nat_of_ascii c in
  ((48 <=? n) && (n <=? 57)) || ((65 <=? n) && (n <=? 90))
  || ((97 <=? n) && (n <=? 122)) || (n =? 95) || (n =? 45).

(** [/^[\w-]+$/] *)
Definition matchesSlug (s : string) : bool :=
  match list_ascii_of_string s with
  | [] => false
  | cs => forallb isWordOrDash cs
  end.

(** [z.string().min(1).max(100).regex(/^[\w-]+$/)]: every check runs and
    every failing one reports. *)
Definition expSchema : FieldSchema string := λ v,
  match v with
  | JString s =>
      let issues :=
        (if String.length s <? 1 then [too_small] else [])
        ++ (if 100 <? String.length s then [too_big] else [])
        ++ (if matchesSlug s then [] else [invalid_string]) in
      match issues with
      | [] => inr s
      | _ => inl issues
      end
  | _ => inl [invalid_type]
  end.

(** [z.enum(['baseline', 'deopt', 'fixed'])] *)
Definition variantSchema : FieldSchema Variant := λ v,
  match v with
  | JString s =>
      if String.eqb s "baseline" then inr baseline
      else if String.eqb s "deopt" then inr deopt
      else if String.eqb s "fixed" then inr fixed
      else inl [invalid_enum_value]
  | _ => inl [invalid_type]
  end.

(** [z.boolean()] *)
Definition booleanSchema : FieldSchema bool := λ v,
  match v with
  | JBoolean b => inr b
  | _ => inl [invalid_type]
  end.

(** [Number.isInteger] on a finite number. *)
Definition isInteger (q : Q) : bool :=
  (Qnum q mod Z.pos (Qden q) =? 0)%Z.

Definition integerValue (q : Q) : Z := (Qnum q / Z.pos (Qden q))%Z.

(** [z.number().int().min(lo).max(hi)] *)
Definition intRangeSchema (lo hi : Z) : FieldSchema Z := λ v,
  match v with
  | JNumber q =>
      let issues :=
        (if isInteger q then [] else [invalid_type])
        ++ (if Qle_bool (inject_Z lo) q then [] else [too_small])
        ++ (if Qle_bool q (inject_Z hi) then [] else [too_big]) in
      match issues with
      | [] => inr (integerValue q)
      | _ => inl issues
      end
  | JInfinity negative =>
      inl (invalid_type :: if negative then [too_small] else [too_big])
  | _ => inl [invalid_type]
  end.

(** [.optional().default(d)]: an absent key is replaced by the default
    before the inner schema runs; anything else, [null] included, goes to
    the inner schema as it is. *)
Definition optionalDefault {A} (inner : FieldSchema A) (d : JsValue)
  : FieldSchema A := λ v,
  match v with
  | JUndefined => inner d
  | _ => inner v
  end.

Definition traceSchema : FieldSchema bool :=
  optionalDefault booleanSchema (JBoolean false).
Definition profileSchema : FieldSchema bool :=
  optionalDefault booleanSchema (JBoolean false).
Definition warmupSchema : FieldSchema Z :=
  optionalDefault (intRangeSchema 0 100000) (JNumber (inject_Z 1000)).
Definition repeatSchema : FieldSchema Z :=
  optionalDefault (intRangeSchema 1 1000000) (JNumber (inject_Z 100000)).

Definition issuesAt {A} (key : string) (r : list IssueCode + A)
  : list ZodIssue :=
  match r with
  | inl codes => (λ c, {| path := key; code := c |}) <$> codes
  | inr _ => []
  end.

(** The issues of all the fields, in the order of the keys of the schema. *)
Definition issuesOf (b : RequestBody) : list ZodIssue :=
  issuesAt "exp" (expSchema (body_exp b))
  ++ issuesAt "variant" (variantSchema (body_variant b))
  ++ issuesAt "trace" (traceSchema (body_trace b))
  ++ issuesAt "profile" (profileSchema (body_profile b))
  ++ issuesAt "warmup" (warmupSchema (body_warmup b))
  ++ issuesAt "repeat" (repeatSchema (body_repeat b)).

(** [runOptionsSchema.safeParse(req.body)]; [None] is a body that is not
    an object. *)
Definition safeParse (body : option RequestBody) : SafeParse RunOptions :=
  match body with
  | None => Failure [{| path := ""; code := invalid_type |}]
  | Some b =>
      match expSchema (body_exp b), variantSchema (body_variant b),
            traceSchema (body_trace b), profileSchema (body_profile b),
            warmupSchema (body_warmup b), repeatSchema (body_repeat b) with
      | inr e, inr v, inr t, inr p, inr w, inr r =>
          Success {| exp := e; variant := v; trace := t; profile := p;
                     warmup := w; repeat_ := r |}
      | _, _, _, _, _, _ => Failure (issuesOf b)
      end
  end.

(** A number outside the closed range from [lo] to [hi]. *)
Definition outsideRange (lo hi : Z) (v : JsValue) : Prop :=
  (∃ negative, v = JInfinity negative)
  ∨ ∃ q, v = JNumber q ∧ ((q < inject_Z lo)%Q ∨ (inject_Z hi < q)%Q).

(** A whole number of the closed range from [lo] to [hi]. *)
Definition withinRange (lo hi : Z) (v : JsValue) : Prop :=
  ∃ q, v = JNumber q ∧ isInteger q = true
       ∧ (inject_Z lo <= q)%Q ∧ (q <= inject_Z hi)%Q.

(** ** RunService.ts *)

(** [interface QueuedRun]; [qr_metadata] is the reference to the shared
    [RunMetadata] object. *)
Record QueuedRun := {
  qr_id : string;
  qr_options : RunOptions;
  qr_metadata : nat;
}.

(** What [createRun] reads from the global [process]. *)
Record ProcessInfo := {
  version : string;
  versions_v8 : string;
  process_platform : string;
  process_arch : string;
}.

(** The events [RunService] emits, in the order of the [emit] calls. *)
Inductive RunEvent :=
| run_start (id : string)
| run_stdout (id chunk : string)
| run_stderr (id chunk : string)
| run_error (id message : string)
| run_complete (id : string) (metadata : RunMetadata).

(** The rejection value of the [execa] promise, as far as [executeRun]
    reads it ([exitCode], [message]), with the flag execa sets when it
    killed the child at the [timeout] option. *)
Record ExecaError := {
  err_exitCode : option Z;
  err_message : string;
  err_timedOut : bool;
}.

Inductive ExecaResult :=
| Resolved
| Rejected (error : ExecaError).

(** What [new Date(v.timestamps.queued).getTime()] does on a value [v]
    that [JSON.parse] returned: reading [v.timestamps.queued] throws a
    [TypeError] ([v] has no [timestamps], as [{}], [null], a number or a
    string), or the date is invalid and the time is [NaN], or it is the
    time [t]. *)
Inductive QueuedRead :=
| ReadThrows
| ReadNaN
| ReadAt (t : Z).

(** A value [JSON.parse] returns that is not a run record, by what the
    code reads of it: the text it was parsed from, whether it is truthy
    (the routes test [!run]), and its queued time. *)
Record OtherJson := {
  other_text : string;
  other_truthy : bool;
  other_queued : QueuedRead;
}.

(** What [JSON.parse] returns on the text of a file: a run record, as
    [saveMetadata] writes them, or another value. Nothing in the code
    checks which it is. *)
Inductive Parsed :=
| IsRun (m : RunMetadata)
| NotRun (v : OtherJson).

(** One entry of [artifacts/runs]: a text [JSON.parse] accepts, held as
    what it parses to, or an entry that cannot be read as a file or whose
    text [JSON.parse] refuses. *)
Inductive FileContent :=
| JsonText (m : RunMetadata)
| JsonOther (v : OtherJson)
| Unparsable.

Global Instance QueuedRead_eq_dec : EqDecision QueuedRead.
Proof. solve_decision. Defined.
Global Instance OtherJson_eq_dec : EqDecision OtherJson.
Proof. solve_decision. Defined.
Global Instance Parsed_eq_dec : EqDecision Parsed.
Proof. solve_decision. Defined.

Definition parse (c : FileContent) : option Parsed :=
  match c with
  | JsonText m => Some (IsRun m)
  | JsonOther v => Some (NotRun v)
  | Unparsable => None
  end.

(** [saveMetadata] suspends twice: on [mkdir], then on [writeFile], whose
    arguments (path and [JSON.stringify(metadata)]) are computed when
    [mkdir] has resolved. *)
Inductive SavePhase :=
| AwaitMkdir
| AwaitWriteFile (filePath : string) (content : RunMetadata).

(** Where [processQueue] is suspended. [Crashed] is its end by an
    exception: the save in its [catch] has failed, the promise
    [createRun] left unawaited (line 55) is rejected, nothing handles the
    rejection and Node ends the process. *)
Inductive Worker :=
| Idle
| SavingStart (run : QueuedRun) (ph : SavePhase)
| Executing (run : QueuedRun) (startTime : Z)
| SavingFinal (run : QueuedRun) (ph : SavePhase)
| SavingCaught (run : QueuedRun) (ph : SavePhase)
| Crashed (run : QueuedRun).

(** A [createRun] call suspended on its [saveMetadata]. *)
Record Creator := {
  cr_run : QueuedRun;
  cr_phase : SavePhase;
}.

(** Replies of [POST /api/runs]. *)
Inductive HttpResponse :=
| BadRequest (details : list ZodIssue)
| Created (id : string) (st : RunStatus)
| ServerError.

(** The service: the heap of run objects, the fields of [RunService]
    ([queue], [currentRun], [processing]), the suspended continuations of
    [processQueue] and of the [createRun] calls, the files of
    [artifacts/runs] by name, and what has been emitted and replied so
    far. *)
Record State := {
  heap : list RunMetadata;
  queue : list QueuedRun;
  currentRun : option QueuedRun;
  processing : bool;
  worker : Worker;
  creators : list Creator;
  disk : gmap string FileContent;
  emitted : list RunEvent;
  responses : list HttpResponse;
}.

Definition initial (d : gmap string FileContent) : State :=
  {| heap := []; queue := []; currentRun := None; processing := false;
     worker := Idle; creators := []; disk := d; emitted := [];
     responses := [] |}.

(** *** Field updates *)

Definition set_status (st : RunStatus) (m : RunMetadata) : RunMetadata :=
  {| md_id := md_id m; experiment := experiment m;
     md_variant := md_variant m; options := options m; status := st;
     timestamps := timestamps m; environment := environment m;
     results := results m; artifacts := artifacts m |}.

Definition set_started (t : Z) (m : RunMetadata) : RunMetadata :=
  {| md_id := md_id m; experiment := experiment m;
     md_variant := md_variant m; options := options m; status := status m;
     timestamps := {| ts_queued := ts_queued (timestamps m);
                      ts_started := Some t;
                      ts_completed := ts_completed (timestamps m) |};
     environment := environment m; results := results m;
     artifacts := artifacts m |}.

Definition set_completed (t : Z) (m : RunMetadata) : RunMetadata :=
  {| md_id := md_id m; experiment := experiment m;
     md_variant := md_variant m; options := options m; status := status m;
     timestamps := {| ts_queued := ts_queued (timestamps m);
                      ts_started := ts_started (timestamps m);
                      ts_completed := Some t |};
     environment := environment m; results := results m;
     artifacts := artifacts m |}.

Definition set_results (r : Results) (m : RunMetadata) : RunMetadata :=
  {| md_id := md_id m; experiment := experiment m;
     md_variant := md_variant m; options := options m; status := status m;
     timestamps := timestamps m; environment := environment m;
     results := Some r; artifacts := artifacts m |}.

Definition set_artifacts (a : Artifacts) (m : RunMetadata) : RunMetadata :=
  {| md_id := md_id m; experiment := experiment m;
     md_variant := md_variant m; options := options m; status := status m;
     timestamps := timestamps m; environment := environment m;
     results := results m; artifacts := a |}.

Definition with_heap (h : list RunMetadata) (s : State) : State :=
  {| heap := h; queue := queue s; currentRun := currentRun s;
     processing := processing s; worker := worker s;
     creators := creators s; disk := disk s; emitted := emitted s;
     responses := responses s |}.

Definition with_queue (q : list QueuedRun) (s : State) : State :=
  {| heap := heap s; queue := q; currentRun := currentRun s;
     processing := processing s; worker := worker s;
     creators := creators s; disk := disk s; emitted := emitted s;
     responses := responses s |}.

Definition with_currentRun (c : option QueuedRun) (s : State) : State :=
  {| heap := heap s; queue := queue s; currentRun := c;
     processing := processing s; worker := worker s;
     creators := creators s; disk := disk s; emitted := emitted s;
     responses := responses s |}.

Definition with_processing (b : bool) (s : State) : State :=
  {| heap := heap s; queue := queue s; currentRun := currentRun s;
     processing := b; worker := worker s; creators := creators s;
     disk := disk s; emitted := emitted s; responses := responses s |}.

Definition with_worker (w : Worker) (s : State) : State :=
  {| heap := heap s; queue := queue s; currentRun := currentRun s;
     processing := processing s; worker := w; creators := creators s;
     disk := disk s; emitted := emitted s; responses := responses s |}.

Definition with_creators (c : list Creator) (s : State) : State :=
  {| heap := heap s; queue := queue s; currentRun := currentRun s;
     processing := processing s; worker := worker s; creators := c;
     disk := disk s; emitted := emitted s; responses := responses s |}.

Definition with_disk (d : gmap string FileContent) (s : State) : State :=
  {| heap := heap s; queue := queue s; currentRun := currentRun s;
     processing := processing s; worker := worker s;
     creators := creators s; disk := d; emitted := emitted s;
     responses := responses s |}.

(** [this.emit(...)] *)
Definition emit (e : RunEvent) (s : State) : State :=
  {| heap := heap s; queue := queue s; currentRun := currentRun s;
     processing := processing s; worker := worker s;
     creators := creators s; disk := disk s; emitted := emitted s ++ [e];
     responses := responses s |}.

(** [res.status(...).json(...)] *)
Definition respond (r : HttpResponse) (s : State) : State :=
  {| heap := heap s; queue := queue s; currentRun := currentRun s;
     processing := processing s; worker := worker s;
     creators := creators s; disk := disk s; emitted := emitted s;
     responses := responses s ++ [r] |}.

(** *** createRun, up to its [await] (lines 21-51) *)

(** Lines 28-33: the options as the metadata records them. *)
Definition recorded (opts : RunOptions) : MetaOptions :=
  {| o_trace := trace opts; o_profile := profile opts;
     o_warmup := warmup opts; o_repeat := repeat_ opts |}.

(** Lines 38-43. *)
Definition environmentOf (proc : ProcessInfo) : Environment :=
  {| nodeVersion := version proc;
     v8Version := versions_v8 proc;
     platform := process_platform proc;
     arch := process_arch proc;
     gitSha := None |}.

(** [artifacts: {}] *)
Definition noArtifacts : Artifacts :=
  {| a_stdout := None; a_stderr := None; a_cpuProfile := None |}.

Definition newMetadata (id : string) (now : Z) (proc : ProcessInfo)
    (opts : RunOptions) : RunMetadata :=
  {| md_id := id;
     experiment := exp opts;
     md_variant := variantName (variant opts);
     options := recorded opts;
     status := queued;
     timestamps := {| ts_queued := now; ts_started := None;
                      ts_completed := None |};
     environment := environmentOf proc;
     results := None;
     artifacts := noArtifacts |}.

Definition createRun_begin (opts : RunOptions) (id : string) (now : Z)
    (proc : ProcessInfo) (s : State) : State :=
  let metadata := length (heap s) in
  let queuedRun :=
    {| qr_id := id; qr_options := opts; qr_metadata := metadata |} in
  with_creators
    (creators s ++ [{| cr_run := queuedRun; cr_phase := AwaitMkdir |}])
    (with_queue (queue s ++ [queuedRun])
       (with_heap (heap s ++ [newMetadata id now proc opts]) s)).

(** *** saveMetadata *)

Inductive IoOutcome := io_ok | io_error.

Inductive SaveProgress :=
| SaveContinues (ph : SavePhase)
| SaveDone (d : gmap string FileContent)
| SaveFailed.

(** One resumption of [saveMetadata(metadata)]; [None] only for a
    dangling reference. *)
Definition saveMetadata_resume (res : IoOutcome) (ph : SavePhase)
    (metadata : nat) (h : list RunMetadata) (d : gmap string FileContent)
  : option SaveProgress :=
  match res, ph with
  | io_error, _ => Some SaveFailed
  | io_ok, AwaitMkdir =>
      m ← h !! metadata;
      Some (SaveContinues (AwaitWriteFile (md_id m +:+ ".json") m))
  | io_ok, AwaitWriteFile filePath content =>
      Some (SaveDone (<[filePath := JsonText content]> d))
  end.

(** *** executeRun *)

(** Lines 126-127. *)
Definition markRunning (now : Z) (m : RunMetadata) : RunMetadata :=
  set_started now (set_status running m).

(** [error.exitCode || 1] *)
Definition exitCodeOr1 (e : ExecaError) : Z :=
  match err_exitCode e with
  | Some c => if (c =? 0)%Z then 1%Z else c
  | None => 1%Z
  end.

(** [error.message || 'Unknown error'] *)
Definition messageOrUnknown (e : ExecaError) : string :=
  if String.eqb (err_message e) "" then "Unknown error" else err_message e.

Definition successArtifacts (opts : RunOptions) : Artifacts :=
  let dir := exp opts +:+ "/" +:+ variantName (variant opts) +:+ "/latest/" in
  {| a_stdout := Some (dir +:+ "stdout.log");
     a_stderr := if trace opts then Some (dir +:+ "trace.log") else None;
     a_cpuProfile :=
       if profile opts then Some (dir +:+ "*.cpuprofile") else None |}.

(** Lines 169-203: what the settled [execa] promise does to the record. *)
Definition settle (res : ExecaResult) (opts : RunOptions)
    (startTime now : Z) (m : RunMetadata) : RunMetadata :=
  match res with
  | Resolved =>
      set_artifacts (successArtifacts opts)
        (set_results {| exitCode := 0; durationMs := now - startTime |}
           (set_completed now (set_status completed m)))
  | Rejected error =>
      set_results {| exitCode := exitCodeOr1 error;
                     durationMs := now - startTime |}
        (set_completed now (set_status failed m))
  end.

(** Lines 111-112: the [catch] of [processQueue]. *)
Definition markCaught (now : Z) (m : RunMetadata) : RunMetadata :=
  set_completed now (set_status failed m).

(** *** processQueue *)

(** The [while] test and, when the queue is not empty, the body up to the
    first [await] inside [executeRun] (lines 103-108 and 126-128); when it
    is empty, line 119. *)
Definition loopHead (now : Z) (s : State) : State :=
  match queue s with
  | [] => with_worker Idle (with_processing false s)
  | run :: rest =>
      with_worker (SavingStart run AwaitMkdir)
        (with_heap (alter (markRunning now) (qr_metadata run) (heap s))
           (with_currentRun (Some run) (with_queue rest s)))
  end.

(** Lines 100-101, then the loop. *)
Definition processQueue (now : Z) (s : State) : State :=
  if processing s then s else loopHead now (with_processing true s).

(** An exception that escapes [executeRun]: lines 110-113. *)
Definition caught (run : QueuedRun) (now : Z) (s : State) : State :=
  with_worker (SavingCaught run AwaitMkdir)
    (with_heap (alter (markCaught now) (qr_metadata run) (heap s)) s).

(** Line 116 and back to the [while] test. *)
Definition nextIteration (now : Z) (s : State) : State :=
  loopHead now (with_currentRun None s).

(** *** Transitions *)

Inductive Label :=
| PostRuns (body : option RequestBody) (uuid : string) (now : Z)
    (proc : ProcessInfo)
| CreatorIo (k : nat) (res : IoOutcome) (now : Z)
| WorkerIo (res : IoOutcome) (now : Z)
| ProcStdout (chunk : string)
| ProcStderr (chunk : string)
| ProcSettled (res : ExecaResult) (now : Z).

(** [router.post('/')], up to the [await] of [createRun]. *)
Definition postRuns (body : option RequestBody) (uuid : string) (now : Z)
    (proc : ProcessInfo) (s : State) : State :=
  match safeParse body with
  | Failure errors => respond (BadRequest errors) s
  | Success opts => createRun_begin opts uuid now proc s
  end.

(** The [await saveMetadata(metadata)] of the [k]-th suspended [createRun]
    makes progress; once it is over, lines 54-58 and the reply of the
    route. *)
Definition creatorIo (k : nat) (res : IoOutcome) (now : Z) (s : State)
  : option State :=
  c ← creators s !! k;
  p ← saveMetadata_resume res (cr_phase c) (qr_metadata (cr_run c))
         (heap s) (disk s);
  Some match p with
       | SaveContinues ph =>
           with_creators
             (<[k := {| cr_run := cr_run c; cr_phase := ph |}]> (creators s)) s
       | SaveDone d =>
           respond (Created (qr_id (cr_run c)) queued)
             (processQueue now
                (with_disk d (with_creators (delete k (creators s)) s)))
       | SaveFailed =>
           respond ServerError (with_creators (delete k (creators s)) s)
       end.

(** An [await] of the worker on [saveMetadata] makes progress. *)
Definition workerIo (res : IoOutcome) (now : Z) (s : State) : option State :=
  match worker s with
  | SavingStart run ph =>
      p ← saveMetadata_resume res ph (qr_metadata run) (heap s) (disk s);
      Some match p with
           | SaveContinues ph' => with_worker (SavingStart run ph') s
           | SaveDone d =>
               with_worker (Executing run now)
                 (emit (run_start (qr_id run)) (with_disk d s))
           | SaveFailed => caught run now s
           end
  | SavingFinal run ph =>
      p ← saveMetadata_resume res ph (qr_metadata run) (heap s) (disk s);
      match p with
      | SaveContinues ph' => Some (with_worker (SavingFinal run ph') s)
      | SaveDone d =>
          m ← heap s !! qr_metadata run;
          Some (nextIteration now
                  (emit (run_complete (qr_id run) m) (with_disk d s)))
      | SaveFailed => Some (caught run now s)
      end
  | SavingCaught run ph =>
      p ← saveMetadata_resume res ph (qr_metadata run) (heap s) (disk s);
      Some match p with
           | SaveContinues ph' => with_worker (SavingCaught run ph') s
           | SaveDone d => nextIteration now (with_disk d s)
           | SaveFailed => with_worker (Crashed run) s
           end
  | Idle | Executing _ _ | Crashed _ => None
  end.

(** A ['data'] event of the child's stdout or stderr (lines 155-164). *)
Definition procData (mk : string → string → RunEvent) (chunk : string)
    (s : State) : option State :=
  match worker s with
  | Executing run _ => Some (emit (mk (qr_id run) chunk) s)
  | _ => None
  end.

(** The [execa] promise settles (lines 167-208). *)
Definition procSettled (res : ExecaResult) (now : Z) (s : State)
  : option State :=
  match worker s with
  | Executing run startTime =>
      let s1 :=
        with_heap
          (alter (settle res (qr_options run) startTime now)
             (qr_metadata run) (heap s)) s in
      let s2 :=
        match res with
        | Resolved => s1
        | Rejected error =>
            emit (run_error (qr_id run) (messageOrUnknown error)) s1
        end in
      Some (with_worker (SavingFinal run AwaitMkdir) s2)
  | _ => None
  end.

(** What the chunk of code that a label names does to the fields. *)
Definition transition (l : Label) (s : State) : option State :=
  match l with
  | PostRuns body uuid now proc => Some (postRuns body uuid now proc s)
  | CreatorIo k res now => creatorIo k res now s
  | WorkerIo res now => workerIo res now s
  | ProcStdout chunk => procData run_stdout chunk s
  | ProcStderr chunk => procData run_stderr chunk s
  | ProcSettled res now => procSettled res now s
  end.

(** The process is running: [processQueue] has not ended by an
    exception. *)
Definition alive (s : State) : bool :=
  match worker s with
  | Crashed _ => false
  | _ => true
  end.

(** One step of the service. Once the process has ended nothing runs any
    more: no request is answered and no callback is called. *)
Definition step (l : Label) (s : State) : option State :=
  if alive s then transition l s else None.

Fixpoint steps (ls : list Label) (s : State) : option State :=
  match ls with
  | [] => Some s
  | l :: ls' => s' ← step l s; steps ls' s'
  end.

Inductive reachable : State → Prop :=
| reachable_initial d : reachable (initial d)
| reachable_step s l s' :
    reachable s → step l s = Some s' → reachable s'.

(** *** Reads *)

(** [getRun]: what [JSON.parse] returns on the file of the run, or
    [null] ([None]) when the file cannot be read or parsed. The map holds
    the entries of [artifacts/runs] by name, and the file is looked up
    under the name [join] is given. For an [id] with a path separator
    [join] leads to a file elsewhere, the same for [saveMetadata] and
    for [getRun]; what is stated of a requested id against the entries of
    the directory is stated of ids without a separator. *)
Definition getRun (id : string) (d : gmap string FileContent)
  : option Parsed :=
  d !! (id +:+ ".json") ≫= parse.

Definition endsWith (s suffix : string) : bool :=
  let n := String.length s in
  let k := String.length suffix in
  (k <=? n) && String.eqb (substring (n - k) k s) suffix.

(** [new Date(v.timestamps.queued).getTime()] *)
Definition queuedOf (p : Parsed) : QueuedRead :=
  match p with
  | IsRun m => ReadAt (ts_queued (timestamps m))
  | NotRun v => other_queued v
  end.

Definition timeOf (p : Parsed) : Z :=
  match queuedOf p with
  | ReadAt t => t
  | ReadThrows | ReadNaN => 0
  end.

(** The comparator of line 80, on two values whose queued times are
    valid dates. *)
Definition byQueuedDesc (a b : Parsed) : Z := (timeOf b - timeOf a)%Z.

(** [Array.prototype.sort(compare)] with a comparator that is a
    consistent order: the sort is stable, so the result is the one of an
    insertion sort that puts an element before the first one it need not
    come after. [a] stays before [b] when [compare(a, b) <= 0]. *)
Fixpoint insertBy {A} (compare : A → A → Z) (x : A) (l : list A) : list A :=
  match l with
  | [] => [x]
  | y :: l' =>
      if (compare x y <=? 0)%Z then x :: y :: l'
      else y :: insertBy compare x l'
  end.

Definition sortBy {A} (compare : A → A → Z) (l : list A) : list A :=
  foldr (insertBy compare) [] l.

(** Lines 68-77: what was pushed to [runs], in the order of [readdir]:
    the values of the files that could be read and parsed. *)
Definition readRuns (jsonFiles : list (string * FileContent))
  : list Parsed :=
  omap (λ file, parse file.2) jsonFiles.

(** What [listRuns] resolves to: an array, or an array whose order the
    sort of the engine decides, the comparator being no consistent
    order. *)
Inductive Listing :=
| Returned (runs : list Parsed)
| EngineOrdered (runs : list Parsed).

Definition items (r : Listing) : list Parsed :=
  match r with
  | Returned runs | EngineOrdered runs => runs
  end.

(** [listRuns] on the outcome of [mkdir] and [readdir]: [None] when one of
    them throws, else the directory entries with their contents. With
    fewer than two values [sort] calls no comparator; with two or more it
    compares every value at least once, so one without [timestamps] makes
    the comparator throw, and the [catch] of line 83 returns []. *)
Definition listRuns (dir : option (list (string * FileContent)))
  : Listing :=
  match dir with
  | None => Returned []
  | Some files =>
      let jsonFiles := filter (λ f, endsWith f.1 ".json" = true) files in
      let runs := readRuns jsonFiles in
      let reads := queuedOf <$> runs in
      if length runs <? 2 then Returned runs
      else if bool_decide (ReadThrows ∈ reads) then Returned []
      else if bool_decide (ReadNaN ∈ reads) then EngineOrdered runs
      else Returned (sortBy byQueuedDesc runs)
  end.

(** ** routes/runs.ts: [GET /api/runs/:id/stream] *)

(** The payloads written as [data: {type, data}] frames. *)
Inductive SseEvent :=
| sse_status (st : RunStatus)
| sse_stdout (chunk : string)
| sse_stderr (chunk : string)
| sse_error (message : string)
| sse_complete (run : RunMetadata).

(** The response of one viewer: the frames written so far, whether
    [res.end()] was called, and whether its four listeners are still
    registered on the service. *)
Record Stream := {
  written : list SseEvent;
  ended : bool;
  listening : bool;
}.

(** The reply of the handler: 404, the event stream of a run record, or
    the handler going on with a truthy value that is no run record, whose
    frames depend on members the record type does not describe and are
    not followed here. *)
Inductive StreamReply :=
| NotFound
| EventStream (st : Stream)
| OtherStream (v : OtherJson).

(** Lines 66-129: the handler up to the registration of the listeners. *)
Definition openStream (id : string) (d : gmap string FileContent)
  : StreamReply :=
  match getRun id d with
  | None => NotFound
  | Some (NotRun v) => if other_truthy v then OtherStream v else NotFound
  | Some (IsRun run) =>
      let frames := [sse_status (status run)] in
      if decide (status run = completed ∨ status run = failed) then
        EventStream {| written := frames ++ [sse_complete run];
                       ended := true; listening := false |}
      else
        EventStream {| written := frames; ended := false;
                       listening := true |}
  end.

Definition write (e : SseEvent) (st : Stream) : Stream :=
  {| written := written st ++ [e]; ended := ended st;
     listening := listening st |}.

(** [onStdout], [onStderr], [onComplete] and [onError] of the viewer of
    run [id], called on an event of the service. *)
Definition deliver (id : string) (e : RunEvent) (st : Stream) : Stream :=
  if listening st then
    match e with
    | run_start _ => st
    | run_stdout runId chunk =>
        if String.eqb runId id then write (sse_stdout chunk) st else st
    | run_stderr runId chunk =>
        if String.eqb runId id then write (sse_stderr chunk) st else st
    | run_error runId message =>
        if String.eqb runId id then write (sse_error message) st else st
    | run_complete runId metadata =>
        if String.eqb runId id then
          {| written := written st ++ [sse_complete metadata];
             ended := true; listening := false |}
        else st
    end
  else st.

(** ** The catalog *)

(** The slugs [ExperimentsService.listExperiments] returns: the
    directories of the experiments folder. *)
Definition knownScript (catalog : list string) (e : string) : Prop :=
  e ∈ catalog.

(** ** Observations used in the statements *)

Definition isRunning (m : RunMetadata) : Prop := status m = running.

Definition runningCount (s : State) : nat :=
  length (filter isRunning (heap s)).

(** The object a queue entry refers to. *)
Definition metadataOf (s : State) (run : QueuedRun) : option RunMetadata :=
  heap s !! qr_metadata run.

(** The run the worker has taken from the queue and not yet left. *)
Definition workerRun (w : Worker) : option QueuedRun :=
  match w with
  | Idle => None
  | SavingStart run _ | Executing run _ | SavingFinal run _
  | SavingCaught run _ | Crashed run => Some run
  end.

(** The worker is between setting ['running'] and the settling of the
    child process. *)
Definition runningPhase (w : Worker) : option QueuedRun :=
  match w with
  | SavingStart run _ | Executing run _ => Some run
  | _ => None
  end.

(** The shape of a rejection by execa for each way a run can go wrong. *)
Definition timedOutError (message : string) : ExecaError :=
  {| err_exitCode := None; err_message := message; err_timedOut := true |}.

Definition spawnError (message : string) : ExecaError :=
  {| err_exitCode := None; err_message := message; err_timedOut := false |}.

Definition exitError (c : Z) (message : string) : ExecaError :=
  {| err_exitCode := Some c; err_message := message;
     err_timedOut := false |}.

(** ** The invariant of the service *)

Definition queueRefs (s : State) : list nat := qr_metadata <$> queue s.

Definition runningRef (s : State) : option nat :=
  qr_metadata <$> runningPhase (worker s).

(** The status the object at reference [i] must have: queued while a
    queue entry refers to it, running while the worker is between the
    start of its run and the settling of the child, terminal otherwise. *)
Definition statusOk (s : State) (i : nat) (m : RunMetadata) : Prop :=
  if decide (i ∈ queueRefs s) then status m = queued
  else if decide (runningRef s = Some i) then status m = running
  else terminal (status m) = true.

(** Artifacts are absent until the success path fills them from the
    options of the run. *)
Definition artifactsOk (m : RunMetadata) : Prop :=
  (artifacts m = noArtifacts ∧ status m ≠ completed)
  ∨ (status m ≠ queued ∧ status m ≠ running
     ∧ (∃ opts, artifacts m = successArtifacts opts
                ∧ recorded opts = options m)).

Record Inv (s : State) : Prop := {
  inv_queue_nodup : NoDup (queueRefs s);
  inv_queue_valid : ∀ i, i ∈ queueRefs s → i < length (heap s);
  inv_worker_ref : ∀ run, workerRun (worker s) = Some run →
    (qr_metadata run ∉ queueRefs s) ∧ qr_metadata run < length (heap s);
  inv_status : ∀ i m, heap s !! i = Some m → statusOk s i m;
  inv_processing : processing s = false → worker s = Idle;
  inv_current : currentRun s = workerRun (worker s);
  inv_link : ∀ run m,
    run ∈ queue s ∨ workerRun (worker s) = Some run →
    heap s !! qr_metadata run = Some m →
    options m = recorded (qr_options run) ∧ md_id m = qr_id run;
  inv_artifacts : ∀ i m, heap s !! i = Some m → artifactsOk m;
}.

(** What one step can do to the object at reference [i]: nothing, or one
    of the three assignments of the worker. *)
Inductive touched (s : State) (i : nat) (m : RunMetadata)
  : RunMetadata → Prop :=
| touched_not : touched s i m m
| touched_started now run rest :
    queue s = run :: rest → qr_metadata run = i →
    runningPhase (worker s) = None →
    touched s i m (markRunning now m)
| touched_caught now run :
    workerRun (worker s) = Some run → qr_metadata run = i →
    touched s i m (markCaught now m)
| touched_settled res startTime now run :
    worker s = Executing run startTime → qr_metadata run = i →
    touched s i m (settle res (qr_options run) startTime now m).


(** ** Sample data *)

Definition host : ProcessInfo :=
  {| version := "v20.11.0"; versions_v8 := "11.3.244.8";
     process_platform := "linux"; process_arch := "x64" |}.

Definition upgradedHost : ProcessInfo :=
  {| version := "v22.1.0"; versions_v8 := "12.4.254.14";
     process_platform := "linux"; process_arch := "x64" |}.

Definition overTheBound : RequestBody :=
  {| body_exp := JString "01-hidden-classes";
     body_variant := JString "baseline";
     body_trace := JUndefined; body_profile := JUndefined;
     body_warmup := JNumber (inject_Z 10);
     body_repeat := JNumber (inject_Z 2000000) |}.

Definition withinBounds : RequestBody :=
  {| body_exp := JString "01-hidden-classes";
     body_variant := JString "baseline";
     body_trace := JUndefined; body_profile := JUndefined;
     body_warmup := JNumber (inject_Z 10);
     body_repeat := JNumber (inject_Z 100) |}.

Definition bareRequest : RequestBody :=
  {| body_exp := JString "01-hidden-classes";
     body_variant := JString "deopt";
     body_trace := JUndefined; body_profile := JUndefined;
     body_warmup := JUndefined; body_repeat := JUndefined |}.

Definition ghostRequest : RequestBody :=
  {| body_exp := JString "no-such-experiment";
     body_variant := JString "baseline";
     body_trace := JUndefined; body_profile := JUndefined;
     body_warmup := JUndefined; body_repeat := JUndefined |}.

Definition tracedRequest : RequestBody :=
  {| body_exp := JString "02-inline-caches";
     body_variant := JString "fixed";
     body_trace := JBoolean true; body_profile := JBoolean true;
     body_warmup := JUndefined; body_repeat := JUndefined |}.

Definition finishedRun : RunMetadata :=
  set_results {| exitCode := 0; durationMs := 40 |}
    (set_completed 50
       (set_status completed
          (newMetadata "run-1" 5 host
             {| exp := "01-hidden-classes"; variant := baseline;
                trace := false; profile := false;
                warmup := 1000; repeat_ := 100000 |}))).




(** The run record [getRun] returned, for the samples. *)
Definition runOf (p : option Parsed) : RunMetadata :=
  match p with
  | Some (IsRun m) => m
  | _ => finishedRun
  end.

(** The state a list of steps leads to from the empty service. *)
Definition after (ls : list Label) : State :=
  default (initial ∅) (steps ls (initial ∅)).

(** A request is admitted, saved, and its run started: the child process
    is executing. *)
Definition untilExecuting (b : RequestBody) : list Label :=
  [PostRuns (Some b) "run-1" 5 host;
   CreatorIo 0 io_ok 6; CreatorIo 0 io_ok 7;
   WorkerIo io_ok 8; WorkerIo io_ok 9].

(** The final record is written and the loop goes on. *)
Definition finalSave : list Label := [WorkerIo io_ok 31; WorkerIo io_ok 32].

(** Two requests are accepted; the first run has completed and its final
    record is about to be written, the second is queued behind it. *)
Definition twoSubmitted : list Label :=
  [PostRuns (Some bareRequest) "run-1" 5 host;
   PostRuns (Some tracedRequest) "run-2" 6 host;
   CreatorIo 0 io_ok 7; CreatorIo 0 io_ok 8;
   CreatorIo 0 io_ok 9; CreatorIo 0 io_ok 10;
   WorkerIo io_ok 11; WorkerIo io_ok 12;
   ProcSettled Resolved 30; WorkerIo io_ok 31].

(** ** More of RunService.ts and of the router *)

(** [getQueueStatus] (lines 220-226); [currentRun] is
    [this.currentRun?.id || null]. *)
Record QueueStatus := {
  queueLength : nat;
  qs_currentRun : option string;
  qs_processing : bool;
}.

Definition getQueueStatus (s : State) : QueueStatus :=
  {| queueLength := length (queue s);
     qs_currentRun :=
       match currentRun s with
       | Some run =>
           if String.eqb (qr_id run) "" then None else Some (qr_id run)
       | None => None
       end;
     qs_processing := processing s |}.

(** How far a status is on the way queued, running, terminal. *)
Definition statusRank (st : RunStatus) : nat :=
  match st with
  | queued => 0
  | running => 1
  | completed | failed => 2
  end.

(** What a record holds at each status. *)
Definition shapeOk (m : RunMetadata) : Prop :=
  match status m with
  | queued =>
      ts_started (timestamps m) = None
      ∧ ts_completed (timestamps m) = None ∧ results m = None
  | running =>
      is_Some (ts_started (timestamps m))
      ∧ ts_completed (timestamps m) = None ∧ results m = None
  | completed =>
      is_Some (ts_started (timestamps m))
      ∧ is_Some (ts_completed (timestamps m))
      ∧ ∃ d, results m = Some {| exitCode := 0; durationMs := d |}
  | failed =>
      is_Some (ts_started (timestamps m))
      ∧ is_Some (ts_completed (timestamps m))
  end.

(** Where the log of emitted events stands: between two runs, inside the
    output of a run, or after the error of a run. *)
Inductive LogPhase :=
| LogIdle
| LogRunning (id : string)
| LogErrored (id : string).

(** The events that may follow in each phase; [None] is an event out of
    place. *)
Definition logStep (p : LogPhase) (e : RunEvent) : option LogPhase :=
  match e, p with
  | run_start id, _ => Some (LogRunning id)
  | run_stdout id _, LogRunning id' | run_stderr id _, LogRunning id' =>
      if String.eqb id id' then Some (LogRunning id') else None
  | run_error id _, LogRunning id' =>
      if String.eqb id id' then Some (LogErrored id') else None
  | run_complete id _, LogRunning id' | run_complete id _, LogErrored id' =>
      if String.eqb id id' then Some LogIdle else None
  | _, _ => None
  end.

Definition logPhase (log : list RunEvent) : option LogPhase :=
  foldl (λ p e, p ≫= λ p', logStep p' e) (Some LogIdle) log.

(** What a [run:complete] event carries. *)
Definition completeOk (id : string) (m : RunMetadata) : Prop :=
  md_id m = id
  ∧ (status m = completed ∨ status m = failed)
  ∧ is_Some (results m)
  ∧ is_Some (ts_completed (timestamps m)).

(** The log of events against the phase of the worker. *)
Record EvInv (s : State) : Prop := {
  ev_phase :
    match worker s with
    | Executing run _ =>
        logPhase (emitted s) = Some (LogRunning (qr_id run))
    | SavingFinal run _ =>
        logPhase (emitted s) = Some (LogRunning (qr_id run))
        ∨ logPhase (emitted s) = Some (LogErrored (qr_id run))
    | _ => is_Some (logPhase (emitted s))
    end;
  ev_complete : ∀ id m, run_complete id m ∈ emitted s → completeOk id m;
  ev_results : ∀ run ph m,
    worker s = SavingFinal run ph →
    heap s !! qr_metadata run = Some m → is_Some (results m);
}.

(** The frame the viewer of run [id] writes for an event, if any. *)
Definition frameOf (id : string) (e : RunEvent) : option SseEvent :=
  match e with
  | run_start _ => None
  | run_stdout runId chunk =>
      if String.eqb runId id then Some (sse_stdout chunk) else None
  | run_stderr runId chunk =>
      if String.eqb runId id then Some (sse_stderr chunk) else None
  | run_error runId message =>
      if String.eqb runId id then Some (sse_error message) else None
  | run_complete runId metadata =>
      if String.eqb runId id then Some (sse_complete metadata) else None
  end.

(** The frames of the events of run [id], in their order, up to and with
    the first [complete]. *)
Fixpoint framesUntilComplete (id : string) (es : list RunEvent)
  : list SseEvent :=
  match es with
  | [] => []
  | e :: es' =>
      match frameOf id e with
      | None => framesUntilComplete id es'
      | Some (sse_complete run) => [sse_complete run]
      | Some frame => frame :: framesUntilComplete id es'
      end
  end.

(** An id without a path separator: [join(runsDir, `${runId}.json`)] is
    then the file of that name in the directory of the runs. *)
Definition singleSegment (id : string) : bool :=
  forallb (λ c, negb (Ascii.eqb c "/")) (list_ascii_of_string id).

(** Every parsable file is named after the id of the record it holds. *)
Definition wellNamed (d : gmap string FileContent) : Prop :=
  ∀ name m, d !! name = Some (JsonText m) → name = md_id m +:+ ".json".

(** Every file that parses to something other than a record has a
    queued time that the comparator of [listRuns] can read. *)
Definition sortable (d : gmap string FileContent) : Prop :=
  ∀ name v, d !! name = Some (JsonOther v) → ∃ t, other_queued v = ReadAt t.

Definition phaseNamed (ph : SavePhase) : Prop :=
  match ph with
  | AwaitMkdir => True
  | AwaitWriteFile filePath content => filePath = md_id content +:+ ".json"
  end.

Definition workerPhase (w : Worker) : option SavePhase :=
  match w with
  | SavingStart _ ph | SavingFinal _ ph | SavingCaught _ ph => Some ph
  | Idle | Executing _ _ | Crashed _ => None
  end.

(** The files and the writes under way are well named. *)
Record DiskInv (s : State) : Prop := {
  disk_named : wellNamed (disk s);
  disk_creators : Forall (λ c, phaseNamed (cr_phase c)) (creators s);
  disk_worker : ∀ ph, workerPhase (worker s) = Some ph → phaseNamed ph;
}.

(** ** RunService.ts: the arguments of the child process *)

(** What a request that passes [runOptionsSchema] yields: the checks of
    validation.ts, lines 4 to 9, on the fields that have any. *)
Definition validOptions (o : RunOptions) : Prop :=
  matchesSlug (exp o) = true ∧ 1 ≤ String.length (exp o) ≤ 100
  ∧ (0 ≤ warmup o ≤ 100000)%Z ∧ (1 ≤ repeat_ o ≤ 1000000)%Z.

(** The same on a record, whose fields [createRun] copies from the
    options. *)
Definition validRecord (m : RunMetadata) : Prop :=
  matchesSlug (experiment m) = true
  ∧ 1 ≤ String.length (experiment m) ≤ 100
  ∧ (∃ v, md_variant m = variantName v)
  ∧ (0 ≤ o_warmup (options m) ≤ 100000)%Z
  ∧ (1 ≤ o_repeat (options m) ≤ 1000000)%Z.

(** [Number.prototype.toString()] on a whole number: its decimal digits,
    with a minus sign when negative (JavaScript prints all the digits of
    a whole number below 10^21). *)
Definition numberToString (n : Z) : string :=
  NilZero.string_of_int (Z.to_int n).

(** [executeRun], lines 136-145: the [args] handed to [execa]. *)
Definition buildArgs (options : RunOptions) : list string :=
  ["scripts/run-experiment.js";
   "--exp"; exp options;
   "--variant"; variantName (variant options);
   "--warmup"; numberToString (warmup options);
   "--repeat"; numberToString (repeat_ options)]
  ++ (if trace options then ["--trace"; "on"] else [])
  ++ (if profile options then ["--profile"; "on"] else []).

(** [process.argv] of the child that [execa('node', args)] starts: the
    executable, then the arguments. *)
Definition processArgv (args : list string) : list string := "node" :: args.

(** ** scripts/run-experiment.js: [parseArgs] *)

(** The white space [parseInt] skips, among the ASCII characters. *)
Definition isStrWhiteSpace (c : ascii) : bool :=
  let n := nat_of_ascii c in
  ((9 <=? n) && (n <=? 13)) || (n =? 32).

Fixpoint trimStart (s : string) : string :=
  match s with
  | String c s' => if isStrWhiteSpace c then trimStart s' else s
  | EmptyString => EmptyString
  end.

Definition digitOf (c : ascii) : option Z :=
  let n := nat_of_ascii c in
  if (48 <=? n) && (n <=? 57) then Some (Z.of_nat (n - 48)) else None.

(** The value of the longest prefix of decimal digits, after those read
    so far; [None] when there is no digit at all. *)
Fixpoint digits (acc : option Z) (s : string) : option Z :=
  match s with
  | String c s' =>
      match digitOf c with
      | Some d => digits (Some (10 * default 0 acc + d)%Z) s'
      | None => acc
      end
  | EmptyString => acc
  end.

(** [parseInt(s, 10)]; [None] is [NaN]. Leading white space is skipped,
    a sign is read, and the digits that follow give the value (exact
    below 2^53). *)
Definition parseInt (s : string) : option Z :=
  match trimStart s with
  | String c rest =>
      if Ascii.eqb c "-" then Z.opp <$> digits None rest
      else if Ascii.eqb c "+" then digits None rest
      else digits None (String c rest)
  | EmptyString => None
  end.

(** The [options] object of [parseArgs]. [so_exp] and [so_variant] are
    [None] for [null] and for [undefined], which the function does not
    tell apart; [so_warmup] and [so_repeat] are [None] for [NaN]. *)
Record ScriptOptions := {
  so_exp : option string;
  so_variant : option string;
  so_trace : bool;
  so_profile : bool;
  so_warmup : option Z;
  so_repeat : option Z;
}.

Global Instance ScriptOptions_eq_dec : EqDecision ScriptOptions.
Proof. solve_decision. Defined.

(** Lines 27-34. *)
Definition scriptDefaults : ScriptOptions :=
  {| so_exp := None; so_variant := None; so_trace := false;
     so_profile := false; so_warmup := Some 1000%Z;
     so_repeat := Some 100000%Z |}.

(** [parseInt(next, 10)], where an absent [next] is [undefined] and reads
    as the string "undefined". *)
Definition parseIntArg (next : option string) : option Z :=
  parseInt (default "undefined" next).

(** [next === 'on'] *)
Definition isOn (next : option string) : bool :=
  match next with
  | Some v => String.eqb v "on"
  | None => false
  end.

(** The [for] loop of lines 36-74. [skip] is set by the [i++] of a case
    that has read [next]: the next argument is then stepped over. The
    result is the exit code of [process.exit], or the options. *)
Fixpoint parseLoop (args : list string) (skip : bool) (o : ScriptOptions)
  : Z + ScriptOptions :=
  match args with
  | [] => inr o
  | arg :: rest =>
      if skip then parseLoop rest false o
      else
        let next := head rest in
        if String.eqb arg "--exp" then
          parseLoop rest true
            {| so_exp := next; so_variant := so_variant o;
               so_trace := so_trace o; so_profile := so_profile o;
               so_warmup := so_warmup o; so_repeat := so_repeat o |}
        else if String.eqb arg "--variant" then
          parseLoop rest true
            {| so_exp := so_exp o; so_variant := next;
               so_trace := so_trace o; so_profile := so_profile o;
               so_warmup := so_warmup o; so_repeat := so_repeat o |}
        else if String.eqb arg "--trace" then
          parseLoop rest true
            {| so_exp := so_exp o; so_variant := so_variant o;
               so_trace := isOn next; so_profile := so_profile o;
               so_warmup := so_warmup o; so_repeat := so_repeat o |}
        else if String.eqb arg "--profile" then
          parseLoop rest true
            {| so_exp := so_exp o; so_variant := so_variant o;
               so_trace := so_trace o; so_profile := isOn next;
               so_warmup := so_warmup o; so_repeat := so_repeat o |}
        else if String.eqb arg "--warmup" then
          parseLoop rest true
            {| so_exp := so_exp o; so_variant := so_variant o;
               so_trace := so_trace o; so_profile := so_profile o;
               so_warmup := parseIntArg next; so_repeat := so_repeat o |}
        else if String.eqb arg "--repeat" then
          parseLoop rest true
            {| so_exp := so_exp o; so_variant := so_variant o;
               so_trace := so_trace o; so_profile := so_profile o;
               so_warmup := so_warmup o; so_repeat := parseIntArg next |}
        else if String.eqb arg "--help" then inl 0%Z
        else if String.prefix "--" arg then inl 1%Z
        else parseLoop rest false o
  end.

(** [!value] on a string, [null] or [undefined]. *)
Definition falsy (v : option string) : bool :=
  match v with
  | Some s => String.eqb s ""
  | None => true
  end.

Definition isVariantName (v : option string) : bool :=
  match v with
  | Some s =>
      String.eqb s "baseline" || String.eqb s "deopt" || String.eqb s "fixed"
  | None => false
  end.

(** [parseArgs] on [process.argv]: the loop over [argv.slice(2)], then
    the checks of lines 77-86. *)
Definition parseArgs (argv : list string) : Z + ScriptOptions :=
  match parseLoop (drop 2 argv) false scriptDefaults with
  | inl code => inl code
  | inr o =>
      if falsy (so_exp o) || falsy (so_variant o) then inl 1%Z
      else if negb (isVariantName (so_variant o)) then inl 1%Z
      else inr o
  end.

(** [buildNodeFlags], lines 119-135. *)
Definition buildNodeFlags (o : ScriptOptions) (artifactDir : string)
  : list string :=
  (if so_trace o then ["--trace-opt"; "--trace-deopt"] else [])
  ++ (if so_profile o then ["--cpu-prof"; "--cpu-prof-dir=" +:+ artifactDir]
      else []).

(** [Number.prototype.toString()] on what [parseInt] returned. *)
Definition toStringOrNaN (n : option Z) : string :=
  match n with
  | Some z => numberToString z
  | None => "NaN"
  end.

(** [runExperiment], lines 166-170: the [WARMUP] and [REPEAT] variables
    of the environment of the experiment. *)
Record ChildEnv := {
  env_WARMUP : string;
  env_REPEAT : string;
}.

Definition childEnv (o : ScriptOptions) : ChildEnv :=
  {| env_WARMUP := toStringOrNaN (so_warmup o);
     env_REPEAT := toStringOrNaN (so_repeat o) |}.

(** The experiments, lines 1-2 of each variant file:
    [parseInt(process.env.WARMUP || '1000', 10)]. *)
Definition iterations (value : option string) (fallback : string)
  : option Z :=
  parseInt (if falsy value then fallback else default fallback value).

(** The options the script is to find in the arguments built from
    [opts]. *)
Definition scriptOptionsOf (opts : RunOptions) : ScriptOptions :=
  {| so_exp := Some (exp opts);
     so_variant := Some (variantName (variant opts));
     so_trace := trace opts; so_profile := profile opts;
     so_warmup := Some (warmup opts); so_repeat := Some (repeat_ opts) |}.

(** Every run the service holds came through the validation. *)
Record RunsValid (s : State) : Prop := {
  rv_queue : ∀ run, run ∈ queue s → validOptions (qr_options run);
  rv_worker : ∀ run,
    workerRun (worker s) = Some run → validOptions (qr_options run);
  rv_heap : ∀ i m, heap s !! i = Some m → validRecord m;
}.

(** ** The clock *)

(** The reading of the clock a transition carries, if it carries one. *)
Definition clockOf (l : Label) : option Z :=
  match l with
  | PostRuns _ _ now _ | CreatorIo _ _ now | WorkerIo _ now
  | ProcSettled _ now => Some now
  | ProcStdout _ | ProcStderr _ => None
  end.

(** From the reading [t] on, no reading is below the one before it. *)
Fixpoint clockFrom (t : Z) (ls : list Label) : bool :=
  match ls with
  | [] => true
  | l :: ls' =>
      match clockOf l with
      | Some now => (t <=? now)%Z && clockFrom now ls'
      | None => clockFrom t ls'
      end
  end.

(** The times of a record are in order, and the duration lies between 0
    and the time from [started] to [completed]. *)
Definition timesOk (m : RunMetadata) : Prop :=
  ∀ a, ts_started (timestamps m) = Some a →
    (ts_queued (timestamps m) ≤ a)%Z
    ∧ ∀ c, ts_completed (timestamps m) = Some c →
        (a ≤ c)%Z
        ∧ ∀ r, results m = Some r → (0 ≤ durationMs r ≤ c - a)%Z.

(** No time of the record is after [t]. *)
Definition stampsUpTo (t : Z) (m : RunMetadata) : Prop :=
  (ts_queued (timestamps m) ≤ t)%Z
  ∧ (∀ a, ts_started (timestamps m) = Some a → (a ≤ t)%Z)
  ∧ (∀ c, ts_completed (timestamps m) = Some c → (c ≤ t)%Z).

(** The assignment a step at clock reading [now] makes to the object at
    reference [i]. *)
Inductive touchedAt (s : State) (now : Z) (i : nat) (m : RunMetadata)
  : RunMetadata → Prop :=
| at_started run rest :
    queue s = run :: rest → qr_metadata run = i →
    touchedAt s now i m (markRunning now m)
| at_caught run :
    workerRun (worker s) = Some run → qr_metadata run = i →
    touchedAt s now i m (markCaught now m)
| at_settled res startTime run :
    worker s = Executing run startTime → qr_metadata run = i →
    touchedAt s now i m (settle res (qr_options run) startTime now m).

(** The times of the records against the last reading [t] of the clock,
    and [startTime] against the [started] time of the executing run. *)
Record TimeInv (t : Z) (s : State) : Prop := {
  ti_heap : ∀ i m, heap s !! i = Some m → timesOk m ∧ stampsUpTo t m;
  ti_worker : ∀ run startTime m,
    worker s = Executing run startTime →
    heap s !! qr_metadata run = Some m →
    ∃ a, ts_started (timestamps m) = Some a ∧ (a ≤ startTime ≤ t)%Z;
}.

(** ** frontend/components/LiveLogViewer.tsx *)

(** The state of the component: [logs], [status] and [isLive]. *)
Record Viewer := {
  logs : list string;
  shown : RunStatus;
  isLive : bool;
}.

(** Lines 11-13: the initial state, from the [initialStatus] property. *)
Definition mountViewer (initialStatus : RunStatus) : Viewer :=
  {| logs := []; shown := initialStatus;
     isLive := bool_decide (initialStatus = queued
                            ∨ initialStatus = running) |}.

(** [eventSource.onmessage], lines 22-48. The source exists while
    [isLive] holds and is closed with it. *)
Definition onMessage (e : SseEvent) (v : Viewer) : Viewer :=
  if isLive v then
    match e with
    | sse_status st =>
        {| logs := logs v; shown := st; isLive := isLive v |}
    | sse_stdout chunk | sse_stderr chunk =>
        {| logs := logs v ++ [chunk]; shown := shown v;
           isLive := isLive v |}
    | sse_complete run =>
        {| logs := logs v; shown := status run; isLive := false |}
    | sse_error message =>
        {| logs := logs v ++ ["ERROR: " +:+ message]; shown := shown v;
           isLive := isLive v |}
    end
  else v.

(** The line of the log a frame adds, if it adds one. *)
Definition logLine (e : SseEvent) : option string :=
  match e with
  | sse_stdout chunk | sse_stderr chunk => Some chunk
  | sse_error message => Some ("ERROR: " +:+ message)
  | sse_status _ | sse_complete _ => None
  end.

(** The component after the frames of its stream. *)
Definition viewerAfter (initialStatus : RunStatus) (frames : list SseEvent)
  : Viewer :=
  foldl (λ v e, onMessage e v) (mountViewer initialStatus) frames.

(** ** The files against the run objects *)

(** [m] is the object [m'] as it was at some earlier time: what
    [createRun] recorded is the same, and the status is not further on. *)
Definition behind (m m' : RunMetadata) : Prop :=
  md_id m = md_id m' ∧ experiment m = experiment m'
  ∧ md_variant m = md_variant m' ∧ options m = options m'
  ∧ environment m = environment m'
  ∧ ts_queued (timestamps m) = ts_queued (timestamps m')
  ∧ statusRank (status m) ≤ statusRank (status m').

(** [m] is an earlier state of one of the run objects of the service. *)
Definition snapshot (s : State) (m : RunMetadata) : Prop :=
  ∃ i m', heap s !! i = Some m' ∧ behind m m'.

Definition phaseSnapshot (s : State) (ph : SavePhase) : Prop :=
  match ph with
  | AwaitMkdir => True
  | AwaitWriteFile _ content => snapshot s content
  end.

(** The parsable files of [d] were there at start-up, in [d0], or hold
    snapshots. *)
Definition filesFrom (d0 : gmap string FileContent) (s : State)
    (d : gmap string FileContent) : Prop :=
  ∀ name m, d !! name = Some (JsonText m) →
    d0 !! name = Some (JsonText m) ∨ snapshot s m.

Record SnapInv (d0 : gmap string FileContent) (s : State) : Prop := {
  snap_disk : filesFrom d0 s (disk s);
  snap_creators : Forall (λ c, phaseSnapshot s (cr_phase c)) (creators s);
  snap_worker : ∀ ph, workerPhase (worker s) = Some ph → phaseSnapshot s ph;
}.


(** * Validation *)

Section validation.
Implicit Types (q : Q) (lo hi : Z) (b : RequestBody).

Lemma integerValue_exact q :
  isInteger q = true → (Qnum q = integerValue q * Z.pos (Qden q))%Z.
Proof.
  unfold isInteger, integerValue. intros H%Z.eqb_eq.
  pose proof (Z.div_mod (Qnum q) (Z.pos (Qden q))). lia.
Qed.

Lemma intRangeSchema_accepts lo hi q :
  isInteger q = true →
  (inject_Z lo <= q)%Q → (q <= inject_Z hi)%Q →
  intRangeSchema lo hi (JNumber q) = inr (integerValue q).
Proof.
  intros Hint Hlo%Qle_bool_iff Hhi%Qle_bool_iff.
  unfold intRangeSchema. by rewrite Hint, Hlo, Hhi.
Qed.

Lemma intRangeSchema_below lo hi q :
  (q < inject_Z lo)%Q →
  ∃ codes, intRangeSchema lo hi (JNumber q) = inl codes
           ∧ too_small ∈ codes.
Proof.
  intros Hlt. unfold intRangeSchema.
  destruct (Qle_bool (inject_Z lo) q) eqn:E.
  { apply Qle_bool_iff in E. by apply Qle_not_lt in E. }
  destruct (isInteger q), (Qle_bool q (inject_Z hi));
    (eexists; split; [reflexivity | set_solver]).
Qed.

Lemma intRangeSchema_above lo hi q :
  (inject_Z hi < q)%Q →
  ∃ codes, intRangeSchema lo hi (JNumber q) = inl codes ∧ too_big ∈ codes.
Proof.
  intros Hlt. unfold intRangeSchema.
  destruct (Qle_bool q (inject_Z hi)) eqn:E.
  { apply Qle_bool_iff in E. by apply Qle_not_lt in E. }
  destruct (isInteger q), (Qle_bool (inject_Z lo) q);
    (eexists; split; [reflexivity | set_solver]).
Qed.

(** What the number schema lets through is an integer of the range. *)
Lemma intRangeSchema_sound lo hi v n :
  intRangeSchema lo hi v = inr n →
  (lo ≤ n ≤ hi)%Z
  ∧ ∃ q, v = JNumber q ∧ isInteger q = true ∧ n = integerValue q.
Proof.
  destruct v as [| |?|q|?|?|]; try discriminate. unfold intRangeSchema.
  destruct (isInteger q) eqn:Hint; [|discriminate].
  destruct (Qle_bool (inject_Z lo) q) eqn:Hlo; [|discriminate].
  destruct (Qle_bool q (inject_Z hi)) eqn:Hhi; [|discriminate].
  simpl. intros [= <-]. split; [|eauto].
  apply Qle_bool_iff in Hlo, Hhi. apply integerValue_exact in Hint.
  unfold Qle, inject_Z in *. simpl in *.
  set (d := Z.pos (Qden q)) in *. assert (0 < d)%Z by (unfold d; lia).
  nia.
Qed.

Lemma safeParse_Success b opts :
  safeParse (Some b) = Success opts ↔
  expSchema (body_exp b) = inr (exp opts)
  ∧ variantSchema (body_variant b) = inr (variant opts)
  ∧ traceSchema (body_trace b) = inr (trace opts)
  ∧ profileSchema (body_profile b) = inr (profile opts)
  ∧ warmupSchema (body_warmup b) = inr (warmup opts)
  ∧ repeatSchema (body_repeat b) = inr (repeat_ opts).
Proof.
  unfold safeParse. split.
  - destruct (expSchema (body_exp b)), (variantSchema (body_variant b)),
      (traceSchema (body_trace b)), (profileSchema (body_profile b)),
      (warmupSchema (body_warmup b)), (repeatSchema (body_repeat b));
      try discriminate.
    by intros [= <-].
  - intros (-> & -> & -> & -> & -> & ->). by destruct opts.
Qed.

Lemma safeParse_Failure b errors :
  safeParse (Some b) = Failure errors → errors = issuesOf b.
Proof.
  unfold safeParse.
  destruct (expSchema (body_exp b)), (variantSchema (body_variant b)),
      (traceSchema (body_trace b)), (profileSchema (body_profile b)),
      (warmupSchema (body_warmup b)), (repeatSchema (body_repeat b));
    try discriminate; by intros [= <-].
Qed.

Lemma safeParse_total b :
  (∃ opts, safeParse (Some b) = Success opts)
  ∨ safeParse (Some b) = Failure (issuesOf b).
Proof.
  destruct (safeParse (Some b)) as [opts|errors] eqn:E; [eauto|].
  right. by rewrite (safeParse_Failure _ _ E).
Qed.

Lemma issuesAt_elem {A} key (r : list IssueCode + A) i :
  i ∈ issuesAt key r ↔ ∃ codes c, r = inl codes ∧ c ∈ codes
                                   ∧ i = {| path := key; code := c |}.
Proof.
  destruct r as [codes|a]; simpl.
  - rewrite list_elem_of_fmap. split.
    + intros (c & -> & Hc). eauto.
    + intros (? & c & [= <-] & Hc & ->). eauto.
  - split; [by intros ?%elem_of_nil | by intros (? & ? & ? & _)].
Qed.

Lemma issuesAt_path {A} key (r : list IssueCode + A) i :
  i ∈ issuesAt key r → path i = key.
Proof. intros (? & ? & _ & _ & ->)%issuesAt_elem. done. Qed.

(** A failing field fails the whole request, and its issues are
    reported under its key. *)
Lemma safeParse_rejects_warmup b codes :
  warmupSchema (body_warmup b) = inl codes →
  safeParse (Some b) = Failure (issuesOf b)
  ∧ ∀ c, c ∈ codes → {| path := "warmup"; code := c |} ∈ issuesOf b.
Proof.
  intros Hw. split.
  - destruct (safeParse_total b) as [[opts Hs]|]; [|done].
    apply safeParse_Success in Hs. destruct Hs as (_&_&_&_&Hs&_).
    congruence.
  - intros c Hc. unfold issuesOf. rewrite !elem_of_app.
    do 4 right. left. apply issuesAt_elem. eauto.
Qed.

Lemma safeParse_rejects_repeat b codes :
  repeatSchema (body_repeat b) = inl codes →
  safeParse (Some b) = Failure (issuesOf b)
  ∧ ∀ c, c ∈ codes → {| path := "repeat"; code := c |} ∈ issuesOf b.
Proof.
  intros Hw. split.
  - destruct (safeParse_total b) as [[opts Hs]|]; [|done].
    apply safeParse_Success in Hs. destruct Hs as (_&_&_&_&_&Hs).
    congruence.
  - intros c Hc. unfold issuesOf. rewrite !elem_of_app.
    do 5 right. apply issuesAt_elem. eauto.
Qed.

Lemma safeParse_rejects_exp b codes :
  expSchema (body_exp b) = inl codes →
  safeParse (Some b) = Failure (issuesOf b)
  ∧ ∀ c, c ∈ codes → {| path := "exp"; code := c |} ∈ issuesOf b.
Proof.
  intros Hw. split.
  - destruct (safeParse_total b) as [[opts Hs]|]; [|done].
    apply safeParse_Success in Hs. destruct Hs as (Hs&_).
    congruence.
  - intros c Hc. unfold issuesOf. rewrite !elem_of_app.
    left. apply issuesAt_elem. eauto.
Qed.

Lemma outsideRange_rejected lo hi d v :
  outsideRange lo hi v →
  ∃ codes, optionalDefault (intRangeSchema lo hi) d v = inl codes
           ∧ codes ≠ [].
Proof.
  intros [[negative ->]|(q & -> & [Hlt|Hlt])]; unfold optionalDefault.
  - by eexists.
  - destruct (intRangeSchema_below lo hi q Hlt) as (codes & -> & Hin).
    exists codes. split; [done|]. by intros ->; apply elem_of_nil in Hin.
  - destruct (intRangeSchema_above lo hi q Hlt) as (codes & -> & Hin).
    exists codes. split; [done|]. by intros ->; apply elem_of_nil in Hin.
Qed.

Lemma withinRange_accepted lo hi d v :
  withinRange lo hi v →
  ∃ n, optionalDefault (intRangeSchema lo hi) d v = inr n
       ∧ (lo ≤ n ≤ hi)%Z.
Proof.
  intros (q & -> & Hint & Hlo & Hhi). unfold optionalDefault.
  pose proof (intRangeSchema_accepts lo hi q Hint Hlo Hhi) as Hacc.
  exists (integerValue q). split; [done|].
  by apply intRangeSchema_sound in Hacc as [? _].
Qed.

Lemma respond_frame r s :
  heap (respond r s) = heap s ∧ queue (respond r s) = queue s
  ∧ creators (respond r s) = creators s ∧ disk (respond r s) = disk s
  ∧ worker (respond r s) = worker s
  ∧ processing (respond r s) = processing s
  ∧ currentRun (respond r s) = currentRun s
  ∧ emitted (respond r s) = emitted s.
Proof. done. Qed.
End validation.

Lemma postRuns_accepts b opts uuid now proc s :
  safeParse (Some b) = Success opts →
  postRuns (Some b) uuid now proc s = createRun_begin opts uuid now proc s.
Proof. unfold postRuns. by intros ->. Qed.

(** C4. A submission whose warmup count lies outside 0..100000 or whose
    measured count lies outside 1..1000000 is answered at once with 400
    and the issues of validation, among them one under the key of the
    offending field; the queue, the run objects, the suspended
    [createRun] calls and the files are left as they were. Conversely
    whole numbers within the two ranges pass the checks of both fields
    with their own values, so no issue is reported under either key:
    when [safeParse] fails on such a request, none of its issues is about
    the two counts, and when the four other fields pass their checks,
    [safeParse] succeeds with the two counts, the route does not answer
    400 and the run is queued with a new record. *)
Theorem C4_bounds_enforced_before_admission
    (b : RequestBody) (uuid : string) (now : Z) (proc : ProcessInfo)
    (s : State) :
  (outsideRange 0 100000 (body_warmup b)
   ∨ outsideRange 1 1000000 (body_repeat b) →
   let s' := postRuns (Some b) uuid now proc s in
   safeParse (Some b) = Failure (issuesOf b)
   ∧ (∃ i, i ∈ issuesOf b ∧ (path i = "warmup" ∨ path i = "repeat"))
   ∧ responses s' = responses s ++ [BadRequest (issuesOf b)]
   ∧ queue s' = queue s ∧ heap s' = heap s ∧ creators s' = creators s
   ∧ disk s' = disk s ∧ worker s' = worker s)
  ∧ (withinRange 0 100000 (body_warmup b) →
     withinRange 1 1000000 (body_repeat b) →
     (∃ w r, warmupSchema (body_warmup b) = inr w
             ∧ repeatSchema (body_repeat b) = inr r
             ∧ (0 ≤ w ≤ 100000)%Z ∧ (1 ≤ r ≤ 1000000)%Z)
     ∧ (∀ i, i ∈ issuesOf b →
             path i ≠ "warmup" ∧ path i ≠ "repeat")
     ∧ (∀ errors, safeParse (Some b) = Failure errors →
          ∀ i, i ∈ errors → path i ≠ "warmup" ∧ path i ≠ "repeat")
     ∧ ∀ e v t p,
         expSchema (body_exp b) = inr e →
         variantSchema (body_variant b) = inr v →
         traceSchema (body_trace b) = inr t →
         profileSchema (body_profile b) = inr p →
         ∃ w r,
           let opts := {| exp := e; variant := v; trace := t; profile := p;
                          warmup := w; repeat_ := r |} in
           let s' := postRuns (Some b) uuid now proc s in
           safeParse (Some b) = Success opts
           ∧ (0 ≤ w ≤ 100000)%Z ∧ (1 ≤ r ≤ 1000000)%Z
           ∧ responses s' = responses s
           ∧ queue s' = queue s ++ [{| qr_id := uuid; qr_options := opts;
                                       qr_metadata := length (heap s) |}]
           ∧ heap s' = heap s ++ [newMetadata uuid now proc opts]).
Proof.
  split.
  - intros Hout.
    assert (safeParse (Some b) = Failure (issuesOf b)
            ∧ ∃ i, i ∈ issuesOf b
                   ∧ (path i = "warmup" ∨ path i = "repeat"))
      as [Hfail Hissue].
    { destruct Hout as [Hout|Hout].
      - apply (outsideRange_rejected _ _ (JNumber (inject_Z 1000))) in Hout
          as (codes & Hcodes & Hne).
        destruct (safeParse_rejects_warmup b codes Hcodes) as [Hf Hin].
        split; [done|]. destruct codes as [|c codes]; [done|].
        eexists. split; [apply (Hin c); left | by left].
      - apply (outsideRange_rejected _ _ (JNumber (inject_Z 100000))) in Hout
          as (codes & Hcodes & Hne).
        destruct (safeParse_rejects_repeat b codes Hcodes) as [Hf Hin].
        split; [done|]. destruct codes as [|c codes]; [done|].
        eexists. split; [apply (Hin c); left | by right]. }
    simpl. unfold postRuns. rewrite Hfail. done.
  - intros Hw Hr.
    apply (withinRange_accepted _ _ (JNumber (inject_Z 1000))) in Hw
      as (w & Hw & Hwb).
    apply (withinRange_accepted _ _ (JNumber (inject_Z 100000))) in Hr
      as (r & Hr & Hrb).
    assert (∀ i, i ∈ issuesOf b → path i ≠ "warmup" ∧ path i ≠ "repeat")
      as Hissues.
    { intros i. unfold issuesOf. rewrite !elem_of_app.
      unfold warmupSchema, repeatSchema. rewrite Hw, Hr. simpl.
      rewrite !elem_of_nil.
      intros [H|[H|[H|[H|[[]|[]]]]]]; apply issuesAt_path in H;
        by rewrite H. }
    split; [by exists w, r|]. split; [exact Hissues|]. split.
    + intros errors ->%safeParse_Failure. exact Hissues.
    + intros e v t p He Hv Ht Hp. exists w, r.
      assert (safeParse (Some b)
              = Success {| exp := e; variant := v; trace := t; profile := p;
                           warmup := w; repeat_ := r |}) as Hok
        by (by apply safeParse_Success).
      simpl. rewrite (postRuns_accepts _ _ _ _ _ _ Hok). done.
Qed.

Lemma C4_witness :
  (responses (postRuns (Some overTheBound) "run-1" 5 host (initial ∅))
   = [BadRequest [{| path := "repeat"; code := too_big |}]]
   ∧ queue (postRuns (Some overTheBound) "run-1" 5 host (initial ∅)) = []
   ∧ heap (postRuns (Some overTheBound) "run-1" 5 host (initial ∅)) = []
   ∧ disk (postRuns (Some overTheBound) "run-1" 5 host (initial ∅)) = ∅)
  ∧ (∀ i, i ∈ issuesOf withinBounds →
          path i ≠ "warmup" ∧ path i ≠ "repeat")
  ∧ ∃ opts,
      safeParse (Some withinBounds) = Success opts
      ∧ warmup opts = 10%Z ∧ repeat_ opts = 100%Z
      ∧ responses (postRuns (Some withinBounds) "run-1" 5 host (initial ∅))
        = []
      ∧ queue (postRuns (Some withinBounds) "run-1" 5 host (initial ∅))
        = [{| qr_id := "run-1"; qr_options := opts; qr_metadata := 0 |}].
Proof.
  split.
  - destruct (C4_bounds_enforced_before_admission overTheBound "run-1" 5
                host (initial ∅)) as [Hrej _].
    destruct Hrej as (_ & _ & Hresp & Hq & Hh & _ & Hd & _).
    { right. right. exists (inject_Z 2000000). split; [reflexivity|].
      right. reflexivity. }
    rewrite Hresp, Hq, Hh, Hd. repeat split.
  - destruct (C4_bounds_enforced_before_admission withinBounds "run-1" 5
                host (initial ∅)) as [_ Hpass].
    destruct Hpass as (_ & Hissues & _ & Hall).
    + exists (inject_Z 10). do 2 (split; [reflexivity|]).
      split; unfold Qle; simpl; lia.
    + exists (inject_Z 100). do 2 (split; [reflexivity|]).
      split; unfold Qle; simpl; lia.
    + split; [exact Hissues|].
      destruct (Hall "01-hidden-classes" baseline false false
                  eq_refl eq_refl eq_refl eq_refl)
        as (w & r & Hok & _ & _ & Hresp & Hq & _).
      eexists. split; [exact Hok|].
      assert (w = 10%Z ∧ r = 100%Z) as [-> ->].
      { vm_compute in Hok. by injection Hok as <- <-. }
      do 2 (split; [reflexivity|]). split; [exact Hresp | exact Hq].
Defined.

Lemma expSchema_inr v e :
  expSchema v = inr e ↔
  v = JString e ∧ 1 ≤ String.length e ≤ 100 ∧ matchesSlug e = true.
Proof.
  split.
  - destruct v as [| |?|?|?|s|]; try discriminate. unfold expSchema.
    destruct (String.length s <? 1) eqn:H1; [discriminate|].
    destruct (100 <? String.length s) eqn:H2; [discriminate|].
    destruct (matchesSlug s) eqn:H3; [|discriminate].
    simpl. intros [= <-].
    apply Nat.ltb_ge in H1, H2. done.
  - intros (-> & [H1 H2] & H3). unfold expSchema.
    apply Nat.ltb_ge in H1, H2. by rewrite H1, H2, H3.
Qed.

(** C10. The schema maps an absent [trace], [profile], [warmup] or
    [repeat] to false, false, 1000 and 100000; in every request that
    validates, each omitted field has that value in the validated options,
    and the run the request admits is created in status queued with those
    options recorded. *)
Theorem C10_defaults_fill_omitted_options
    (b : RequestBody) (uuid : string) (now : Z) (proc : ProcessInfo)
    (s : State) :
  (traceSchema JUndefined = inr false
   ∧ profileSchema JUndefined = inr false
   ∧ warmupSchema JUndefined = inr 1000%Z
   ∧ repeatSchema JUndefined = inr 100000%Z)
  ∧ ∀ opts, safeParse (Some b) = Success opts →
      (body_trace b = JUndefined → trace opts = false)
      ∧ (body_profile b = JUndefined → profile opts = false)
      ∧ (body_warmup b = JUndefined → warmup opts = 1000%Z)
      ∧ (body_repeat b = JUndefined → repeat_ opts = 100000%Z)
      ∧ ∃ m, heap (postRuns (Some b) uuid now proc s) = heap s ++ [m]
             ∧ md_id m = uuid ∧ status m = queued
             ∧ options m = {| o_trace := trace opts;
                              o_profile := profile opts;
                              o_warmup := warmup opts;
                              o_repeat := repeat_ opts |}
             ∧ queue (postRuns (Some b) uuid now proc s)
               = queue s ++ [{| qr_id := uuid; qr_options := opts;
                                qr_metadata := length (heap s) |}].
Proof.
  split; [done|]. intros opts Hok.
  rewrite (postRuns_accepts _ _ _ _ _ _ Hok).
  apply safeParse_Success in Hok as (_ & _ & Ht & Hp & Hw & Hr).
  repeat split.
  - intros E. rewrite E in Ht. by injection Ht.
  - intros E. rewrite E in Hp. by injection Hp.
  - intros E. rewrite E in Hw. by injection Hw.
  - intros E. rewrite E in Hr. by injection Hr.
  - by eexists.
Qed.

Lemma C10_witness :
  ∃ m, heap (postRuns (Some bareRequest) "run-1" 5 host (initial ∅)) = [m]
       ∧ options m = {| o_trace := false; o_profile := false;
                        o_warmup := 1000; o_repeat := 100000 |}.
Proof.
  destruct (C10_defaults_fill_omitted_options bareRequest "run-1" 5 host
              (initial ∅)) as [_ H].
  destruct (H {| exp := "01-hidden-classes"; variant := deopt;
                 trace := false; profile := false;
                 warmup := 1000; repeat_ := 100000 |} eq_refl)
    as (_ & _ & _ & _ & m & Hheap & _ & _ & Hopts & _).
  exists m. split; [exact Hheap | exact Hopts].
Defined.

(** C5 as the claim states it fails: a well-formed identifier that is not
    in the catalog is admitted, enqueued and, once the write lands,
    persisted and answered with 201. *)
Lemma C5_unknown_script_is_enqueued :
  ¬ (∀ (catalog : list string) (b : RequestBody) (e uuid : string)
       (now : Z) (proc : ProcessInfo) (s : State),
        body_exp b = JString e → ¬ knownScript catalog e →
        ∃ errors,
          postRuns (Some b) uuid now proc s = respond (BadRequest errors) s).
Proof.
  intros H.
  destruct (H ["01-hidden-classes"] ghostRequest "no-such-experiment"
              "run-1" 5%Z host (initial ∅) eq_refl) as [errors Heq].
  - unfold knownScript. rewrite list_elem_of_singleton. discriminate.
  - apply (f_equal queue) in Heq. discriminate Heq.
Qed.

(** C5, amended. The script identifier is checked for its shape only: a
    value that is not a string of 1 to 100 letters, digits, underscores
    and hyphens is answered with 400 and leaves the service untouched,
    while every request that validates, whatever the catalog holds, is
    admitted under the fresh identifier, with its run object created and
    enqueued. *)
Theorem C5_script_identifier_checked_for_shape_only
    (b : RequestBody) (uuid : string) (now : Z) (proc : ProcessInfo)
    (s : State) :
  (∀ e, expSchema (body_exp b) = inr e ↔
        body_exp b = JString e ∧ 1 ≤ String.length e ≤ 100
        ∧ matchesSlug e = true)
  ∧ (∀ codes, expSchema (body_exp b) = inl codes →
       postRuns (Some b) uuid now proc s
       = respond (BadRequest (issuesOf b)) s
       ∧ ∀ c, c ∈ codes → {| path := "exp"; code := c |} ∈ issuesOf b)
  ∧ (∀ opts, safeParse (Some b) = Success opts →
       body_exp b = JString (exp opts)
       ∧ queue (postRuns (Some b) uuid now proc s)
         = queue s ++ [{| qr_id := uuid; qr_options := opts;
                          qr_metadata := length (heap s) |}]
       ∧ heap (postRuns (Some b) uuid now proc s)
         = heap s ++ [newMetadata uuid now proc opts]
       ∧ creators (postRuns (Some b) uuid now proc s)
         = creators s ++ [{| cr_run := {| qr_id := uuid; qr_options := opts;
                                          qr_metadata := length (heap s) |};
                             cr_phase := AwaitMkdir |}]).
Proof.
  split; [intros e; apply expSchema_inr|]. split.
  - intros codes Hc. destruct (safeParse_rejects_exp b codes Hc) as [Hf Hin].
    split; [|done]. unfold postRuns. by rewrite Hf.
  - intros opts Hok. rewrite (postRuns_accepts _ _ _ _ _ _ Hok).
    apply safeParse_Success in Hok as (He & _).
    apply expSchema_inr in He as (He & _). done.
Qed.

Lemma C5_witness :
  queue (postRuns (Some ghostRequest) "run-1" 5 host (initial ∅))
  = [{| qr_id := "run-1";
        qr_options := {| exp := "no-such-experiment"; variant := baseline;
                         trace := false; profile := false;
                         warmup := 1000; repeat_ := 100000 |};
        qr_metadata := 0 |}].
Proof.
  destruct (C5_script_identifier_checked_for_shape_only ghostRequest "run-1"
              5 host (initial ∅)) as (_ & _ & H).
  destruct (H {| exp := "no-such-experiment"; variant := baseline;
                 trace := false; profile := false;
                 warmup := 1000; repeat_ := 100000 |} eq_refl)
    as (_ & Hq & _).
  exact Hq.
Defined.

(** * Reads *)

Section listing.
Implicit Types (files : list (string * FileContent)) (m : RunMetadata).
Implicit Types (p : Parsed) (l : list Parsed).

Lemma insertBy_Permutation {A} (compare : A → A → Z) (x : A) (l : list A) :
  insertBy compare x l ≡ₚ x :: l.
Proof.
  induction l as [|y l IH]; simpl; [done|].
  destruct (compare x y <=? 0)%Z; [done|].
  rewrite IH. apply Permutation_swap.
Qed.

Lemma sortBy_Permutation {A} (compare : A → A → Z) (l : list A) :
  sortBy compare l ≡ₚ l.
Proof.
  induction l as [|x l IH]; simpl; [done|].
  by rewrite insertBy_Permutation, IH.
Qed.





Lemma elem_of_readRuns files p :
  p ∈ readRuns files ↔ ∃ name c, (name, c) ∈ files ∧ parse c = Some p.
Proof.
  unfold readRuns. rewrite list_elem_of_omap. split.
  - intros ([name c] & Hin & Hp). by exists name, c.
  - intros (name & c & Hin & Hp). by exists (name, c).
Qed.

Lemma parse_IsRun c m : parse c = Some (IsRun m) ↔ c = JsonText m.
Proof. destruct c; split; intros; simplify_eq/=; done. Qed.

Lemma parse_NotRun c v : parse c = Some (NotRun v) ↔ c = JsonOther v.
Proof. destruct c; split; intros; simplify_eq/=; done. Qed.


(** A directory whose parsed values all have a valid queued time is
    listed sorted. *)
Lemma listRuns_sortable files :
  (∀ p, p ∈ readRuns (filter (λ f, endsWith f.1 ".json" = true) files) →
        ∃ t, queuedOf p = ReadAt t) →
  listRuns (Some files)
  = Returned (sortBy byQueuedDesc
                (readRuns (filter (λ f, endsWith f.1 ".json" = true)
                             files))).
Proof.
  intros Hok. unfold listRuns.
  set (runs := readRuns (filter (λ f, endsWith f.1 ".json" = true) files))
    in *.
  destruct (length runs <? 2) eqn:Hlen.
  { apply Nat.ltb_lt in Hlen. destruct runs as [|p [|q runs']]; simpl in *;
      [done|done|lia]. }
  rewrite bool_decide_eq_false_2.
  2: { intros (p & Hr & Hp)%list_elem_of_fmap.
       destruct (Hok p Hp) as [t Ht]. congruence. }
  rewrite bool_decide_eq_false_2; [done|].
  intros (p & Hr & Hp)%list_elem_of_fmap.
  destruct (Hok p Hp) as [t Ht]. congruence.
Qed.

End listing.




(** * The live stream *)

Lemma deliver_closed id e st : listening st = false → deliver id e st = st.
Proof. unfold deliver. by intros ->. Qed.

Lemma deliver_all_closed id es st :
  listening st = false → foldl (λ st e, deliver id e st) st es = st.
Proof.
  intros Hst. induction es as [|e es IH]; simpl; [done|].
  by rewrite deliver_closed.
Qed.

(** C2 as the claim states it fails: the stream of a finished run starts
    with a [status] frame, so [complete] is its second frame and not its
    only one. *)
Lemma C2_status_frame_comes_first :
  ¬ (∀ (id : string) (d : gmap string FileContent) (run : RunMetadata),
        getRun id d = Some (IsRun run) →
        status run = completed ∨ status run = failed →
        ∃ st, openStream id d = EventStream st
              ∧ written st = [sse_complete run] ∧ ended st = true).
Proof.
  intros H.
  assert (getRun "run-1" {[ "run-1.json" := JsonText finishedRun ]}
          = Some (IsRun finishedRun)) as Hget by (vm_compute; reflexivity).
  destruct (H "run-1" {[ "run-1.json" := JsonText finishedRun ]} finishedRun
              Hget (or_introl eq_refl)) as (st & Hst & Hw & _).
  vm_compute in Hst. injection Hst as <-. discriminate Hw.
Qed.

(** C2, amended. For a run whose stored record is completed or failed
    when the viewer subscribes, the stream consists of exactly two frames,
    [status] with the status of the record and then [complete] with the
    record itself; the response is ended, no listener is registered, and
    so no event the service emits afterwards, stdout and stderr chunks
    included, adds a frame. *)
Theorem C2_terminal_stream_is_status_then_complete
    (id : string) (d : gmap string FileContent) (run : RunMetadata)
    (later : list RunEvent) :
  getRun id d = Some (IsRun run) →
  status run = completed ∨ status run = failed →
  ∃ st, openStream id d = EventStream st
        ∧ written st = [sse_status (status run); sse_complete run]
        ∧ ended st = true ∧ listening st = false
        ∧ foldl (λ st e, deliver id e st) st later = st.
Proof.
  intros Hget Hterm. unfold openStream. rewrite Hget.
  rewrite decide_True by done.
  eexists. split; [reflexivity|]. repeat split.
  by apply deliver_all_closed.
Qed.

Lemma C2_witness :
  ∃ st, openStream "run-1" {[ "run-1.json" := JsonText finishedRun ]}
        = EventStream st
        ∧ written st = [sse_status completed; sse_complete finishedRun]
        ∧ foldl (λ st e, deliver "run-1" e st) st
            [run_stdout "run-1" "late"; run_stderr "run-1" "late"] = st.
Proof.
  assert (getRun "run-1" {[ "run-1.json" := JsonText finishedRun ]}
          = Some (IsRun finishedRun)) as Hget by (vm_compute; reflexivity).
  destruct (C2_terminal_stream_is_status_then_complete "run-1"
              {[ "run-1.json" := JsonText finishedRun ]} finishedRun
              [run_stdout "run-1" "late"; run_stderr "run-1" "late"]
              Hget (or_introl eq_refl))
    as (st & Hopen & Hw & _ & _ & Hlater).
  exists st. split; [exact Hopen|]. split; [exact Hw | exact Hlater].
Defined.

(** * Steps *)

Section steps.
Implicit Types (s : State) (l : Label).

Lemma step_transition l s s' : step l s = Some s' → transition l s = Some s'.
Proof. unfold step. by destruct (alive s). Qed.

Lemma step_alive l s s' : step l s = Some s' → alive s = true.
Proof. unfold step. by destruct (alive s). Qed.

Lemma transition_step l s s' :
  alive s = true → transition l s = Some s' → step l s = Some s'.
Proof. unfold step. by intros ->. Qed.

End steps.

(** * The invariant holds in every reachable state *)

Section invariant.
Implicit Types (s : State) (m : RunMetadata) (run : QueuedRun).

Lemma Inv_initial d : Inv (initial d).
Proof.
  constructor; simpl; try done.
  - constructor.
  - by intros i ?%elem_of_nil.
Qed.

Lemma Inv_frame s s' :
  Inv s →
  heap s' = heap s → queue s' = queue s → worker s' = worker s →
  processing s' = processing s → currentRun s' = currentRun s →
  Inv s'.
Proof.
  intros [Iq_nodup Iq_valid Iw_ref I_status I_proc I_cur I_link I_art].
  intros Hh Hq Hw Hp Hc.
  constructor; unfold statusOk, queueRefs, runningRef in *;
    rewrite ?Hh, ?Hq, ?Hw, ?Hp, ?Hc; done.
Qed.

Lemma Inv_createRun_begin opts id now proc s :
  Inv s → Inv (createRun_begin opts id now proc s).
Proof.
  intros [Iq_nodup Iq_valid Iw_ref I_status I_proc I_cur I_link I_art].
  assert (length (heap s) ∉ queueRefs s) as Hfresh.
  { intros H%Iq_valid. lia. }
  constructor; unfold statusOk, queueRefs, runningRef in *; simpl.
  - rewrite fmap_app. simpl. apply NoDup_app. split; [done|].
    split; [|apply NoDup_singleton].
    intros i Hi ->%list_elem_of_singleton. done.
  - intros i. rewrite fmap_app, elem_of_app, length_app. simpl.
    intros [Hi%Iq_valid| ->%list_elem_of_singleton]; lia.
  - intros run Hrun. destruct (Iw_ref run Hrun) as [Hnin Hlt].
    split; [|rewrite length_app; lia]. rewrite fmap_app.
    intros [?|Heq%list_elem_of_singleton]%elem_of_app; [done|].
    simpl in Heq. lia.
  - intros i m [Hi|[Hi Hm]]%lookup_app_Some.
    + specialize (I_status i m Hi). apply lookup_lt_Some in Hi.
      repeat case_decide;
        rewrite ?fmap_app, ?elem_of_app in *; simpl in *;
        rewrite ?list_elem_of_singleton in *; try done;
        exfalso; intuition lia.
    + apply list_lookup_singleton_Some in Hm as [Hz <-].
      assert (i = length (heap s)) as -> by lia.
      rewrite decide_True; [done|].
      rewrite fmap_app, elem_of_app. right. by apply list_elem_of_singleton.
  - done.
  - done.
  - intros run m Hrun Hm.
    assert ((run ∈ queue s ∨ workerRun (worker s) = Some run)
            ∨ run = {| qr_id := id; qr_options := opts;
                       qr_metadata := length (heap s) |}) as [Hold| ->].
    { destruct Hrun as [[?| ->%list_elem_of_singleton]%elem_of_app|?]; eauto. }
    + assert (qr_metadata run < length (heap s)) as Hlt.
      { destruct Hold as [Hq|Hw].
        - apply Iq_valid, list_elem_of_fmap. eauto.
        - by apply Iw_ref. }
      rewrite lookup_app_l in Hm by done. eauto.
    + simpl in Hm. rewrite lookup_app_r, Nat.sub_diag in Hm by done.
      by injection Hm as <-.
  - intros i m [Hi|[Hi Hm]]%lookup_app_Some; [eauto|].
    apply list_lookup_singleton_Some in Hm as [Hz <-]. by left.
Qed.

Lemma lookup_alter_Some {A} (f : A → A) (l : list A) i j y :
  alter f i l !! j = Some y →
  (i = j ∧ ∃ x, l !! i = Some x ∧ y = f x)
  ∨ (i ≠ j ∧ l !! j = Some y).
Proof.
  rewrite list_lookup_alter. case_decide as Hij; [|by right].
  destruct (l !! i) as [x|]; [|done]. intros [= <-]. left. eauto.
Qed.

Lemma runningPhase_workerRun w run :
  runningPhase w = Some run → workerRun w = Some run.
Proof. by destruct w. Qed.

(** The worker moves on within the same phase of the same run. *)
Lemma Inv_worker_same s w' :
  Inv s → workerRun w' = workerRun (worker s) →
  runningPhase w' = runningPhase (worker s) →
  Inv (with_worker w' s).
Proof.
  intros [Iq_nodup Iq_valid Iw_ref I_status I_proc I_cur I_link I_art].
  intros Hrun Hphase.
  constructor; unfold statusOk, queueRefs, runningRef in *; simpl;
    rewrite ?Hrun, ?Hphase.
  - done.
  - done.
  - done.
  - done.
  - intros Hp. specialize (I_proc Hp).
    rewrite I_proc in Hrun. by destruct w'.
  - by rewrite I_cur.
  - done.
  - done.
Qed.

(** The worker brings its run to a terminal status. *)
Lemma Inv_worker_finishes s run f w' :
  Inv s → workerRun (worker s) = Some run →
  workerRun w' = Some run → runningPhase w' = None →
  (∀ m, heap s !! qr_metadata run = Some m →
        terminal (status (f m)) = true ∧ options (f m) = options m
        ∧ md_id (f m) = md_id m ∧ artifactsOk (f m)) →
  Inv (with_worker w' (with_heap (alter f (qr_metadata run) (heap s)) s)).
Proof.
  intros [Iq_nodup Iq_valid Iw_ref I_status I_proc I_cur I_link I_art].
  intros Hrun Hrun' Hphase Hf.
  destruct (Iw_ref run Hrun) as [Hnin Hlt].
  constructor; unfold statusOk, queueRefs, runningRef in *; simpl;
    rewrite ?Hrun', ?Hphase, ?length_alter; simpl.
  - done.
  - done.
  - intros ? [= <-]. done.
  - intros i m' [[<- (m & Hm & ->)]|[Hne Hm]]%lookup_alter_Some.
    + rewrite decide_False by done. by apply Hf.
    + specialize (I_status i m' Hm).
      repeat case_decide; try done.
      destruct (runningPhase (worker s)) as [r|] eqn:Hr; [|done].
      apply runningPhase_workerRun in Hr. simplify_eq/=.
  - intros Hp. specialize (I_proc Hp).
    rewrite I_proc in Hrun. done.
  - rewrite I_cur. congruence.
  - intros r m' Hr [[Href (m & Hm & ->)]|[Hne Hm]]%lookup_alter_Some.
    + destruct (Hf m Hm) as (_ & -> & -> & _).
      rewrite Href in Hm. apply (I_link r m); [|done].
      destruct Hr as [Hr|[= ->]]; [by left | by right].
    + apply (I_link r m'); [|done].
      destruct Hr as [Hr|[= ->]]; [by left | by right].
  - intros i m' [[<- (m & Hm & ->)]|[Hne Hm]]%lookup_alter_Some;
      [by apply Hf | eauto].
Qed.

Lemma markRunning_props now m :
  status (markRunning now m) = running
  ∧ options (markRunning now m) = options m
  ∧ md_id (markRunning now m) = md_id m
  ∧ artifacts (markRunning now m) = artifacts m
  ∧ environment (markRunning now m) = environment m.
Proof. done. Qed.

(** The loop takes the next run, or stops on an empty queue. *)
Lemma Inv_loopHead now s0 s :
  Inv s0 → runningPhase (worker s0) = None →
  heap s = heap s0 → queue s = queue s0 →
  processing s = true → currentRun s = None →
  Inv (loopHead now s).
Proof.
  intros [Iq_nodup Iq_valid Iw_ref I_status I_proc I_cur I_link I_art].
  intros Hphase Hh Hq Hp Hc. unfold loopHead.
  unfold statusOk, queueRefs, runningRef in *.
  rewrite Hphase in I_status. rewrite <- Hh, <- Hq in *.
  destruct (queue s) as [|run rest] eqn:Hqueue.
  - constructor; unfold statusOk, queueRefs, runningRef; simpl;
      rewrite ?Hqueue; simpl.
    + constructor.
    + by intros i ?%elem_of_nil.
    + done.
    + intros i m Hm. specialize (I_status i m Hm).
      by rewrite decide_False in I_status by apply not_elem_of_nil.
    + done.
    + done.
    + by intros r m [?%elem_of_nil|?].
    + done.
  - simpl in *. apply NoDup_cons in Iq_nodup as [Hnin Hnodup].
    assert (qr_metadata run < length (heap s)) as Hlt
      by (apply Iq_valid; left).
    constructor; unfold statusOk, queueRefs, runningRef; simpl;
      rewrite ?length_alter.
    + done.
    + intros i Hi. apply Iq_valid. by right.
    + intros ? [= <-]. done.
    + intros i m' [[<- (m & Hm & ->)]|[Hne Hm]]%lookup_alter_Some.
      * rewrite decide_False by done. by rewrite decide_True.
      * specialize (I_status i m' Hm).
        repeat case_decide; simplify_eq; try done;
          rewrite elem_of_cons in *; exfalso; intuition congruence.
    + congruence.
    + done.
    + intros r m' Hr [[Href (m & Hm & ->)]|[Hne Hm]]%lookup_alter_Some.
      * rewrite Href in Hm. apply (I_link r m); [|done]. left.
        destruct Hr as [Hr|[= ->]]; [by right | by left].
      * apply (I_link r m'); [|done]. left.
        destruct Hr as [Hr|[= ->]]; [by right | by left].
    + intros i m' [[<- (m & Hm & ->)]|[Hne Hm]]%lookup_alter_Some;
        [|eauto].
      pose proof (I_status _ m Hm) as Hst.
      rewrite decide_True in Hst by (by left).
      destruct (I_art _ m Hm) as [[Ha _]|(Hq' & _)]; [|done].
      by left.
Qed.

Lemma Inv_processQueue now s0 s :
  Inv s0 → heap s = heap s0 → queue s = queue s0 →
  worker s = worker s0 → processing s = processing s0 →
  currentRun s = currentRun s0 →
  Inv (processQueue now s).
Proof.
  intros HI Hh Hq Hw Hp Hc. unfold processQueue.
  rewrite Hp. destruct (processing s0) eqn:Hproc;
    [apply (Inv_frame s0); first [done|congruence]|].
  pose proof (inv_processing _ HI Hproc) as Hidle.
  apply (Inv_loopHead now s0); simpl; try done.
  - by rewrite Hidle.
  - by rewrite Hc, (inv_current _ HI), Hidle.
Qed.

Lemma Inv_nextIteration now s0 s :
  Inv s0 → is_Some (workerRun (worker s0)) →
  runningPhase (worker s0) = None →
  heap s = heap s0 → queue s = queue s0 →
  processing s = processing s0 →
  Inv (nextIteration now s).
Proof.
  intros HI [run Hrun] Hphase Hh Hq Hp. unfold nextIteration.
  apply (Inv_loopHead now s0); simpl; try done.
  rewrite Hp. destruct (processing s0) eqn:Hproc; [done|].
  rewrite (inv_processing _ HI Hproc) in Hrun. done.
Qed.

Lemma artifactsOk_markCaught now m :
  artifactsOk m → artifactsOk (markCaught now m).
Proof.
  intros [[Ha _]|(_ & _ & Hopts)]; [by left | by right].
Qed.

Lemma Inv_caught s run now :
  Inv s → workerRun (worker s) = Some run → Inv (caught run now s).
Proof.
  intros HI Hrun. unfold caught.
  apply Inv_worker_finishes; try done.
  intros m Hm. repeat split; try done.
  apply artifactsOk_markCaught. by eapply inv_artifacts.
Qed.

Lemma Inv_settled s run startTime res now :
  Inv s → worker s = Executing run startTime →
  Inv (with_worker (SavingFinal run AwaitMkdir)
         (with_heap (alter (settle res (qr_options run) startTime now)
                       (qr_metadata run) (heap s)) s)).
Proof.
  intros HI Hw.
  assert (workerRun (worker s) = Some run) as Hrun by (by rewrite Hw).
  apply Inv_worker_finishes; try done.
  intros m Hm.
  destruct (inv_link _ HI run m (or_intror Hrun) Hm) as [Hopts _].
  destruct (inv_worker_ref _ HI run Hrun) as [Hnin _].
  pose proof (inv_status _ HI _ m Hm) as Hst. unfold statusOk in Hst.
  rewrite decide_False in Hst by done.
  rewrite decide_True in Hst by (unfold runningRef; by rewrite Hw).
  destruct res as [|error]; simpl; repeat split; try done.
  - right. repeat split; try done. by exists (qr_options run).
  - left. destruct (inv_artifacts _ HI _ m Hm) as [[Ha _]|(_ & Hr & _)];
      done.
Qed.

Lemma Inv_transition l s s' : Inv s → transition l s = Some s' → Inv s'.
Proof.
  intros HI Hstep. destruct l as [body uuid now proc|k res now|res now
                                  |chunk|chunk|res now]; simpl in Hstep.
  - injection Hstep as <-. unfold postRuns.
    destruct (safeParse body); [by apply Inv_createRun_begin|].
    by apply (Inv_frame s).
  - unfold creatorIo in Hstep.
    destruct (creators s !! k) as [c|]; [|done]. simpl in Hstep.
    destruct (saveMetadata_resume _ _ _ _ _) as [[ph|d|]|]; [..|done];
      injection Hstep as <-.
    + by apply (Inv_frame s).
    + apply (Inv_frame
               (processQueue now
                  (with_disk d (with_creators (delete k (creators s)) s))));
        [by apply (Inv_processQueue now s)|done..].
    + by apply (Inv_frame s).
  - unfold workerIo in Hstep.
    destruct (worker s) as [|run ph|run t|run ph|run ph|run] eqn:Hw;
      try done.
    + destruct (saveMetadata_resume _ _ _ _ _) as [[ph'|d|]|]; [..|done];
        injection Hstep as <-.
      * apply Inv_worker_same; [done|by rewrite Hw..].
      * eapply Inv_frame;
          [apply (Inv_worker_same s (Executing run now));
             [done|by rewrite Hw..]|done..].
      * apply Inv_caught; [done|by rewrite Hw].
    + destruct (saveMetadata_resume _ _ _ _ _) as [[ph'|d|]|]; [..|done];
        simpl in Hstep.
      * injection Hstep as <-.
        apply Inv_worker_same; [done|by rewrite Hw..].
      * destruct (heap s !! qr_metadata run) as [m|]; [|done].
        injection Hstep as <-.
        apply (Inv_nextIteration now s); try done; by rewrite Hw.
      * injection Hstep as <-. apply Inv_caught; [done|by rewrite Hw].
    + destruct (saveMetadata_resume _ _ _ _ _) as [[ph'|d|]|]; [..|done];
        injection Hstep as <-.
      * apply Inv_worker_same; [done|by rewrite Hw..].
      * apply (Inv_nextIteration now s); try done; by rewrite Hw.
      * apply Inv_worker_same; [done|by rewrite Hw..].
  - unfold procData in Hstep. destruct (worker s); try done.
    injection Hstep as <-. by apply (Inv_frame s).
  - unfold procData in Hstep. destruct (worker s); try done.
    injection Hstep as <-. by apply (Inv_frame s).
  - unfold procSettled in Hstep.
    destruct (worker s) as [|run ph|run t|run ph|run ph|run] eqn:Hw;
      try done.
    injection Hstep as <-.
    eapply Inv_frame; [by apply (Inv_settled s run t res now)|..];
      by destruct res.
Qed.

Lemma Inv_step l s s' : Inv s → step l s = Some s' → Inv s'.
Proof. intros HI Hstep%step_transition. by eapply Inv_transition. Qed.

Lemma Inv_steps ls s s' : Inv s → steps ls s = Some s' → Inv s'.
Proof.
  revert s. induction ls as [|l ls IH]; simpl; intros s HI Hsteps.
  - by injection Hsteps as <-.
  - destruct (step l s) as [s1|] eqn:Hstep; [|done].
    apply (IH s1); [by eapply Inv_step | done].
Qed.

Lemma reachable_Inv s : reachable s → Inv s.
Proof.
  induction 1 as [d|s l s' _ IH Hstep];
    [apply Inv_initial | by eapply Inv_step].
Qed.

Lemma reachable_steps ls s s' :
  reachable s → steps ls s = Some s' → reachable s'.
Proof.
  revert s. induction ls as [|l ls IH]; simpl; intros s Hs Hsteps.
  - by injection Hsteps as <-.
  - destruct (step l s) as [s1|] eqn:Hstep; [|done].
    apply (IH s1); [by eapply reachable_step | done].
Qed.
End invariant.


(** * One run at a time *)

Section one_at_a_time.
Implicit Types (s : State) (m : RunMetadata) (run : QueuedRun).

Lemma filter_at_most_one {A} (P : A → Prop) `{∀ x, Decision (P x)}
    (l : list A) (k : nat) :
  (∀ i x, l !! i = Some x → P x → i = k) → length (filter P l) ≤ 1.
Proof.
  revert k. induction l as [|x l IH]; intros k Hk; [simpl; lia|].
  rewrite filter_cons. case_decide as HP.
  - assert (filter P l = []) as ->; [|simpl; lia].
    destruct (filter P l) as [|y l'] eqn:E; [done|]. exfalso.
    assert (y ∈ filter P l) as [Py Hy]%list_elem_of_filter
      by (rewrite E; left).
    apply list_elem_of_lookup in Hy as [i Hi].
    pose proof (Hk 0 x eq_refl HP). pose proof (Hk (S i) y Hi Py). lia.
  - apply (IH (pred k)). intros i y Hi Py.
    pose proof (Hk (S i) y Hi Py). lia.
Qed.

Lemma running_is_workers_run s i m :
  Inv s → heap s !! i = Some m → status m = running →
  runningRef s = Some i.
Proof.
  intros HI Hm Hst. pose proof (inv_status _ HI i m Hm) as Hok.
  unfold statusOk in Hok. rewrite Hst in Hok.
  repeat case_decide; done.
Qed.

Lemma workers_run_is_running s i :
  Inv s → runningRef s = Some i →
  ∃ m, heap s !! i = Some m ∧ status m = running.
Proof.
  intros HI Href. unfold runningRef in Href.
  destruct (runningPhase (worker s)) as [run|] eqn:Hphase; [|done].
  injection Href as <-. apply runningPhase_workerRun in Hphase as Hrun.
  destruct (inv_worker_ref _ HI run Hrun) as [Hnin Hlt].
  destruct (lookup_lt_is_Some_2 _ _ Hlt) as [m Hm]. exists m. split; [done|].
  pose proof (inv_status _ HI _ m Hm) as Hok. unfold statusOk in Hok.
  rewrite decide_False in Hok by done.
  rewrite decide_True in Hok; [done|]. unfold runningRef. by rewrite Hphase.
Qed.

Lemma processQueue_busy now s :
  processing s = true → processQueue now s = s.
Proof. unfold processQueue. by intros ->. Qed.

(** While a run is in its running phase no step starts another one. *)
Lemma step_keeps_running_run l s s' j :
  Inv s → step l s = Some s' → runningRef s = Some j →
  runningRef s' = Some j ∨ runningRef s' = None.
Proof.
  intros HI Hstep Href. unfold runningRef in *.
  destruct (runningPhase (worker s)) as [run|] eqn:Hphase; [|done].
  assert (processing s = true) as Hproc.
  { destruct (processing s) eqn:Hp; [done|].
    rewrite (inv_processing _ HI Hp) in Hphase. done. }
  destruct l as [body uuid now proc|k res now|res now
                 |chunk|chunk|res now]; apply step_transition in Hstep; simpl in Hstep.
  - injection Hstep as <-. left. unfold postRuns.
    destruct (safeParse body); simpl; by rewrite Hphase.
  - unfold creatorIo in Hstep.
    destruct (creators s !! k) as [c|]; [|done]. simpl in Hstep.
    destruct (saveMetadata_resume _ _ _ _ _) as [[ph|d|]|]; [..|done];
      injection Hstep as <-; left; simpl; rewrite ?processQueue_busy;
      simpl; by rewrite ?Hphase.
  - unfold workerIo in Hstep.
    destruct (worker s) as [|r ph|r t|r ph|r ph|r]; try done.
    destruct (saveMetadata_resume _ _ _ _ _) as [[ph'|d|]|]; [..|done];
      injection Hstep as <-; simplify_eq/=; auto.
  - unfold procData in Hstep. destruct (worker s) eqn:Hw; try done;
      injection Hstep as <-; simpl; rewrite Hw; simplify_eq/=; auto.
  - unfold procData in Hstep. destruct (worker s) eqn:Hw; try done;
      injection Hstep as <-; simpl; rewrite Hw; simplify_eq/=; auto.
  - unfold procSettled in Hstep. destruct (worker s); try done;
      injection Hstep as <-; destruct res; simplify_eq/=; auto.
Qed.
End one_at_a_time.

(** C1. In every state the service can reach at most one run object has
    status running; and whenever a step gives that status to a run, every
    run object of the state before is either still held by the queue with
    status queued, or has left the queue and is completed or failed. *)
Theorem C1_at_most_one_run_is_running (s : State) :
  reachable s →
  runningCount s ≤ 1
  ∧ ∀ l s' i m',
      step l s = Some s' →
      heap s' !! i = Some m' → status m' = running →
      (∀ m, heap s !! i = Some m → status m ≠ running) →
      ∀ j m, heap s !! j = Some m →
        (j ∈ queueRefs s ∧ status m = queued)
        ∨ ((j ∉ queueRefs s)
           ∧ (status m = completed ∨ status m = failed)).
Proof.
  intros HI%reachable_Inv. split.
  - unfold runningCount.
    destruct (runningRef s) as [k|] eqn:Href.
    + apply (filter_at_most_one _ _ k). intros i m Hm Hrun.
      pose proof (running_is_workers_run s i m HI Hm Hrun). congruence.
    + apply (filter_at_most_one _ _ 0). intros i m Hm Hrun.
      pose proof (running_is_workers_run s i m HI Hm Hrun). congruence.
  - intros l s' i m' Hstep Hm' Hrun Hnew j m Hm.
    pose proof (Inv_step _ _ _ HI Hstep) as HI'.
    pose proof (running_is_workers_run s' i m' HI' Hm' Hrun) as Href'.
    assert (runningRef s = None) as Hidle.
    { destruct (runningRef s) as [k|] eqn:Href; [|done]. exfalso.
      destruct (workers_run_is_running s k HI Href) as (mk & Hmk & Hst).
      destruct (step_keeps_running_run l s s' k HI Hstep Href) as [E|E];
        rewrite E in Href'; [|done].
      injection Href' as <-. by apply (Hnew mk). }
    pose proof (inv_status _ HI j m Hm) as Hok. unfold statusOk in Hok.
    rewrite Hidle in Hok. case_decide as Hj; [by left|].
    rewrite decide_False in Hok by done. right. split; [done|].
    destruct (status m); auto; done.
Qed.

(** * What a step does to a run object *)

Section touched.
Implicit Types (s : State) (m : RunMetadata) (run : QueuedRun).

Lemma lookup_alter_at {A} (f : A → A) (l : list A) i j x :
  l !! i = Some x →
  alter f j l !! i = Some (if decide (j = i) then f x else x).
Proof.
  intros Hx. rewrite list_lookup_alter. case_decide as Hji; [|done].
  subst j. by rewrite Hx.
Qed.

Lemma loopHead_touches now s0 s i m :
  heap s = heap s0 → queue s = queue s0 →
  runningPhase (worker s0) = None → heap s0 !! i = Some m →
  ∃ m', heap (loopHead now s) !! i = Some m' ∧ touched s0 i m m'.
Proof.
  intros Hh Hq Hphase Hm. unfold loopHead. rewrite Hq.
  destruct (queue s0) as [|run rest] eqn:Hqueue; simpl; rewrite Hh.
  - exists m. split; [done | constructor].
  - rewrite (lookup_alter_at _ _ _ _ _ Hm). eexists. split; [done|].
    case_decide; [by econstructor | constructor].
Qed.

Lemma caught_touches run now s i m :
  workerRun (worker s) = Some run → heap s !! i = Some m →
  ∃ m', heap (caught run now s) !! i = Some m' ∧ touched s i m m'.
Proof.
  intros Hrun Hm. simpl. rewrite (lookup_alter_at _ _ _ _ _ Hm).
  eexists. split; [done|]. case_decide; [by econstructor | constructor].
Qed.

Lemma step_touches l s s' i m :
  Inv s → step l s = Some s' → heap s !! i = Some m →
  ∃ m', heap s' !! i = Some m' ∧ touched s i m m'.
Proof.
  intros HI Hstep Hm.
  assert (∃ m', heap s !! i = Some m' ∧ touched s i m m') as Hsame
    by (exists m; split; [done | constructor]).
  destruct l as [body uuid now proc|k res now|res now
                 |chunk|chunk|res now]; apply step_transition in Hstep; simpl in Hstep.
  - injection Hstep as <-. unfold postRuns.
    destruct (safeParse body); [|done]. simpl.
    exists m. split; [|constructor].
    by rewrite lookup_app_l by by eapply lookup_lt_Some.
  - unfold creatorIo in Hstep.
    destruct (creators s !! k) as [c|]; [|done]. simpl in Hstep.
    destruct (saveMetadata_resume _ _ _ _ _) as [[ph|d|]|]; [..|done];
      injection Hstep as <-; [done| |done].
    simpl. unfold processQueue. simpl.
    destruct (processing s) eqn:Hproc; [done|].
    apply loopHead_touches; try done.
    by rewrite (inv_processing _ HI Hproc).
  - unfold workerIo in Hstep.
    destruct (worker s) as [|run ph|run t|run ph|run ph|run] eqn:Hw;
      try done.
    + destruct (saveMetadata_resume _ _ _ _ _) as [[ph'|d|]|]; [..|done];
        injection Hstep as <-; [done|done|].
      apply caught_touches; [by rewrite Hw | done].
    + destruct (saveMetadata_resume _ _ _ _ _) as [[ph'|d|]|]; [..|done];
        simpl in Hstep.
      * by injection Hstep as <-.
      * destruct (heap s !! qr_metadata run) as [mr|]; [|done].
        injection Hstep as <-. unfold nextIteration.
        apply loopHead_touches; try done. by rewrite Hw.
      * injection Hstep as <-.
        apply caught_touches; [by rewrite Hw | done].
    + destruct (saveMetadata_resume _ _ _ _ _) as [[ph'|d|]|]; [..|done];
        injection Hstep as <-; [done| |done].
      unfold nextIteration. apply loopHead_touches; try done.
      by rewrite Hw.
  - unfold procData in Hstep. destruct (worker s); try done.
    by injection Hstep as <-.
  - unfold procData in Hstep. destruct (worker s); try done.
    by injection Hstep as <-.
  - unfold procSettled in Hstep.
    destruct (worker s) as [|run ph|run t|run ph|run ph|run] eqn:Hw;
      try done.
    injection Hstep as <-.
    assert (∃ m', alter (settle res (qr_options run) t now)
                    (qr_metadata run) (heap s) !! i = Some m'
                  ∧ touched s i m m') as Hgoal.
    { rewrite (lookup_alter_at _ _ _ _ _ Hm). eexists. split; [done|].
      case_decide; [by econstructor | constructor]. }
    by destruct res.
Qed.

(** The assignments of the worker leave what [createRun] recorded. *)
Lemma touched_static s i m m' :
  touched s i m m' →
  md_id m' = md_id m ∧ experiment m' = experiment m
  ∧ md_variant m' = md_variant m ∧ options m' = options m
  ∧ environment m' = environment m
  ∧ ts_queued (timestamps m') = ts_queued (timestamps m).
Proof. destruct 1 as [| | |[|error]]; done. Qed.

Lemma steps_static ls s s' i m :
  Inv s → steps ls s = Some s' → heap s !! i = Some m →
  ∃ m', heap s' !! i = Some m'
        ∧ md_id m' = md_id m ∧ options m' = options m
        ∧ environment m' = environment m
        ∧ ts_queued (timestamps m') = ts_queued (timestamps m).
Proof.
  revert s m. induction ls as [|l ls IH]; simpl; intros s m HI Hsteps Hm.
  - injection Hsteps as <-. by exists m.
  - destruct (step l s) as [s1|] eqn:Hstep; [|done]. simpl in Hsteps.
    destruct (step_touches _ _ _ _ _ HI Hstep Hm) as (m1 & Hm1 & Ht).
    apply touched_static in Ht as (E1 & _ & _ & E2 & E3 & E4).
    destruct (IH s1 m1 (Inv_step _ _ _ HI Hstep) Hsteps Hm1)
      as (m' & Hm' & F1 & F2 & F3 & F4).
    exists m'. split; [done|]. repeat split; congruence.
Qed.

(** A failed run stays failed. *)
Lemma failed_stays_failed ls s s' i m :
  Inv s → steps ls s = Some s' →
  heap s !! i = Some m → status m = failed →
  ∃ m', heap s' !! i = Some m' ∧ status m' = failed.
Proof.
  revert s m. induction ls as [|l ls IH]; simpl;
    intros s m HI Hsteps Hm Hst.
  - injection Hsteps as <-. by exists m.
  - destruct (step l s) as [s1|] eqn:Hstep; [|done]. simpl in Hsteps.
    destruct (step_touches _ _ _ _ _ HI Hstep Hm) as (m1 & Hm1 & Ht).
    apply (IH s1 m1 (Inv_step _ _ _ HI Hstep) Hsteps Hm1).
    pose proof (inv_status _ HI i m Hm) as Hok. unfold statusOk in Hok.
    rewrite Hst in Hok.
    destruct Ht as [|now run rest Hq Href _|now run Hrun Href
                    |res t now run Hw Href]; try done.
    + exfalso. rewrite decide_True in Hok; [done|].
      unfold queueRefs. rewrite Hq, <- Href. left.
    + exfalso. rewrite decide_False in Hok.
      * rewrite decide_True in Hok; [done|].
        unfold runningRef. by rewrite Hw, <- Href.
      * rewrite <- Href. apply (inv_worker_ref _ HI run). by rewrite Hw.
Qed.
(** A failed run stays failed and out of the queue. *)
Lemma failed_never_requeued ls s s' i m :
  Inv s → steps ls s = Some s' →
  heap s !! i = Some m → status m = failed →
  (i ∉ queueRefs s')
  ∧ ∃ m', heap s' !! i = Some m' ∧ status m' = failed.
Proof.
  intros HI Hsteps Hm Hst.
  destruct (failed_stays_failed ls s s' i m HI Hsteps Hm Hst)
    as (m' & Hm' & Hst').
  split; [|by exists m'].
  pose proof (inv_status _ (Inv_steps _ _ _ HI Hsteps) _ m' Hm') as Hok.
  unfold statusOk in Hok.
  intros Hin. rewrite decide_True in Hok by done. congruence.
Qed.
End touched.

(** * The end of a run *)

Section settling.
Implicit Types (s : State) (m : RunMetadata) (run : QueuedRun).

Lemma loopHead_frame now s :
  disk (loopHead now s) = disk s ∧ emitted (loopHead now s) = emitted s
  ∧ responses (loopHead now s) = responses s
  ∧ creators (loopHead now s) = creators s.
Proof. unfold loopHead. by destruct (queue s). Qed.

Lemma steps_cons l ls s s1 :
  step l s = Some s1 → steps (l :: ls) s = steps ls s1.
Proof. simpl. by intros ->. Qed.

Lemma steps_app ls1 ls2 s s1 :
  steps ls1 s = Some s1 → steps (ls1 ++ ls2) s = steps ls2 s1.
Proof.
  revert s. induction ls1 as [|l ls1 IH]; simpl; intros s Hs.
  - by injection Hs as ->.
  - destruct (step l s) as [s'|]; [|done]. by apply IH.
Qed.

(** The object of the run the child of which is executing. *)
Lemma executing_object s run startTime :
  Inv s → worker s = Executing run startTime →
  ∃ m0, heap s !! qr_metadata run = Some m0 ∧ status m0 = running
        ∧ artifacts m0 = noArtifacts ∧ md_id m0 = qr_id run
        ∧ options m0 = recorded (qr_options run).
Proof.
  intros HI Hw.
  destruct (workers_run_is_running s (qr_metadata run) HI)
    as (m0 & Hm0 & Hst); [unfold runningRef; by rewrite Hw|].
  exists m0. repeat split; try done.
  - destruct (inv_artifacts _ HI _ m0 Hm0) as [[Ha _]|(_ & Hr & _)]; done.
  - apply (inv_link _ HI run m0); [right; by rewrite Hw | done].
  - apply (inv_link _ HI run m0); [right; by rewrite Hw | done].
Qed.

(** The settling of the child, seen from the record. *)
Lemma procSettled_record s run startTime res now m0 :
  worker s = Executing run startTime →
  heap s !! qr_metadata run = Some m0 →
  ∃ s1, step (ProcSettled res now) s = Some s1
        ∧ heap s1 !! qr_metadata run
          = Some (settle res (qr_options run) startTime now m0)
        ∧ worker s1 = SavingFinal run AwaitMkdir
        ∧ disk s1 = disk s ∧ queue s1 = queue s
        ∧ emitted s1
          = emitted s ++ match res with
                         | Resolved => []
                         | Rejected error =>
                             [run_error (qr_id run)
                                (messageOrUnknown error)]
                         end.
Proof.
  intros Hw Hm0. unfold step, alive, transition, procSettled. rewrite Hw.
  eexists. split; [done|].
  destruct res; simpl; rewrite (lookup_alter_at _ _ _ _ _ Hm0),
    decide_True by done; by rewrite ?app_nil_r.
Qed.

(** Both awaits of the final [saveMetadata] succeed: the record is on
    disk under the id of the run and [run:complete] is emitted. *)
Lemma finalSave_persists s run m t1 t2 :
  worker s = SavingFinal run AwaitMkdir →
  heap s !! qr_metadata run = Some m → md_id m = qr_id run →
  ∃ s', steps [WorkerIo io_ok t1; WorkerIo io_ok t2] s = Some s'
        ∧ getRun (qr_id run) (disk s') = Some (IsRun m)
        ∧ emitted s' = emitted s ++ [run_complete (qr_id run) m].
Proof.
  intros Hw Hm Hid.
  set (filePath := md_id m +:+ ".json").
  set (s1 := with_worker (SavingFinal run (AwaitWriteFile filePath m)) s).
  set (s2 := nextIteration t2
               (emit (run_complete (qr_id run) m)
                  (with_disk (<[filePath := JsonText m]> (disk s)) s1))).
  assert (step (WorkerIo io_ok t1) s = Some s1) as H1.
  { unfold step, alive, transition, workerIo. rewrite Hw. simpl. by rewrite Hm. }
  assert (step (WorkerIo io_ok t2) s1 = Some s2) as H2.
  { unfold step, alive, transition, workerIo. simpl. by rewrite Hm. }
  exists s2. rewrite (steps_cons _ _ _ _ H1), (steps_cons _ _ _ _ H2).
  split; [done|]. unfold s2, nextIteration.
  destruct (loopHead_frame t2
              (with_currentRun None
                 (emit (run_complete (qr_id run) m)
                    (with_disk (<[filePath := JsonText m]> (disk s)) s1))))
    as (-> & -> & _).
  simpl. split; [|done]. unfold getRun, filePath.
  by rewrite <- Hid, lookup_insert_eq.
Qed.

Lemma settle_Rejected_exitCode e e' opts startTime now m :
  exitCodeOr1 e = exitCodeOr1 e' →
  settle (Rejected e) opts startTime now m
  = settle (Rejected e') opts startTime now m.
Proof. intros He. simpl. by rewrite He. Qed.
End settling.

(** * Timeouts, spawn failures, artifacts and the environment *)

Lemma after_reachable ls s : steps ls (initial ∅) = Some s → reachable s.
Proof. apply reachable_steps, reachable_initial. Qed.

Lemma after_steps ls s : steps ls (initial ∅) = Some s → after ls = s.
Proof. unfold after. by intros ->. Qed.

(** C3 as the claim states it fails: a run killed at the timeout and a
    run whose script ended by itself with exit code 1 leave the same
    record, so nothing in the record tells them apart. *)
Lemma C3_timeout_leaves_no_marker :
  ¬ (∀ (s s1 s2 : State) (e1 e2 : ExecaError) (now : Z),
        reachable s →
        err_timedOut e1 = true → err_timedOut e2 = false →
        step (ProcSettled (Rejected e1) now) s = Some s1 →
        step (ProcSettled (Rejected e2) now) s = Some s2 →
        heap s1 ≠ heap s2).
Proof.
  intros H.
  apply (H (after (untilExecuting bareRequest))
           (after (untilExecuting bareRequest
                   ++ [ProcSettled (Rejected (timedOutError
                         "Command timed out after 600000 milliseconds")) 30]))
           (after (untilExecuting bareRequest
                   ++ [ProcSettled (Rejected (exitError 1
                         "Command failed with exit code 1")) 30]))
           (timedOutError "Command timed out after 600000 milliseconds")
           (exitError 1 "Command failed with exit code 1") 30%Z).
  - apply (after_reachable (untilExecuting bareRequest)). by vm_compute.
  - done.
  - done.
  - by vm_compute.
  - by vm_compute.
  - by vm_compute.
Qed.

(** C3, amended. When the child of the executing run is killed at the
    timeout, the run becomes failed with the exit code of the rejection,
    or 1 when it has none, and with the elapsed time; once the final save
    has gone through, this record is what [getRun] returns. The record
    has no field for the timeout: any other rejection with the same exit
    code leaves the same run objects and the same stored record. *)
Theorem C3_timeout_is_recorded_as_plain_failure
    (s : State) (run : QueuedRun) (startTime now t1 t2 : Z)
    (error : ExecaError) :
  reachable s → worker s = Executing run startTime →
  err_timedOut error = true →
  ∃ s1 s' m,
    step (ProcSettled (Rejected error) now) s = Some s1
    ∧ heap s1 !! qr_metadata run = Some m
    ∧ steps [WorkerIo io_ok t1; WorkerIo io_ok t2] s1 = Some s'
    ∧ getRun (qr_id run) (disk s') = Some (IsRun m)
    ∧ status m = failed
    ∧ results m = Some {| exitCode := exitCodeOr1 error;
                          durationMs := now - startTime |}
    ∧ ts_completed (timestamps m) = Some now
    ∧ (err_exitCode error = None → exitCode <$> results m = Some 1%Z)
    ∧ ∀ error', exitCodeOr1 error' = exitCodeOr1 error →
        ∃ s1', step (ProcSettled (Rejected error') now) s = Some s1'
               ∧ heap s1' = heap s1.
Proof.
  intros HI%reachable_Inv Hw Htimeout.
  destruct (executing_object s run startTime HI Hw)
    as (m0 & Hm0 & Hst & Hart & Hid & Hopts).
  destruct (procSettled_record s run startTime (Rejected error) now m0 Hw Hm0)
    as (s1 & Hstep & Hm & Hw1 & _).
  destruct (finalSave_persists s1 run _ t1 t2 Hw1 Hm Hid)
    as (s' & Hsteps & Hget & _).
  exists s1, s', (settle (Rejected error) (qr_options run) startTime now m0).
  repeat split; try done.
  - intros Hnone. simpl. unfold exitCodeOr1. by rewrite Hnone.
  - intros error' Hcode.
    destruct (procSettled_record s run startTime (Rejected error') now m0
                Hw Hm0) as (s1' & Hstep' & _).
    exists s1'. split; [done|].
    apply step_transition in Hstep. apply step_transition in Hstep'.
    simpl in Hstep, Hstep'. unfold procSettled in Hstep, Hstep'.
    rewrite Hw in Hstep, Hstep'. injection Hstep as <-.
    injection Hstep' as <-.
    cbv [heap with_worker emit with_heap settle]. by rewrite Hcode.
Qed.

Lemma C3_witness :
  ∃ m, getRun "run-1"
         (disk (after (untilExecuting bareRequest
                       ++ ProcSettled (Rejected (timedOutError
                            "Command timed out after 600000 milliseconds")) 30
                          :: finalSave)))
       = Some (IsRun m)
       ∧ status m = failed
       ∧ results m = Some {| exitCode := 1; durationMs := 21 |}.
Proof.
  assert (steps (untilExecuting bareRequest) (initial ∅)
          = Some (after (untilExecuting bareRequest))) as Hs
    by (by vm_compute).
  destruct (C3_timeout_is_recorded_as_plain_failure
              (after (untilExecuting bareRequest))
              {| qr_id := "run-1";
                 qr_options := {| exp := "01-hidden-classes";
                                  variant := deopt; trace := false;
                                  profile := false; warmup := 1000;
                                  repeat_ := 100000 |};
                 qr_metadata := 0 |}
              9 30 31 32
              (timedOutError "Command timed out after 600000 milliseconds")
              (after_reachable _ _ Hs) ltac:(by vm_compute) eq_refl)
    as (s1 & s' & m & Hstep & _ & Hsteps & Hget & Hst & Hres & _).
  exists m. split; [|by split].
  rewrite <- Hget. f_equal. f_equal. apply after_steps.
  rewrite (steps_app _ _ _ _ Hs). by rewrite (steps_cons _ _ _ _ Hstep).
Defined.

(** C6 as the claim states it fails: when the child cannot be spawned the
    text of the error is emitted as [run:error], and no [run:stderr]
    event carries it. *)
Lemma C6_spawn_error_is_not_a_stderr_chunk :
  ¬ (∀ (s s1 : State) (run : QueuedRun) (startTime now : Z)
       (message : string),
        reachable s → worker s = Executing run startTime →
        step (ProcSettled (Rejected (spawnError message)) now) s = Some s1 →
        run_stderr (qr_id run) message ∈ emitted s1).
Proof.
  intros H.
  assert (steps (untilExecuting bareRequest) (initial ∅)
          = Some (after (untilExecuting bareRequest))) as Hs
    by (by vm_compute).
  specialize (H (after (untilExecuting bareRequest))
                (after (untilExecuting bareRequest
                        ++ [ProcSettled
                              (Rejected (spawnError "spawn node ENOENT")) 30]))
                {| qr_id := "run-1";
                   qr_options := {| exp := "01-hidden-classes";
                                    variant := deopt; trace := false;
                                    profile := false; warmup := 1000;
                                    repeat_ := 100000 |};
                   qr_metadata := 0 |}
                9%Z 30%Z "spawn node ENOENT"
                (after_reachable _ _ Hs) ltac:(by vm_compute)
                ltac:(by vm_compute)).
  assert (emitted (after (untilExecuting bareRequest
                          ++ [ProcSettled
                                (Rejected (spawnError "spawn node ENOENT"))
                                30]))
          = [run_start "run-1"; run_error "run-1" "spawn node ENOENT"])
    as Hemitted by (by vm_compute).
  rewrite Hemitted in H. simpl in H.
  apply elem_of_cons in H as [H|H]; [done|].
  apply elem_of_cons in H as [H|H]; [done|].
  by apply elem_of_nil in H.
Qed.

(** C6, amended. When the child of the executing run cannot be spawned,
    the run becomes failed with exit code 1, the value every rejection
    without an exit code of its own gets, and with no artifact path; the
    text of the error is emitted once, as a [run:error] event, which a
    viewer of the run receives as an [error] frame; the final save stores
    this record; and whatever happens afterwards the run stays failed and
    never returns to the queue. *)
Theorem C6_spawn_failure_is_failed_and_never_retried
    (s : State) (run : QueuedRun) (startTime now t1 t2 : Z)
    (message : string) :
  reachable s → worker s = Executing run startTime →
  ∃ s1 s' m,
    step (ProcSettled (Rejected (spawnError message)) now) s = Some s1
    ∧ heap s1 !! qr_metadata run = Some m
    ∧ status m = failed
    ∧ results m = Some {| exitCode := 1; durationMs := now - startTime |}
    ∧ artifacts m = noArtifacts
    ∧ emitted s1
      = emitted s ++ [run_error (qr_id run)
                        (messageOrUnknown (spawnError message))]
    ∧ (∀ st, listening st = true →
             deliver (qr_id run)
               (run_error (qr_id run) (messageOrUnknown (spawnError message)))
               st
             = write (sse_error (messageOrUnknown (spawnError message))) st)
    ∧ steps [WorkerIo io_ok t1; WorkerIo io_ok t2] s1 = Some s'
    ∧ getRun (qr_id run) (disk s') = Some (IsRun m)
    ∧ ∀ ls s2, steps ls s1 = Some s2 →
        (qr_metadata run ∉ queueRefs s2)
        ∧ ∃ m2, heap s2 !! qr_metadata run = Some m2 ∧ status m2 = failed.
Proof.
  intros Hreach Hw. pose proof (reachable_Inv _ Hreach) as HI.
  destruct (executing_object s run startTime HI Hw)
    as (m0 & Hm0 & Hst & Hart & Hid & Hopts).
  destruct (procSettled_record s run startTime
              (Rejected (spawnError message)) now m0 Hw Hm0)
    as (s1 & Hstep & Hm & Hw1 & _ & _ & Hemit).
  destruct (finalSave_persists s1 run _ t1 t2 Hw1 Hm Hid)
    as (s' & Hsteps & Hget & _).
  exists s1, s',
    (settle (Rejected (spawnError message)) (qr_options run) startTime now m0).
  split_and!; try done.
  - intros st Hl. unfold deliver. by rewrite Hl, String.eqb_refl.
  - intros ls s2 Hls.
    apply (failed_never_requeued ls s1 s2 _ _ (Inv_step _ _ _ HI Hstep) Hls Hm).
    done.
Qed.

Lemma C6_witness :
  ∃ m, getRun "run-1"
         (disk (after (untilExecuting bareRequest
                       ++ ProcSettled
                            (Rejected (spawnError "spawn node ENOENT")) 30
                          :: finalSave)))
       = Some (IsRun m)
       ∧ status m = failed
       ∧ results m = Some {| exitCode := 1; durationMs := 21 |}
       ∧ artifacts m = noArtifacts.
Proof.
  assert (steps (untilExecuting bareRequest) (initial ∅)
          = Some (after (untilExecuting bareRequest))) as Hs
    by (by vm_compute).
  destruct (C6_spawn_failure_is_failed_and_never_retried
              (after (untilExecuting bareRequest))
              {| qr_id := "run-1";
                 qr_options := {| exp := "01-hidden-classes";
                                  variant := deopt; trace := false;
                                  profile := false; warmup := 1000;
                                  repeat_ := 100000 |};
                 qr_metadata := 0 |}
              9 30 31 32 "spawn node ENOENT"
              (after_reachable _ _ Hs) ltac:(by vm_compute))
    as (s1 & s' & m & Hstep & _ & Hst & Hres & Hart & _ & _ & Hsteps
        & Hget & _).
  exists m. split; [|by repeat split].
  rewrite <- Hget. f_equal. f_equal. apply after_steps.
  rewrite (steps_app _ _ _ _ Hs). by rewrite (steps_cons _ _ _ _ Hstep).
Defined.

(** C7 as the claim states it fails: a run submitted with trace and
    profile enabled that ends failed has neither path. *)
Lemma C7_failed_run_has_no_artifact_paths :
  ¬ (∀ (s : State) (i : nat) (m : RunMetadata),
        reachable s → heap s !! i = Some m →
        status m = completed ∨ status m = failed →
        (is_Some (a_stderr (artifacts m)) ↔ o_trace (options m) = true)
        ∧ (is_Some (a_cpuProfile (artifacts m))
           ↔ o_profile (options m) = true)).
Proof.
  intros H.
  assert (steps (untilExecuting tracedRequest
                 ++ ProcSettled (Rejected (exitError 1
                      "Command failed with exit code 1")) 30 :: finalSave)
            (initial ∅)
          = Some (after (untilExecuting tracedRequest
                         ++ ProcSettled (Rejected (exitError 1
                              "Command failed with exit code 1")) 30
                            :: finalSave))) as Hs
    by (by vm_compute).
  destruct (H _ 0 (default finishedRun
                     (heap (after (untilExecuting tracedRequest
                                   ++ ProcSettled (Rejected (exitError 1
                                        "Command failed with exit code 1")) 30
                                      :: finalSave)) !! 0))
              (after_reachable _ _ Hs) ltac:(by vm_compute)
              ltac:(right; by vm_compute)) as [[_ Hstderr] _].
  destruct Hstderr as [x Hx]; [by vm_compute|]. vm_compute in Hx. done.
Qed.

(** C7, amended. In every reachable state, a run that is completed has
    its stderr path exactly when its recorded options enable trace and
    its profile path exactly when they enable profile; for a run in any
    status a path that is present implies that its option was enabled. *)
Theorem C7_artifact_paths_follow_the_options
    (s : State) (i : nat) (m : RunMetadata) :
  reachable s → heap s !! i = Some m →
  (status m = completed →
     (is_Some (a_stderr (artifacts m)) ↔ o_trace (options m) = true)
     ∧ (is_Some (a_cpuProfile (artifacts m))
        ↔ o_profile (options m) = true)
     ∧ is_Some (a_stdout (artifacts m)))
  ∧ (is_Some (a_stderr (artifacts m)) → o_trace (options m) = true)
  ∧ (is_Some (a_cpuProfile (artifacts m)) → o_profile (options m) = true).
Proof.
  intros HI%reachable_Inv Hm.
  destruct (inv_artifacts _ HI i m Hm)
    as [[Ha Hst]|(_ & _ & opts & Ha & Hopts)].
  - rewrite Ha. simpl. split; [done|]. split; by intros [? ?].
  - rewrite Ha, <- Hopts. simpl.
    destruct (trace opts), (profile opts); simpl;
      repeat split; try done; try (by eexists); by intros [? ?].
Qed.

Lemma C7_witness :
  ∃ m, heap (after (untilExecuting tracedRequest
                    ++ ProcSettled Resolved 30 :: finalSave)) !! 0 = Some m
       ∧ status m = completed
       ∧ is_Some (a_stderr (artifacts m))
       ∧ is_Some (a_cpuProfile (artifacts m)).
Proof.
  assert (steps (untilExecuting tracedRequest
                 ++ ProcSettled Resolved 30 :: finalSave) (initial ∅)
          = Some (after (untilExecuting tracedRequest
                         ++ ProcSettled Resolved 30 :: finalSave))) as Hs
    by (by vm_compute).
  set (m := default finishedRun
              (heap (after (untilExecuting tracedRequest
                            ++ ProcSettled Resolved 30 :: finalSave)) !! 0)).
  assert (heap (after (untilExecuting tracedRequest
                       ++ ProcSettled Resolved 30 :: finalSave)) !! 0
          = Some m) as Hm by (by vm_compute).
  destruct (C7_artifact_paths_follow_the_options _ 0 m
              (after_reachable _ _ Hs) Hm) as [Hc _].
  destruct (Hc ltac:(by vm_compute)) as ([_ Htrace] & [_ Hprofile] & _).
  exists m. split; [exact Hm|]. split; [by vm_compute|].
  split; [apply Htrace | apply Hprofile]; by vm_compute.
Defined.

(** C9 as the claim states it fails: were the environment captured at
    the transition to running and not earlier, the record of a run that
    is still queued would not depend on the runtime of the service. It
    does: the same request, admitted first by a service that runs under
    one runtime from its start and then by a service that runs under
    another, leaves two queued records with different environments. *)
Lemma C9_queued_record_holds_the_environment :
  ¬ (∀ (proc1 proc2 : ProcessInfo) (b : RequestBody) (uuid : string)
       (now : Z) (s1 s2 : State) (i : nat) (m1 m2 : RunMetadata),
        steps [PostRuns (Some b) uuid now proc1] (initial ∅) = Some s1 →
        steps [PostRuns (Some b) uuid now proc2] (initial ∅) = Some s2 →
        heap s1 !! i = Some m1 → heap s2 !! i = Some m2 →
        status m1 = queued → status m2 = queued →
        environment m1 = environment m2).
Proof.
  intros H.
  specialize (H host upgradedHost bareRequest "run-1" 5%Z _ _ 0 _ _
                eq_refl eq_refl eq_refl eq_refl eq_refl eq_refl).
  discriminate H.
Qed.

(** C9, amended. The environment of a run is what [process] held when
    the request was admitted: [createRun] stores it in the new object,
    whose status is queued, and in every state reached later, whatever
    the status of the run has become, the object still carries that
    environment. *)
Theorem C9_environment_is_captured_at_admission
    (s s' : State) (b : RequestBody) (opts : RunOptions) (uuid : string)
    (now : Z) (proc : ProcessInfo) (ls : list Label) :
  reachable s → safeParse (Some b) = Success opts →
  steps ls (postRuns (Some b) uuid now proc s) = Some s' →
  (∃ m0, heap (postRuns (Some b) uuid now proc s) !! length (heap s)
         = Some m0
         ∧ status m0 = queued ∧ environment m0 = environmentOf proc)
  ∧ ∃ m, heap s' !! length (heap s) = Some m
         ∧ md_id m = uuid ∧ environment m = environmentOf proc.
Proof.
  intros Hreach Hok Hsteps.
  assert (heap (postRuns (Some b) uuid now proc s) !! length (heap s)
          = Some (newMetadata uuid now proc opts)) as Hm0.
  { rewrite (postRuns_accepts _ _ _ _ _ _ Hok). simpl.
    by rewrite lookup_app_r, Nat.sub_diag. }
  split; [by eexists|].
  assert (Inv (postRuns (Some b) uuid now proc s)) as HI.
  { by apply (Inv_transition (PostRuns (Some b) uuid now proc) s);
      [apply reachable_Inv|]. }
  destruct (steps_static ls _ s' _ _ HI Hsteps Hm0)
    as (m & Hm & Hid & _ & Henv & _).
  by exists m.
Qed.

Lemma C9_witness :
  ∃ m, heap (after (untilExecuting bareRequest)) !! 0 = Some m
       ∧ status m = running ∧ environment m = environmentOf host.
Proof.
  destruct (C9_environment_is_captured_at_admission
              (initial ∅) (after (untilExecuting bareRequest)) bareRequest
              {| exp := "01-hidden-classes"; variant := deopt;
                 trace := false; profile := false;
                 warmup := 1000; repeat_ := 100000 |}
              "run-1" 5 host
              [CreatorIo 0 io_ok 6; CreatorIo 0 io_ok 7;
               WorkerIo io_ok 8; WorkerIo io_ok 9]
              (reachable_initial ∅) eq_refl ltac:(by vm_compute))
    as [_ (m & Hm & _ & Henv)].
  exists m. split; [exact Hm|]. split; [|exact Henv].
  assert (heap (after (untilExecuting bareRequest)) !! 0
          = Some (markRunning 7
                    (newMetadata "run-1" 5 host
                       {| exp := "01-hidden-classes"; variant := deopt;
                          trace := false; profile := false;
                          warmup := 1000; repeat_ := 100000 |})))
    as Hm' by (by vm_compute).
  change (length (heap (initial ∅))) with 0 in Hm.
  rewrite Hm' in Hm. by injection Hm as <-.
Defined.

Lemma C1_witness :
  runningCount (after twoSubmitted) ≤ 1
  ∧ ∀ j m, heap (after twoSubmitted) !! j = Some m →
      (j ∈ queueRefs (after twoSubmitted) ∧ status m = queued)
      ∨ ((j ∉ queueRefs (after twoSubmitted))
         ∧ (status m = completed ∨ status m = failed)).
Proof.
  assert (steps twoSubmitted (initial ∅) = Some (after twoSubmitted)) as Hs
    by (by vm_compute).
  destruct (C1_at_most_one_run_is_running (after twoSubmitted)
              (after_reachable _ _ Hs)) as [Hcount Hnext].
  split; [exact Hcount|].
  apply (Hnext (WorkerIo io_ok 32) (after (twoSubmitted ++ [WorkerIo io_ok 32]))
           1
           (default finishedRun
              (heap (after (twoSubmitted ++ [WorkerIo io_ok 32])) !! 1))).
  - by vm_compute.
  - by vm_compute.
  - by vm_compute.
  - intros m Hm. vm_compute in Hm. injection Hm as <-. done.
Defined.

(** * The order of the queue *)

Section fifo.
Implicit Types (s : State) (m : RunMetadata) (run : QueuedRun).

Lemma loopHead_queue now s :
  (queue (loopHead now s) = queue s
   ∧ length (heap (loopHead now s)) = length (heap s))
  ∨ (∃ run, queue s = run :: queue (loopHead now s)
            ∧ length (heap (loopHead now s)) = length (heap s)).
Proof.
  unfold loopHead. destruct (queue s) as [|run rest] eqn:Hq; simpl.
  - left. by rewrite Hq.
  - right. exists run. by rewrite length_alter.
Qed.

(** A step leaves the queue alone, appends the new run, or takes the
    head. *)
Lemma step_queue l s s' :
  step l s = Some s' →
  (queue s' = queue s ∧ length (heap s') = length (heap s))
  ∨ (∃ body id now proc opts,
       l = PostRuns body id now proc
       ∧ safeParse body = Success opts
       ∧ queue s' = queue s ++ [{| qr_id := id; qr_options := opts;
                                   qr_metadata := length (heap s) |}]
       ∧ heap s' = heap s ++ [newMetadata id now proc opts])
  ∨ (∃ run, queue s = run :: queue s'
            ∧ length (heap s') = length (heap s)).
Proof.
  intros Hstep.
  destruct l as [body uuid now proc|k res now|res now
                 |chunk|chunk|res now]; apply step_transition in Hstep; simpl in Hstep.
  - injection Hstep as <-. unfold postRuns.
    destruct (safeParse body) as [opts|] eqn:Hok; [|by left].
    right. left. by exists body, uuid, now, proc, opts.
  - unfold creatorIo in Hstep.
    destruct (creators s !! k) as [c|]; [|done]. simpl in Hstep.
    destruct (saveMetadata_resume _ _ _ _ _) as [[ph|d|]|]; [..|done];
      injection Hstep as <-; [by left| |by left].
    simpl. unfold processQueue. simpl.
    destruct (processing s); [by left|].
    destruct (loopHead_queue now
                (with_processing true
                   (with_disk d (with_creators (delete k (creators s)) s))))
      as [H|H]; [by left | by right; right].
  - unfold workerIo in Hstep.
    destruct (worker s) as [|run ph|run t|run ph|run ph|run] eqn:Hw;
      try done.
    + destruct (saveMetadata_resume _ _ _ _ _) as [[ph'|d|]|]; [..|done];
        injection Hstep as <-; left; simpl; by rewrite ?length_alter.
    + destruct (saveMetadata_resume _ _ _ _ _) as [[ph'|d|]|]; [..|done];
        simpl in Hstep.
      * injection Hstep as <-. by left.
      * destruct (heap s !! qr_metadata run) as [mr|]; [|done].
        injection Hstep as <-. unfold nextIteration.
        destruct (loopHead_queue now
                    (with_currentRun None
                       (emit (run_complete (qr_id run) mr) (with_disk d s))))
          as [H|H]; [by left | by right; right].
      * injection Hstep as <-. left. simpl. by rewrite length_alter.
    + destruct (saveMetadata_resume _ _ _ _ _) as [[ph'|d|]|]; [..|done];
        injection Hstep as <-; [by left| |by left].
      unfold nextIteration.
      destruct (loopHead_queue now (with_currentRun None (with_disk d s)))
        as [H|H]; [by left | by right; right].
  - unfold procData in Hstep. destruct (worker s); try done.
    injection Hstep as <-. by left.
  - unfold procData in Hstep. destruct (worker s); try done.
    injection Hstep as <-. by left.
  - unfold procSettled in Hstep. destruct (worker s); try done.
    injection Hstep as <-. left. destruct res; simpl; by rewrite length_alter.
Qed.

(** The queue holds the runs created last, in the order of creation. *)
Lemma queue_is_tail s :
  reachable s →
  queueRefs s = seq (length (heap s) - length (queue s)) (length (queue s))
  ∧ length (queue s) ≤ length (heap s).
Proof.
  induction 1 as [d|s l s' _ [IH Hle] Hstep]; [done|].
  unfold queueRefs in *.
  destruct (step_queue l s s' Hstep)
    as [[Hq Hh]|[(b & id & now & proc & opts & _ & _ & Hq & Hh)
                 |(run & Hq & Hh)]].
  - by rewrite Hq, Hh.
  - rewrite Hq, Hh, fmap_app, !length_app, IH. simpl.
    replace (length (heap s) + 1 - (length (queue s) + 1))
      with (length (heap s) - length (queue s)) by lia.
    rewrite Nat.add_1_r, seq_S. split; [|lia].
    do 2 f_equal. lia.
  - rewrite Hq in IH, Hle. simpl in IH, Hle. injection IH as Href IH.
    rewrite Hh. split; [|lia]. etrans; [exact IH|]. f_equal. lia.
Qed.
End fifo.

Section fifo_consequences.
Implicit Types (s : State) (m : RunMetadata) (run : QueuedRun).

Lemma elem_of_queueRefs s i :
  reachable s →
  i ∈ queueRefs s ↔ length (heap s) - length (queue s) ≤ i < length (heap s).
Proof.
  intros [-> Hle]%queue_is_tail. rewrite elem_of_seq. lia.
Qed.

(** A queued object is one the queue refers to. *)
Lemma queued_iff_in_queue s i m :
  reachable s → heap s !! i = Some m →
  status m = queued ↔ i ∈ queueRefs s.
Proof.
  intros Hreach Hm. pose proof (reachable_Inv _ Hreach) as HI.
  pose proof (inv_status _ HI i m Hm) as Hok. unfold statusOk in Hok.
  repeat case_decide; split; try done; intros Hq; rewrite Hq in Hok; done.
Qed.

Lemma length_filter_from {A} (P : A → Prop) `{∀ x, Decision (P x)}
    (l : list A) (k : nat) :
  (∀ i x, l !! i = Some x → P x ↔ k ≤ i) →
  length (filter P l) = length l - k.
Proof.
  induction l as [|x l IH] using rev_ind; intros Hk; [done|].
  rewrite filter_app, !length_app, IH.
  - assert (P x ↔ k ≤ length l) as Hx.
    { apply Hk. by rewrite lookup_app_r, Nat.sub_diag. }
    rewrite filter_cons, filter_nil. case_decide as HP; simpl.
    + apply Hx in HP. lia.
    + assert (¬ k ≤ length l) by tauto. lia.
  - intros i y Hy. apply Hk. by apply lookup_app_l_Some.
Qed.
End fifo_consequences.

(** X1. Runs start in the order in which they were accepted: the step that
    sets a run to running takes the head of the queue, the run was queued
    until then, every run created before it is completed or failed, and
    every run created after it is still queued. *)
Theorem X1_runs_start_in_order_of_admission
    (s s' : State) (l : Label) (i : nat) (m m' : RunMetadata) :
  reachable s → step l s = Some s' →
  heap s !! i = Some m → heap s' !! i = Some m' →
  status m ≠ running → status m' = running →
  status m = queued
  ∧ (∃ run rest, queue s = run :: rest ∧ qr_metadata run = i)
  ∧ ∀ j mj, heap s !! j = Some mj →
      (j < i → status mj = completed ∨ status mj = failed)
      ∧ (i < j → status mj = queued).
Proof.
  intros Hreach Hstep Hm Hm' Hnot Hrun.
  pose proof (reachable_Inv _ Hreach) as HI.
  destruct (step_touches l s s' i m HI Hstep Hm) as (m1 & Hm1 & Ht).
  assert (m1 = m') as -> by congruence.
  destruct Ht as [|now run rest Hq Href Hphase|now run Hw Href
                  |res t now run Hw Href];
    [done| |done|by destruct res].
  assert (i ∈ queueRefs s) as Hin.
  { unfold queueRefs. rewrite Hq, <- Href. left. }
  assert (i = length (heap s) - length (queue s)) as Hi.
  { destruct (queue_is_tail s Hreach) as [Hrefs _]. unfold queueRefs in Hrefs.
    rewrite Hq in Hrefs. simpl in Hrefs. injection Hrefs as Hhd _.
    rewrite Hq. simpl. congruence. }
  split; [by apply (queued_iff_in_queue s i m)|].
  split; [by exists run, rest|].
  intros j mj Hmj. pose proof (lookup_lt_Some _ _ _ Hmj) as Hlt. split.
  - intros Hji.
    pose proof (inv_status _ HI j mj Hmj) as Hok. unfold statusOk in Hok.
    rewrite decide_False in Hok
      by (rewrite (elem_of_queueRefs s j Hreach); lia).
    unfold runningRef in Hok. rewrite Hphase in Hok. simpl in Hok.
    destruct (status mj); auto; done.
  - intros Hij. apply (queued_iff_in_queue s j mj Hreach Hmj).
    rewrite (elem_of_queueRefs s j Hreach). lia.
Qed.

Lemma X1_witness :
  (∃ run rest, queue (after twoSubmitted) = run :: rest
               ∧ qr_metadata run = 1)
  ∧ ∀ j mj, heap (after twoSubmitted) !! j = Some mj →
      (j < 1 → status mj = completed ∨ status mj = failed)
      ∧ (1 < j → status mj = queued).
Proof.
  assert (steps twoSubmitted (initial ∅) = Some (after twoSubmitted)) as Hs
    by (by vm_compute).
  set (m := default finishedRun (heap (after twoSubmitted) !! 1)).
  set (m' := default finishedRun
               (heap (after (twoSubmitted ++ [WorkerIo io_ok 32])) !! 1)).
  destruct (X1_runs_start_in_order_of_admission
              (after twoSubmitted)
              (after (twoSubmitted ++ [WorkerIo io_ok 32]))
              (WorkerIo io_ok 32) 1 m m'
              (after_reachable _ _ Hs) ltac:(by vm_compute)
              ltac:(by vm_compute) ltac:(by vm_compute)
              ltac:(by vm_compute) ltac:(by vm_compute))
    as (_ & Hhead & Hothers).
  split; [exact Hhead | exact Hothers].
Defined.

(** X2. What [getQueueStatus] reports agrees with the run objects: the
    queue length is the number of runs whose status is queued; when
    [processing] is false there is no current run and no run is running;
    and a running run with a non-empty id is the reported current run,
    with [processing] true. *)
Theorem X2_queue_status_agrees_with_the_runs (s : State) :
  reachable s →
  queueLength (getQueueStatus s)
  = length (filter (λ m, status m = queued) (heap s))
  ∧ (qs_processing (getQueueStatus s) = false →
     qs_currentRun (getQueueStatus s) = None ∧ runningCount s = 0)
  ∧ ∀ i m, heap s !! i = Some m → status m = running → md_id m ≠ "" →
      qs_currentRun (getQueueStatus s) = Some (md_id m)
      ∧ qs_processing (getQueueStatus s) = true.
Proof.
  intros Hreach. pose proof (reachable_Inv _ Hreach) as HI.
  split; [|split].
  - simpl.
    rewrite (length_filter_from _ _ (length (heap s) - length (queue s))).
    + destruct (queue_is_tail s Hreach) as [_ Hle]. lia.
    + intros i m Hm. rewrite (queued_iff_in_queue s i m Hreach Hm).
      rewrite (elem_of_queueRefs s i Hreach).
      pose proof (lookup_lt_Some _ _ _ Hm). lia.
  - simpl. intros Hp. pose proof (inv_processing _ HI Hp) as Hidle.
    rewrite (inv_current _ HI), Hidle. split; [done|].
    unfold runningCount.
    destruct (filter isRunning (heap s)) as [|m l] eqn:E; [done|].
    assert (m ∈ filter isRunning (heap s)) as [Hrun Hin]%list_elem_of_filter
      by (rewrite E; left).
    apply list_elem_of_lookup in Hin as [i Hi].
    pose proof (running_is_workers_run s i m HI Hi Hrun) as Href.
    unfold runningRef in Href. by rewrite Hidle in Href.
  - intros i m Hm Hrun Hid.
    pose proof (running_is_workers_run s i m HI Hm Hrun) as Href.
    unfold runningRef in Href.
    destruct (runningPhase (worker s)) as [run|] eqn:Hphase; [|done].
    injection Href as Href. apply runningPhase_workerRun in Hphase as Hw.
    destruct (inv_link _ HI run m (or_intror Hw)) as [_ Hlink];
      [by rewrite Href|].
    simpl. rewrite (inv_current _ HI), Hw, <- Hlink.
    destruct (String.eqb_spec (md_id m) "") as [E|_]; [done|].
    split; [done|].
    destruct (processing s) eqn:Hp; [done|].
    by rewrite (inv_processing _ HI Hp) in Hw.
Qed.

Lemma X2_witness :
  getQueueStatus (after twoSubmitted)
  = {| queueLength := 1; qs_currentRun := Some "run-1";
       qs_processing := true |}
  ∧ length (filter (λ m, status m = queued) (heap (after twoSubmitted))) = 1.
Proof.
  assert (steps twoSubmitted (initial ∅) = Some (after twoSubmitted)) as Hs
    by (by vm_compute).
  destruct (X2_queue_status_agrees_with_the_runs (after twoSubmitted)
              (after_reachable _ _ Hs)) as (Hlen & _ & _).
  split; [by vm_compute|]. rewrite <- Hlen. by vm_compute.
Defined.

Section forward.
Implicit Types (s : State) (m : RunMetadata).

(** An assignment of the worker moves the status forward. *)
Lemma touched_rank s i m m' :
  Inv s → heap s !! i = Some m → touched s i m m' →
  statusRank (status m) ≤ statusRank (status m')
  ∧ (status m = failed → status m' = failed).
Proof.
  intros HI Hm Ht.
  destruct Ht as [|now run rest Hq Href Hphase|now run Hw Href
                  |res t now run Hw Href].
  - done.
  - pose proof (inv_status _ HI i m Hm) as Hok. unfold statusOk in Hok.
    rewrite decide_True in Hok
      by (unfold queueRefs; rewrite Hq, <- Href; left).
    rewrite Hok. simpl. split; [lia|done].
  - simpl. split; [destruct (status m); simpl; lia | done].
  - destruct (workers_run_is_running s i HI) as (m0 & Hm0 & Hst).
    { unfold runningRef. by rewrite Hw, <- Href. }
    assert (m0 = m) as -> by congruence. rewrite Hst.
    split; [destruct res; simpl; lia | done].
Qed.
End forward.

(** X3. The status of a run only moves forward, from queued to running to
    completed or failed: whatever steps follow, a run is never back at an
    earlier stage, and a failed run stays failed. *)
Theorem X3_status_never_goes_back
    (ls : list Label) (s s' : State) (i : nat) (m : RunMetadata) :
  reachable s → steps ls s = Some s' → heap s !! i = Some m →
  ∃ m', heap s' !! i = Some m'
        ∧ statusRank (status m) ≤ statusRank (status m')
        ∧ (status m = failed → status m' = failed).
Proof.
  intros Hreach Hsteps Hm. pose proof (reachable_Inv _ Hreach) as HI.
  clear Hreach. revert s m HI Hsteps Hm.
  induction ls as [|l ls IH]; simpl; intros s m HI Hsteps Hm.
  - injection Hsteps as <-. by exists m.
  - destruct (step l s) as [s1|] eqn:Hstep; [|done]. simpl in Hsteps.
    destruct (step_touches _ _ _ _ _ HI Hstep Hm) as (m1 & Hm1 & Ht).
    destruct (IH s1 m1 (Inv_step _ _ _ HI Hstep) Hsteps Hm1)
      as (m' & Hm' & Hrank & Hfailed).
    destruct (touched_rank s i m m1 HI Hm Ht) as [Hr1 Hf1].
    exists m'. split; [done|]. split; [lia | auto].
Qed.

Lemma X3_witness :
  ∃ m', heap (after (twoSubmitted ++ [WorkerIo io_ok 32])) !! 0 = Some m'
        ∧ 2 ≤ statusRank (status m').
Proof.
  assert (steps twoSubmitted (initial ∅) = Some (after twoSubmitted)) as Hs
    by (by vm_compute).
  set (m := default finishedRun (heap (after twoSubmitted) !! 0)).
  destruct (X3_status_never_goes_back [WorkerIo io_ok 32]
              (after twoSubmitted)
              (after (twoSubmitted ++ [WorkerIo io_ok 32])) 0 m
              (after_reachable _ _ Hs) ltac:(by vm_compute)
              ltac:(by vm_compute)) as (m' & Hm' & Hrank & _).
  exists m'. split; [exact Hm'|].
  assert (statusRank (status m) = 2) as Hm by (by vm_compute). lia.
Defined.

(** * The shape of the records *)

Section shape.
Implicit Types (s : State) (m : RunMetadata) (run : QueuedRun).

(** An object of the next state is an object of this state, possibly
    assigned to by the worker, or the one [createRun] has just made. *)
Lemma step_heap_back l s s' i m' :
  Inv s → step l s = Some s' → heap s' !! i = Some m' →
  (∃ m, heap s !! i = Some m ∧ touched s i m m')
  ∨ (i = length (heap s)
     ∧ ∃ body id now proc opts,
         l = PostRuns body id now proc
         ∧ safeParse body = Success opts
         ∧ m' = newMetadata id now proc opts).
Proof.
  intros HI Hstep Hm'.
  destruct (heap s !! i) as [m|] eqn:Hm.
  - left. exists m. split; [done|].
    destruct (step_touches l s s' i m HI Hstep Hm) as (m1 & Hm1 & Ht).
    congruence.
  - right. apply lookup_ge_None in Hm.
    pose proof (lookup_lt_Some _ _ _ Hm') as Hlt.
    destruct (step_queue l s s' Hstep)
      as [[_ Hh]|[(b & id & now & proc & opts & Hl & Hok & _ & Hh)
                  |(run & _ & Hh)]];
      [lia| |lia].
    rewrite Hh in Hm', Hlt. rewrite length_app in Hlt. simpl in Hlt.
    assert (i = length (heap s)) as -> by lia. split; [done|].
    rewrite lookup_app_r, Nat.sub_diag in Hm' by done.
    injection Hm' as <-. by exists b, id, now, proc, opts.
Qed.

(** The status of an object before each assignment of the worker. *)
Lemma touched_status s i m m' :
  Inv s → heap s !! i = Some m → touched s i m m' →
  m' = m
  ∨ (status m = queued ∧ ∃ now, m' = markRunning now m)
  ∨ (status m ≠ queued ∧ ∃ now, m' = markCaught now m)
  ∨ (status m = running
     ∧ ∃ res opts t now, m' = settle res opts t now m).
Proof.
  intros HI Hm Ht. pose proof (inv_status _ HI i m Hm) as Hok.
  unfold statusOk in Hok.
  destruct Ht as [|now run rest Hq Href Hphase|now run Hw Href
                  |res t now run Hw Href].
  - by left.
  - right. left. split; [|by exists now].
    rewrite decide_True in Hok; [done|].
    unfold queueRefs. rewrite Hq, <- Href. left.
  - right. right. left. split; [|by exists now].
    rewrite decide_False in Hok.
    + intros Hq. rewrite Hq in Hok. by case_decide.
    + rewrite <- Href. by apply (inv_worker_ref _ HI run).
  - right. right. right. split; [|by exists res, (qr_options run), t, now].
    destruct (workers_run_is_running s i HI) as (m0 & Hm0 & Hst).
    { unfold runningRef. by rewrite Hw, <- Href. }
    congruence.
Qed.

Lemma shapeOk_step l s s' :
  Inv s → step l s = Some s' →
  (∀ i m, heap s !! i = Some m → shapeOk m) →
  ∀ i m', heap s' !! i = Some m' → shapeOk m'.
Proof.
  intros HI Hstep Hshape i m' Hm'.
  destruct (step_heap_back l s s' i m' HI Hstep Hm')
    as [(m & Hm & Ht)|(_ & b & id & now & proc & opts & _ & _ & ->)];
    [|done].
  specialize (Hshape i m Hm).
  destruct (touched_status s i m m' HI Hm Ht)
    as [->|[(Hst & now & ->)|[(Hst & now & ->)|(Hst & res & o & t & now & ->)]]].
  - done.
  - unfold shapeOk in *. rewrite Hst in Hshape. simpl.
    destruct Hshape as (_ & Hc & Hr). by split; [eexists|].
  - unfold shapeOk in *. simpl.
    destruct (status m); try done; split; try (by eexists); by apply Hshape.
  - unfold shapeOk in *. rewrite Hst in Hshape.
    destruct Hshape as (Hs & _ & _).
    destruct res; simpl; repeat split; try done; by eexists.
Qed.
Lemma reachable_shapeOk s i m :
  reachable s → heap s !! i = Some m → shapeOk m.
Proof.
  intros Hreach. revert i m.
  induction Hreach as [d|s l s' Hreach IH Hstep]; [done|].
  by apply (shapeOk_step l s s' (reachable_Inv _ Hreach) Hstep).
Qed.
End shape.

(** X4. Every record has the fields its status calls for: a queued run
    has no start time, no completion time and no results; a running run
    has a start time and still no completion time and no results; a
    completed run has both times and results with exit code 0; a failed
    run has both times. *)
Theorem X4_records_have_the_shape_of_their_status
    (s : State) (i : nat) (m : RunMetadata) :
  reachable s → heap s !! i = Some m → shapeOk m.
Proof. apply reachable_shapeOk. Qed.

Lemma X4_witness :
  ∃ m, heap (after twoSubmitted) !! 0 = Some m
       ∧ status m = completed
       ∧ ∃ d, results m = Some {| exitCode := 0; durationMs := d |}.
Proof.
  assert (steps twoSubmitted (initial ∅) = Some (after twoSubmitted)) as Hs
    by (by vm_compute).
  set (m := default finishedRun (heap (after twoSubmitted) !! 0)).
  assert (heap (after twoSubmitted) !! 0 = Some m) as Hm by (by vm_compute).
  assert (status m = completed) as Hst by (by vm_compute).
  pose proof (X4_records_have_the_shape_of_their_status
                (after twoSubmitted) 0 m (after_reachable _ _ Hs) Hm)
    as Hshape.
  unfold shapeOk in Hshape. rewrite Hst in Hshape.
  exists m. split; [exact Hm|]. split; [exact Hst|]. apply Hshape.
Defined.

(** * The log of events *)

Section events.
Implicit Types (s : State) (m : RunMetadata) (run : QueuedRun).

Lemma logPhase_snoc log e :
  logPhase (log ++ [e]) = logPhase log ≫= λ p, logStep p e.
Proof. unfold logPhase. by rewrite foldl_app. Qed.

Lemma EvInv_frame s s' :
  EvInv s →
  worker s' = worker s → emitted s' = emitted s → heap s' = heap s →
  EvInv s'.
Proof.
  intros [Hphase Hcomplete Hresults] Hw He Hh.
  constructor; rewrite ?Hw, ?He, ?Hh; done.
Qed.

(** The worker is between two runs: the log is at an episode boundary or
    inside an episode that will get no further event. *)
Lemma EvInv_quiet s s' :
  EvInv s → emitted s' = emitted s →
  (∀ run ph, worker s' ≠ SavingFinal run ph) →
  (∀ run t, worker s' ≠ Executing run t) →
  EvInv s'.
Proof.
  intros [Hphase Hcomplete Hresults] He Hnf Hne.
  assert (is_Some (logPhase (emitted s))) as Hsome.
  { destruct (worker s); try done.
    destruct Hphase as [-> | ->]; done. }
  constructor; rewrite ?He.
  - destruct (worker s') as [| | run t | run ph | |] eqn:Hw; try done.
    + by destruct (Hne run t).
    + by destruct (Hnf run ph).
  - done.
  - intros run ph m Hw. by destruct (Hnf run ph).
Qed.

Lemma loopHead_quiet now s :
  (∀ run ph, worker (loopHead now s) ≠ SavingFinal run ph)
  ∧ (∀ run t, worker (loopHead now s) ≠ Executing run t).
Proof. unfold loopHead. by destruct (queue s). Qed.

Lemma EvInv_step l s s' :
  reachable s → EvInv s → step l s = Some s' → EvInv s'.
Proof.
  intros Hreach HE Hstep. pose proof (reachable_Inv _ Hreach) as HI.
  destruct l as [body uuid now proc|k res now|res now
                 |chunk|chunk|res now]; apply step_transition in Hstep; simpl in Hstep.
  - injection Hstep as <-. unfold postRuns.
    destruct (safeParse body) as [opts|]; [|by apply (EvInv_frame s)].
    destruct HE as [Hphase Hcomplete Hresults].
    constructor; simpl; [done|done|].
    intros run ph m Hw Hm. apply (Hresults run ph m Hw).
    rewrite lookup_app_l in Hm; [done|].
    apply (inv_worker_ref _ HI run). by rewrite Hw.
  - unfold creatorIo in Hstep.
    destruct (creators s !! k) as [c|]; [|done]. simpl in Hstep.
    destruct (saveMetadata_resume _ _ _ _ _) as [[ph|d|]|]; [..|done];
      injection Hstep as <-;
      [by apply (EvInv_frame s)| |by apply (EvInv_frame s)].
    unfold processQueue. simpl.
    destruct (processing s) eqn:Hp; [by apply (EvInv_frame s)|].
    apply (EvInv_quiet s); [done| |apply loopHead_quiet..].
    simpl. by destruct (loopHead_frame now
      (with_processing true
         (with_disk d (with_creators (delete k (creators s)) s))))
      as (_ & -> & _).
  - unfold workerIo in Hstep.
    destruct (worker s) as [|run ph|run t|run ph|run ph|run] eqn:Hw;
      try done.
    + destruct (saveMetadata_resume _ _ _ _ _) as [[ph'|d|]|]; [..|done];
        injection Hstep as <-.
      * by apply (EvInv_quiet s).
      * destruct HE as [Hphase Hcomplete Hresults]. rewrite Hw in Hphase.
        destruct Hphase as [p Hp].
        constructor; simpl.
        -- by rewrite logPhase_snoc, Hp.
        -- intros id m [Hin|Hin%list_elem_of_singleton]%elem_of_app;
             [by apply Hcomplete | done].
        -- done.
      * by apply (EvInv_quiet s).
    + destruct (saveMetadata_resume _ _ _ _ _) as [[ph'|d|]|]; [..|done];
        simpl in Hstep.
      * injection Hstep as <-.
        destruct HE as [Hphase Hcomplete Hresults]. rewrite Hw in Hphase.
        constructor; simpl; [done|done|].
        intros r p m [= <- <-]. by apply (Hresults run ph).
      * destruct (heap s !! qr_metadata run) as [mr|] eqn:Hmr; [|done].
        injection Hstep as <-.
        destruct HE as [Hphase Hcomplete Hresults]. rewrite Hw in Hphase.
        unfold nextIteration.
        destruct (loopHead_frame now
                    (with_currentRun None
                       (emit (run_complete (qr_id run) mr) (with_disk d s))))
          as (_ & Hem & _).
        destruct (loopHead_quiet now
                    (with_currentRun None
                       (emit (run_complete (qr_id run) mr) (with_disk d s))))
          as [Hnf Hne].
        constructor; rewrite ?Hem; simpl.
        -- assert (is_Some (logPhase (emitted s ++
                                       [run_complete (qr_id run) mr])))
             as Hsome.
           { rewrite logPhase_snoc.
             destruct Hphase as [-> | ->]; simpl;
               by rewrite String.eqb_refl. }
           destruct (worker (loopHead now _)) as [| |r t|r p| |] eqn:Hw';
             try done; [by destruct (Hne r t) | by destruct (Hnf r p)].
        -- intros id m [Hin|Hin%list_elem_of_singleton]%elem_of_app;
             [by apply Hcomplete|].
           injection Hin as -> ->.
           assert (workerRun (worker s) = Some run) as Hrun
             by (by rewrite Hw).
           destruct (inv_link _ HI run mr (or_intror Hrun) Hmr) as [_ Hid].
           destruct (inv_worker_ref _ HI run Hrun) as [Hnin _].
           pose proof (inv_status _ HI _ mr Hmr) as Hok.
           unfold statusOk in Hok. rewrite decide_False in Hok by done.
           unfold runningRef in Hok. rewrite Hw in Hok. simpl in Hok.
           pose proof (reachable_shapeOk s _ mr Hreach Hmr) as Hshape.
           unfold shapeOk in Hshape.
           split; [done|]. split; [by destruct (status mr); auto|].
           split; [by apply (Hresults run ph)|].
           destruct (status mr); try done; apply Hshape.
        -- intros r p m Hw'. by destruct (Hnf r p).
      * injection Hstep as <-. by apply (EvInv_quiet s).
    + destruct (saveMetadata_resume _ _ _ _ _) as [[ph'|d|]|]; [..|done];
        injection Hstep as <-.
      * by apply (EvInv_quiet s).
      * unfold nextIteration.
        apply (EvInv_quiet s); [done| |apply loopHead_quiet..].
        by destruct (loopHead_frame now
                       (with_currentRun None (with_disk d s)))
          as (_ & -> & _).
      * by apply (EvInv_quiet s).
  - unfold procData in Hstep.
    destruct (worker s) as [| |run t| | |] eqn:Hw; try done.
    injection Hstep as <-.
    destruct HE as [Hphase Hcomplete Hresults]. rewrite Hw in Hphase.
    constructor; simpl; rewrite ?Hw.
    + by rewrite logPhase_snoc, Hphase; simpl; rewrite String.eqb_refl.
    + intros id m [Hin|Hin%list_elem_of_singleton]%elem_of_app;
        [by apply Hcomplete | done].
    + done.
  - unfold procData in Hstep.
    destruct (worker s) as [| |run t| | |] eqn:Hw; try done.
    injection Hstep as <-.
    destruct HE as [Hphase Hcomplete Hresults]. rewrite Hw in Hphase.
    constructor; simpl; rewrite ?Hw.
    + by rewrite logPhase_snoc, Hphase; simpl; rewrite String.eqb_refl.
    + intros id m [Hin|Hin%list_elem_of_singleton]%elem_of_app;
        [by apply Hcomplete | done].
    + done.
  - unfold procSettled in Hstep.
    destruct (worker s) as [| |run t| | |] eqn:Hw; try done.
    injection Hstep as <-.
    destruct HE as [Hphase Hcomplete Hresults]. rewrite Hw in Hphase.
    constructor.
    + destruct res as [|error]; simpl; [by left|]. right.
      by rewrite logPhase_snoc, Hphase; simpl; rewrite String.eqb_refl.
    + destruct res as [|error]; simpl; [done|].
      intros id m [Hin|Hin%list_elem_of_singleton]%elem_of_app;
        [by apply Hcomplete | done].
    + intros r p m Hw' Hm.
      assert (r = run) as -> by (by destruct res; simpl in Hw'; congruence).
      assert (alter (settle res (qr_options run) t now) (qr_metadata run)
                (heap s) !! qr_metadata run = Some m) as Hm2
        by (by destruct res).
      apply lookup_alter_Some in Hm2 as [(_ & m0 & _ & ->)|[? _]]; [|done].
      by destruct res.
Qed.

Lemma reachable_EvInv s : reachable s → EvInv s.
Proof.
  induction 1 as [d|s l s' Hreach IH Hstep].
  - constructor; simpl; [done| |done].
    by intros id m ?%elem_of_nil.
  - by apply (EvInv_step l s s').
Qed.
End events.

(** X5. The service emits its events in episodes: an episode opens with
    [run:start], goes on with stdout and stderr chunks of the same run,
    then has at most one [run:error] and at most one [run:complete] of
    that run, after which only a new [run:start] can follow; while a child
    is executing, the log stands inside the episode of its run. *)
Theorem X5_events_come_in_episodes (s : State) :
  reachable s →
  is_Some (logPhase (emitted s))
  ∧ ∀ run startTime, worker s = Executing run startTime →
      logPhase (emitted s) = Some (LogRunning (qr_id run)).
Proof.
  intros [Hphase _ _]%reachable_EvInv. split.
  - destruct (worker s); try done. destruct Hphase as [-> | ->]; done.
  - intros run t Hw. by rewrite Hw in Hphase.
Qed.

Lemma X5_witness :
  logPhase (emitted (after (untilExecuting bareRequest)))
  = Some (LogRunning "run-1").
Proof.
  assert (steps (untilExecuting bareRequest) (initial ∅)
          = Some (after (untilExecuting bareRequest))) as Hs
    by (by vm_compute).
  destruct (X5_events_come_in_episodes (after (untilExecuting bareRequest))
              (after_reachable _ _ Hs)) as [_ Hexec].
  apply (Hexec {| qr_id := "run-1";
                  qr_options := {| exp := "01-hidden-classes";
                                   variant := deopt; trace := false;
                                   profile := false; warmup := 1000;
                                   repeat_ := 100000 |};
                  qr_metadata := 0 |} 9%Z).
  by vm_compute.
Defined.

(** X6. Every [run:complete] event carries the record of the run it
    names, in a terminal status, with results and a completion time. *)
Theorem X6_complete_event_carries_the_final_record
    (s : State) (id : string) (m : RunMetadata) :
  reachable s → run_complete id m ∈ emitted s →
  md_id m = id
  ∧ (status m = completed ∨ status m = failed)
  ∧ is_Some (results m)
  ∧ is_Some (ts_completed (timestamps m)).
Proof. intros [_ Hcomplete _]%reachable_EvInv. apply Hcomplete. Qed.

Lemma X6_witness :
  ∃ m, run_complete "run-1" m
       ∈ emitted (after (twoSubmitted ++ [WorkerIo io_ok 32]))
       ∧ status m = completed ∧ is_Some (results m).
Proof.
  assert (steps (twoSubmitted ++ [WorkerIo io_ok 32]) (initial ∅)
          = Some (after (twoSubmitted ++ [WorkerIo io_ok 32]))) as Hs
    by (by vm_compute).
  set (m := default finishedRun (heap (after twoSubmitted) !! 0)).
  assert (emitted (after (twoSubmitted ++ [WorkerIo io_ok 32]))
          = [run_start "run-1"; run_complete "run-1" m]) as Hlog
    by (by vm_compute).
  assert (run_complete "run-1" m
          ∈ emitted (after (twoSubmitted ++ [WorkerIo io_ok 32]))) as Hin.
  { rewrite Hlog. right. left. }
  destruct (X6_complete_event_carries_the_final_record _ "run-1" m
              (after_reachable _ _ Hs) Hin) as (_ & _ & Hres & _).
  exists m. split; [exact Hin|]. split; [by vm_compute | exact Hres].
Defined.

(** * The live viewer *)

Section viewer.
Implicit Types (s : State) (st : Stream) (es : list RunEvent).

Lemma step_emitted l s s' :
  step l s = Some s' → ∃ evs, emitted s' = emitted s ++ evs.
Proof.
  intros Hstep.
  assert (∃ evs, emitted s = emitted s ++ evs) as Hsame
    by (exists []; by rewrite app_nil_r).
  destruct l as [body uuid now proc|k res now|res now
                 |chunk|chunk|res now]; apply step_transition in Hstep; simpl in Hstep.
  - injection Hstep as <-. unfold postRuns. by destruct (safeParse body).
  - unfold creatorIo in Hstep.
    destruct (creators s !! k) as [c|]; [|done]. simpl in Hstep.
    destruct (saveMetadata_resume _ _ _ _ _) as [[ph|d|]|]; [..|done];
      injection Hstep as <-; [done| |done].
    simpl. unfold processQueue. simpl. destruct (processing s); [done|].
    by destruct (loopHead_frame now
      (with_processing true
         (with_disk d (with_creators (delete k (creators s)) s))))
      as (_ & -> & _).
  - unfold workerIo in Hstep.
    destruct (worker s) as [|run ph|run t|run ph|run ph|run]; try done.
    + destruct (saveMetadata_resume _ _ _ _ _) as [[ph'|d|]|]; [..|done];
        injection Hstep as <-; [done| |done].
      by eexists.
    + destruct (saveMetadata_resume _ _ _ _ _) as [[ph'|d|]|]; [..|done];
        simpl in Hstep.
      * by injection Hstep as <-.
      * destruct (heap s !! qr_metadata run) as [mr|]; [|done].
        injection Hstep as <-. unfold nextIteration.
        destruct (loopHead_frame now
                    (with_currentRun None
                       (emit (run_complete (qr_id run) mr) (with_disk d s))))
          as (_ & -> & _).
        by eexists.
      * by injection Hstep as <-.
    + destruct (saveMetadata_resume _ _ _ _ _) as [[ph'|d|]|]; [..|done];
        injection Hstep as <-; [done| |done].
      unfold nextIteration.
      by destruct (loopHead_frame now (with_currentRun None (with_disk d s)))
        as (_ & -> & _).
  - unfold procData in Hstep. destruct (worker s); try done.
    injection Hstep as <-. by eexists.
  - unfold procData in Hstep. destruct (worker s); try done.
    injection Hstep as <-. by eexists.
  - unfold procSettled in Hstep. destruct (worker s); try done.
    injection Hstep as <-. destruct res; [done | by eexists].
Qed.

Lemma steps_emitted ls s s' :
  steps ls s = Some s' → ∃ evs, emitted s' = emitted s ++ evs.
Proof.
  revert s. induction ls as [|l ls IH]; simpl; intros s Hsteps.
  - injection Hsteps as <-. exists []. by rewrite app_nil_r.
  - destruct (step l s) as [s1|] eqn:Hstep; [|done]. simpl in Hsteps.
    destruct (step_emitted l s s1 Hstep) as [evs1 E1].
    destruct (IH s1 Hsteps) as [evs2 E2].
    exists (evs1 ++ evs2). by rewrite E2, E1, app_assoc.
Qed.

(** What a listening viewer has written after a sequence of events. *)
Lemma deliver_frames id es st :
  listening st = true →
  written (foldl (λ st e, deliver id e st) st es)
  = written st ++ framesUntilComplete id es.
Proof.
  revert st. induction es as [|e es IH]; intros st Hl; simpl.
  - by rewrite app_nil_r.
  - destruct e as [rid|rid chunk|rid chunk|rid message|rid metadata];
      unfold deliver at 2; rewrite Hl; simpl;
      try destruct (String.eqb rid id); simpl;
      rewrite ?IH by done; simpl; rewrite <- ?app_assoc; try done.
    by rewrite deliver_all_closed.
Qed.

Local Ltac other_run IH Hne :=
  let Hin := fresh "Hin" in
  intros Hin; destruct (IH Hin) as (? & ? & Hclose);
  split; [by right|]; split; [done|];
  intros st Hl; unfold deliver at 2 4; rewrite Hl;
  apply String.eqb_neq in Hne; rewrite Hne; by apply Hclose.

Local Ltac own_frame IH :=
  let Hin := fresh "Hin" in
  intros [Hin|Hin]%elem_of_cons; [done|];
  destruct (IH Hin) as (? & Hlast & Hclose);
  split; [by right|]; split; [by rewrite last_cons, Hlast|];
  intros st Hl; unfold deliver at 2 4; rewrite Hl, String.eqb_refl;
  by apply Hclose.

(** A [complete] frame comes from a [run:complete] event of the run, is
    the last frame, and closes the stream. *)
Lemma framesUntilComplete_complete id es run :
  sse_complete run ∈ framesUntilComplete id es →
  run_complete id run ∈ es
  ∧ last (framesUntilComplete id es) = Some (sse_complete run)
  ∧ ∀ st, listening st = true →
      ended (foldl (λ st e, deliver id e st) st es) = true
      ∧ listening (foldl (λ st e, deliver id e st) st es) = false.
Proof.
  induction es as [|e es IH]; simpl; [by intros ?%elem_of_nil|].
  destruct e as [rid|rid chunk|rid chunk|rid message|rid metadata]; simpl.
  - intros Hin. destruct (IH Hin) as (H1 & H2 & H3).
    split; [by right|]. split; [done|].
    intros st Hl. unfold deliver at 2 4. rewrite Hl. by apply H3.
  - destruct (String.eqb_spec rid id) as [->|Hne]; simpl;
      [own_frame IH | other_run IH Hne].
  - destruct (String.eqb_spec rid id) as [->|Hne]; simpl;
      [own_frame IH | other_run IH Hne].
  - destruct (String.eqb_spec rid id) as [->|Hne]; simpl;
      [own_frame IH | other_run IH Hne].
  - destruct (String.eqb_spec rid id) as [->|Hne]; simpl;
      [|other_run IH Hne].
    intros [= <-]%list_elem_of_singleton.
    split; [by left|]. split; [done|].
    intros st Hl. unfold deliver at 2 4. rewrite Hl, String.eqb_refl.
    by rewrite deliver_all_closed.
Qed.
End viewer.

(** X7. A viewer that subscribes to a run whose stored record is queued
    or running gets a [status] frame and then, of the events the service
    emits from then on, exactly the stdout, stderr and error events of
    that run in the order of emission, up to and with its first
    [run:complete]; events of other runs add nothing. A [complete] frame
    is the last frame, carries the terminal record of the run with its
    results, and ends the response. *)
Theorem X7_live_viewer_gets_its_run_in_order
    (ls : list Label) (s s' : State) (d : gmap string FileContent)
    (id : string) (r : RunMetadata) :
  reachable s → steps ls s = Some s' →
  getRun id d = Some (IsRun r) → status r = queued ∨ status r = running →
  ∃ evs st,
    emitted s' = emitted s ++ evs
    ∧ openStream id d = EventStream st
    ∧ written (foldl (λ st e, deliver id e st) st evs)
      = sse_status (status r) :: framesUntilComplete id evs
    ∧ ∀ m, sse_complete m
           ∈ written (foldl (λ st e, deliver id e st) st evs) →
        completeOk id m
        ∧ last (written (foldl (λ st e, deliver id e st) st evs))
          = Some (sse_complete m)
        ∧ ended (foldl (λ st e, deliver id e st) st evs) = true
        ∧ listening (foldl (λ st e, deliver id e st) st evs) = false.
Proof.
  intros Hreach Hsteps Hget Hlive.
  destruct (steps_emitted ls s s' Hsteps) as [evs Hevs].
  exists evs. eexists. split; [done|].
  unfold openStream. rewrite Hget.
  rewrite decide_False by (destruct Hlive as [-> | ->]; intros [?|?]; done).
  split; [done|].
  rewrite deliver_frames by done. simpl. split; [done|].
  intros m [Hin|Hin]%elem_of_cons; [done|].
  destruct (framesUntilComplete_complete id evs m Hin) as (Hev & Hlast & Hend).
  split.
  - apply (ev_complete s'); [|rewrite Hevs, elem_of_app; by right].
    apply reachable_EvInv. by apply (reachable_steps ls s).
  - split; [|by apply Hend].
    rewrite last_cons, Hlast. done.
Qed.

Lemma X7_witness :
  ∃ evs st,
    emitted (after (untilExecuting bareRequest
                    ++ [ProcStdout "ok"; ProcSettled Resolved 30]
                    ++ finalSave))
    = emitted (after (untilExecuting bareRequest)) ++ evs
    ∧ openStream "run-1" (disk (after (untilExecuting bareRequest)))
      = EventStream st
    ∧ written (foldl (λ st e, deliver "run-1" e st) st evs)
      = sse_status running :: framesUntilComplete "run-1" evs.
Proof.
  assert (steps (untilExecuting bareRequest) (initial ∅)
          = Some (after (untilExecuting bareRequest))) as Hs
    by (by vm_compute).
  set (r := runOf
              (getRun "run-1" (disk (after (untilExecuting bareRequest))))).
  destruct (X7_live_viewer_gets_its_run_in_order
              ([ProcStdout "ok"; ProcSettled Resolved 30] ++ finalSave)
              (after (untilExecuting bareRequest))
              (after (untilExecuting bareRequest
                      ++ [ProcStdout "ok"; ProcSettled Resolved 30]
                      ++ finalSave))
              (disk (after (untilExecuting bareRequest))) "run-1" r
              (after_reachable _ _ Hs) ltac:(by vm_compute)
              ltac:(by vm_compute) ltac:(by right; vm_compute))
    as (evs & st & Hem & Hopen & Hw & _).
  exists evs, st. split; [exact Hem|]. split; [exact Hopen|]. exact Hw.
Defined.

(** * The files of the runs *)

Section files.
Implicit Types (s : State) (d : gmap string FileContent) (m : RunMetadata).

Lemma length_append (a b : string) :
  String.length (a +:+ b) = String.length a + String.length b.
Proof. induction a as [|c a IH]; simpl; [done | by rewrite IH]. Qed.


Lemma substring_all (b : string) : substring 0 (String.length b) b = b.
Proof. induction b as [|c b IH]; simpl; [done | by rewrite IH]. Qed.

Lemma substring_append (a b : string) :
  substring (String.length a) (String.length b) (a +:+ b) = b.
Proof. induction a as [|c a IH]; simpl; [apply substring_all | done]. Qed.

Lemma endsWith_append (a suffix : string) :
  endsWith (a +:+ suffix) suffix = true.
Proof.
  unfold endsWith. rewrite length_append.
  replace (String.length a + String.length suffix - String.length suffix)
    with (String.length a) by lia.
  rewrite substring_append, String.eqb_refl, andb_true_r.
  apply Nat.leb_le. lia.
Qed.

Lemma getRun_Some id d m :
  getRun id d = Some (IsRun m) ↔ d !! (id +:+ ".json") = Some (JsonText m).
Proof.
  unfold getRun. destruct (d !! (id +:+ ".json")) as [[m'|v|]|]; split;
    intros; simplify_eq/=; done.
Qed.

Lemma wellNamed_empty : wellNamed ∅.
Proof. intros name m Hm. by rewrite lookup_empty in Hm. Qed.

Lemma wellNamed_insert d m :
  wellNamed d → wellNamed (<[md_id m +:+ ".json" := JsonText m]> d).
Proof.
  intros Hd name m' Hlook.
  destruct (decide (name = md_id m +:+ ".json")) as [->|Hne].
  - rewrite lookup_insert_eq in Hlook. by injection Hlook as <-.
  - rewrite lookup_insert_ne in Hlook by done. by apply Hd.
Qed.

(** What a resumption of [saveMetadata] hands on. *)
Lemma saveMetadata_resume_named res ph ref h d p :
  saveMetadata_resume res ph ref h d = Some p →
  wellNamed d → phaseNamed ph →
  match p with
  | SaveContinues ph' => phaseNamed ph'
  | SaveDone d' => wellNamed d'
  | SaveFailed => True
  end.
Proof.
  intros Hp Hd Hph. destruct res, ph as [|filePath content]; simpl in Hp.
  - destruct (h !! ref) as [m|]; [|done]. by injection Hp as <-.
  - injection Hp as <-. simpl in Hph. subst filePath.
    by apply wellNamed_insert.
  - by injection Hp as <-.
  - by injection Hp as <-.
Qed.

Lemma DiskInv_quiet s s' :
  DiskInv s → disk s' = disk s → creators s' = creators s →
  workerPhase (worker s') = None ∨ workerPhase (worker s') = Some AwaitMkdir
  ∨ workerPhase (worker s') = workerPhase (worker s) →
  DiskInv s'.
Proof.
  intros [Hd Hc Hw] Ed Ec Hphase. constructor; rewrite ?Ed, ?Ec; try done.
  intros ph Hph. destruct Hphase as [E|[E|E]]; rewrite E in Hph; try done.
  - by injection Hph as <-.
  - by apply Hw.
Qed.

Lemma loopHead_workerPhase now s :
  workerPhase (worker (loopHead now s)) = None
  ∨ workerPhase (worker (loopHead now s)) = Some AwaitMkdir.
Proof. unfold loopHead. destruct (queue s); [by left | by right]. Qed.

Lemma DiskInv_loopHead now s :
  wellNamed (disk s) → Forall (λ c, phaseNamed (cr_phase c)) (creators s) →
  DiskInv (loopHead now s).
Proof.
  intros Hd Hc.
  destruct (loopHead_frame now s) as (Ed & _ & _ & Ec).
  constructor; rewrite ?Ed, ?Ec; try done.
  intros ph Hph.
  destruct (loopHead_workerPhase now s) as [E|E]; rewrite E in Hph;
    [done | by injection Hph as <-].
Qed.

Local Ltac solve_disk :=
  constructor; simpl; try done; by intros ? [= <-].

Lemma DiskInv_step l s s' : DiskInv s → step l s = Some s' → DiskInv s'.
Proof.
  intros HD Hstep. pose proof HD as [Hd Hc Hw].
  destruct l as [body uuid now proc|k res now|res now
                 |chunk|chunk|res now]; apply step_transition in Hstep; simpl in Hstep.
  - injection Hstep as <-. unfold postRuns.
    destruct (safeParse body) as [opts|].
    + constructor; simpl; [done| |done].
      apply Forall_app. split; [done|]. by repeat constructor.
    + solve_disk.
  - unfold creatorIo in Hstep.
    destruct (creators s !! k) as [c|] eqn:Hk; [|done]. simpl in Hstep.
    destruct (saveMetadata_resume _ _ _ _ _) as [p|] eqn:Hp; [|done].
    injection Hstep as <-.
    pose proof (saveMetadata_resume_named _ _ _ _ _ _ Hp Hd
                  (proj1 (Forall_lookup _ _) Hc k c Hk)) as Hnamed.
    destruct p as [ph|d|]; simpl in Hnamed.
    + constructor; simpl; [done| |done]. by apply Forall_insert.
    + assert (Forall (λ c, phaseNamed (cr_phase c)) (delete k (creators s)))
        as Hc' by (by apply Forall_delete).
      unfold processQueue. simpl. destruct (processing s).
      * solve_disk.
      * destruct (DiskInv_loopHead now
                    (with_processing true
                       (with_disk d
                          (with_creators (delete k (creators s)) s))))
          as [Hd2 Hc2 Hw2]; [done..|].
        solve_disk.
    + constructor; simpl; [done| |done]. by apply Forall_delete.
  - unfold workerIo in Hstep.
    destruct (worker s) as [|run ph|run t|run ph|run ph|run] eqn:Ew;
      try done.
    + destruct (saveMetadata_resume _ _ _ _ _) as [p|] eqn:Hp; [|done].
      injection Hstep as <-.
      pose proof (saveMetadata_resume_named _ _ _ _ _ _ Hp Hd
                    (Hw ph eq_refl)) as Hnamed.
      destruct p as [ph'|d|]; simpl in Hnamed.
      * constructor; simpl; [done|done|]. by intros ? [= <-].
      * solve_disk.
      * solve_disk.
    + destruct (saveMetadata_resume _ _ _ _ _) as [p|] eqn:Hp; [|done].
      pose proof (saveMetadata_resume_named _ _ _ _ _ _ Hp Hd
                    (Hw ph eq_refl)) as Hnamed.
      destruct p as [ph'|d|]; simpl in Hnamed, Hstep.
      * injection Hstep as <-.
        constructor; simpl; [done|done|]. by intros ? [= <-].
      * destruct (heap s !! qr_metadata run) as [mr|]; [|done].
        injection Hstep as <-. unfold nextIteration.
        by apply DiskInv_loopHead.
      * injection Hstep as <-. solve_disk.
    + destruct (saveMetadata_resume _ _ _ _ _) as [p|] eqn:Hp; [|done].
      injection Hstep as <-.
      pose proof (saveMetadata_resume_named _ _ _ _ _ _ Hp Hd
                    (Hw ph eq_refl)) as Hnamed.
      destruct p as [ph'|d|]; simpl in Hnamed.
      * constructor; simpl; [done|done|]. by intros ? [= <-].
      * unfold nextIteration. by apply DiskInv_loopHead.
      * solve_disk.
  - unfold procData in Hstep. destruct (worker s); try done.
    injection Hstep as <-. apply (DiskInv_quiet s); auto.
  - unfold procData in Hstep. destruct (worker s); try done.
    injection Hstep as <-. apply (DiskInv_quiet s); auto.
  - unfold procSettled in Hstep. destruct (worker s); try done.
    injection Hstep as <-.
    apply (DiskInv_quiet s); destruct res; simpl; auto.
Qed.

Lemma DiskInv_steps ls d s :
  wellNamed d → steps ls (initial d) = Some s → DiskInv s.
Proof.
  intros Hd.
  assert (DiskInv (initial d)) as HD by (by constructor).
  revert HD. generalize (initial d). clear Hd.
  induction ls as [|l ls IH]; simpl; intros s0 HD Hsteps.
  - by injection Hsteps as <-.
  - destruct (step l s0) as [s1|] eqn:Hstep; [|done].
    apply (IH s1); [by eapply DiskInv_step | done].
Qed.


Lemma sortable_insert d path content :
  sortable d → sortable (<[path := JsonText content]> d).
Proof.
  intros Hd name v Hv.
  destruct (decide (path = name)) as [->|Hne].
  - by rewrite lookup_insert_eq in Hv.
  - rewrite lookup_insert_ne in Hv by done. by apply (Hd name).
Qed.

(** A resumption of [saveMetadata] that ends has written one record. *)
Lemma saveMetadata_resume_disk res ph ref h d d' :
  saveMetadata_resume res ph ref h d = Some (SaveDone d') →
  ∃ path content, d' = <[path := JsonText content]> d.
Proof.
  destruct res, ph as [|filePath content]; simpl; try done.
  - by destruct (h !! ref).
  - intros [= <-]. by eauto.
Qed.

(** A step leaves the files as they are or writes one record. *)
Lemma step_disk l s s' :
  step l s = Some s' →
  disk s' = disk s
  ∨ ∃ path content, disk s' = <[path := JsonText content]> (disk s).
Proof.
  intros Hstep.
  destruct l as [body uuid now proc|k res now|res now
                 |chunk|chunk|res now];
    apply step_transition in Hstep; simpl in Hstep.
  - injection Hstep as <-. left. unfold postRuns.
    by destruct (safeParse body).
  - unfold creatorIo in Hstep.
    destruct (creators s !! k) as [c|] eqn:Hk; [|done]. simpl in Hstep.
    destruct (saveMetadata_resume _ _ _ _ _) as [p|] eqn:Hp; [|done].
    injection Hstep as <-.
    destruct p as [ph|d|]; simpl; [by left| |by left].
    right. apply saveMetadata_resume_disk in Hp.
    unfold processQueue. simpl. destruct (processing s); [done|].
    by destruct (loopHead_frame now
                   (with_processing true
                      (with_disk d
                         (with_creators (delete k (creators s)) s))))
      as (-> & _).
  - unfold workerIo in Hstep.
    destruct (worker s) as [|run ph|run t|run ph|run ph|run] eqn:Ew;
      try done.
    + destruct (saveMetadata_resume _ _ _ _ _) as [p|] eqn:Hp; [|done].
      injection Hstep as <-.
      destruct p as [ph'|d|]; simpl; [by left| |by left].
      right. by apply saveMetadata_resume_disk in Hp.
    + destruct (saveMetadata_resume _ _ _ _ _) as [p|] eqn:Hp; [|done].
      destruct p as [ph'|d|]; simpl in Hstep.
      * injection Hstep as <-. by left.
      * destruct (heap s !! qr_metadata run) as [mr|]; [|done].
        injection Hstep as <-. right.
        apply saveMetadata_resume_disk in Hp. unfold nextIteration.
        by destruct (loopHead_frame now
                       (with_currentRun None
                          (emit (run_complete (qr_id run) mr)
                             (with_disk d s)))) as (-> & _).
      * injection Hstep as <-. by left.
    + destruct (saveMetadata_resume _ _ _ _ _) as [p|] eqn:Hp; [|done].
      injection Hstep as <-.
      destruct p as [ph'|d|]; simpl; [by left| |by left].
      right. apply saveMetadata_resume_disk in Hp. unfold nextIteration.
      by destruct (loopHead_frame now
                     (with_currentRun None (with_disk d s))) as (-> & _).
  - unfold procData in Hstep. destruct (worker s); try done.
    injection Hstep as <-. by left.
  - unfold procData in Hstep. destruct (worker s); try done.
    injection Hstep as <-. by left.
  - unfold procSettled in Hstep. destruct (worker s); try done.
    injection Hstep as <-. left. by destruct res.
Qed.

Lemma sortable_steps ls s s' :
  sortable (disk s) → steps ls s = Some s' → sortable (disk s').
Proof.
  revert s. induction ls as [|l ls IH]; simpl; intros s Hd Hsteps.
  - by injection Hsteps as <-.
  - destruct (step l s) as [s1|] eqn:Hstep; [|done].
    apply (IH s1); [|done].
    destruct (step_disk l s s1 Hstep) as [->|(path & content & ->)];
      [done | by apply sortable_insert].
Qed.

Lemma wellNamed_listRuns d (files : list (string * FileContent)) :
  wellNamed d → sortable d → files ≡ₚ map_to_list d →
  ∃ runs, listRuns (Some files) = Returned runs
          ∧ ∀ m, IsRun m ∈ runs ↔ getRun (md_id m) d = Some (IsRun m).
Proof.
  intros Hd Hs Hf. eexists. split.
  - apply listRuns_sortable.
    intros p (name & c & [_ Hin]%list_elem_of_filter & Hc)%elem_of_readRuns.
    rewrite Hf in Hin. apply elem_of_map_to_list in Hin.
    destruct p as [m|v]; [by eexists|].
    apply parse_NotRun in Hc as ->. by apply (Hs name).
  - intros m. rewrite sortBy_Permutation, elem_of_readRuns, getRun_Some.
    split.
    + intros (name & c & [Hend Hin]%list_elem_of_filter & ->%parse_IsRun).
      rewrite Hf in Hin. apply elem_of_map_to_list in Hin.
      by rewrite <- (Hd name m Hin).
    + intros Hlook. exists (md_id m +:+ ".json"), (JsonText m).
      split; [|done]. apply list_elem_of_filter.
      split; [apply endsWith_append|].
      rewrite Hf. by apply elem_of_map_to_list.
Qed.
End files.



(** X9. When, in addition, every file present at start-up that parses
    to something other than a record has a queued time that can be read,
    [listRuns] returns a list, in whatever order [readdir] gives the
    files, and the records in it are exactly those that [getRun] finds
    under their own id. *)
Theorem X9_listRuns_lists_what_getRun_finds
    (ls : list Label) (d : gmap string FileContent) (s : State)
    (files : list (string * FileContent)) :
  wellNamed d → sortable d → steps ls (initial d) = Some s →
  files ≡ₚ map_to_list (disk s) →
  ∃ runs, listRuns (Some files) = Returned runs
          ∧ ∀ m, IsRun m ∈ runs
                 ↔ getRun (md_id m) (disk s) = Some (IsRun m).
Proof.
  intros Hd Hsort Hsteps Hfiles. apply wellNamed_listRuns; [| |done].
  - by apply (disk_named s), (DiskInv_steps ls d).
  - by apply (sortable_steps ls (initial d)).
Qed.

Lemma X9_witness :
  ∃ m runs,
    getRun "run-1" (disk (after (untilExecuting bareRequest)))
    = Some (IsRun m)
    ∧ listRuns (Some (map_to_list
                        (disk (after (untilExecuting bareRequest)))))
      = Returned runs
    ∧ IsRun m ∈ runs.
Proof.
  set (m := runOf
              (getRun "run-1" (disk (after (untilExecuting bareRequest))))).
  assert (getRun "run-1" (disk (after (untilExecuting bareRequest)))
          = Some (IsRun m)) as Hget by (by vm_compute).
  destruct (X9_listRuns_lists_what_getRun_finds
              (untilExecuting bareRequest) ∅
              (after (untilExecuting bareRequest))
              (map_to_list (disk (after (untilExecuting bareRequest)))))
    as (runs & Hruns & Hlisted).
  - exact wellNamed_empty.
  - intros name v Hv. by rewrite lookup_empty in Hv.
  - by vm_compute.
  - reflexivity.
  - exists m, runs. split; [exact Hget|]. split; [exact Hruns|].
    apply Hlisted. exact Hget.
Defined.

(** * When saving fails *)

Section save_failures.
Implicit Types (s : State) (m : RunMetadata) (run : QueuedRun).

(** The save in the [catch] of [processQueue] goes through. *)
Lemma caughtSave_persists s run m t1 t2 :
  worker s = SavingCaught run AwaitMkdir →
  heap s !! qr_metadata run = Some m → md_id m = qr_id run →
  ∃ s', steps [WorkerIo io_ok t1; WorkerIo io_ok t2] s = Some s'
        ∧ getRun (qr_id run) (disk s') = Some (IsRun m)
        ∧ emitted s' = emitted s.
Proof.
  intros Hw Hm Hid.
  set (filePath := md_id m +:+ ".json").
  set (s1 := with_worker (SavingCaught run (AwaitWriteFile filePath m)) s).
  set (s2 := nextIteration t2
               (with_disk (<[filePath := JsonText m]> (disk s)) s1)).
  assert (step (WorkerIo io_ok t1) s = Some s1) as H1.
  { unfold step, alive, transition, workerIo. rewrite Hw. simpl. by rewrite Hm. }
  assert (step (WorkerIo io_ok t2) s1 = Some s2) as H2 by done.
  exists s2. rewrite (steps_cons _ _ _ _ H1), (steps_cons _ _ _ _ H2).
  split; [done|]. unfold s2, nextIteration.
  destruct (loopHead_frame t2
              (with_currentRun None
                 (with_disk (<[filePath := JsonText m]> (disk s)) s1)))
    as (-> & -> & _).
  simpl. split; [|done]. unfold getRun, filePath.
  by rewrite <- Hid, lookup_insert_eq.
Qed.

(** The final save fails at its first or second await. *)
Lemma finalSave_fails s run ph m now :
  worker s = SavingFinal run ph →
  heap s !! qr_metadata run = Some m →
  ∃ s', step (WorkerIo io_error now) s = Some s'
        ∧ worker s' = SavingCaught run AwaitMkdir
        ∧ heap s' !! qr_metadata run = Some (markCaught now m)
        ∧ emitted s' = emitted s.
Proof.
  intros Hw Hm. unfold step, alive, transition, workerIo. rewrite Hw. simpl.
  eexists. split; [done|]. simpl.
  by rewrite (lookup_alter_at _ _ _ _ _ Hm), decide_True.
Qed.
End save_failures.

(** X10. When the child has ended and the save of the final record fails,
    the [catch] of [processQueue] marks the run failed, whatever the
    child did: once the save in the [catch] has gone through, the stored
    record is failed with the time of the failed save as its completion
    time, while its results and artifact paths are those of the outcome
    of the child, exit code 0 included; and no [run:complete] event is
    emitted for it. *)
Theorem X10_failed_final_save_marks_the_run_failed
    (s : State) (run : QueuedRun) (res : ExecaResult)
    (startTime now t1 t2 t3 : Z) :
  reachable s → worker s = Executing run startTime →
  ∃ s' m,
    steps [ProcSettled res now; WorkerIo io_error t1;
           WorkerIo io_ok t2; WorkerIo io_ok t3] s = Some s'
    ∧ getRun (qr_id run) (disk s') = Some (IsRun m)
    ∧ status m = failed
    ∧ ts_completed (timestamps m) = Some t1
    ∧ results m
      = Some {| exitCode := match res with
                            | Resolved => 0
                            | Rejected error => exitCodeOr1 error
                            end;
                durationMs := now - startTime |}
    ∧ artifacts m = match res with
                    | Resolved => successArtifacts (qr_options run)
                    | Rejected _ => noArtifacts
                    end
    ∧ ∀ id r, run_complete id r ∈ emitted s' →
              run_complete id r ∈ emitted s.
Proof.
  intros Hreach Hw. pose proof (reachable_Inv _ Hreach) as HI.
  destruct (executing_object s run startTime HI Hw)
    as (m0 & Hm0 & Hst & Hart & Hid & Hopts).
  destruct (procSettled_record s run startTime res now m0 Hw Hm0)
    as (s1 & Hstep1 & Hm1 & Hw1 & _ & _ & Hem1).
  destruct (finalSave_fails s1 run _ _ t1 Hw1 Hm1)
    as (s2 & Hstep2 & Hw2 & Hm2 & Hem2).
  destruct (caughtSave_persists s2 run _ t2 t3 Hw2 Hm2)
    as (s' & Hsteps & Hget & Hem3); [by destruct res|].
  exists s', (markCaught t1 (settle res (qr_options run) startTime now m0)).
  rewrite (steps_cons _ _ _ _ Hstep1), (steps_cons _ _ _ _ Hstep2).
  split; [done|]. split; [done|].
  split; [done|]. split; [by destruct res|]. split; [by destruct res|].
  split; [by destruct res|].
  intros id r. rewrite Hem3, Hem2, Hem1.
  intros [Hin|Hin]%elem_of_app; [done|].
  destruct res; [by apply elem_of_nil in Hin|].
  by apply list_elem_of_singleton in Hin.
Qed.

Lemma X10_witness :
  ∃ m, getRun "run-1"
         (disk (after (untilExecuting tracedRequest
                       ++ [ProcSettled Resolved 30; WorkerIo io_error 31;
                           WorkerIo io_ok 32; WorkerIo io_ok 33])))
       = Some (IsRun m)
       ∧ status m = failed
       ∧ results m = Some {| exitCode := 0; durationMs := 21 |}.
Proof.
  assert (steps (untilExecuting tracedRequest) (initial ∅)
          = Some (after (untilExecuting tracedRequest))) as Hs
    by (by vm_compute).
  destruct (X10_failed_final_save_marks_the_run_failed
              (after (untilExecuting tracedRequest))
              {| qr_id := "run-1";
                 qr_options := {| exp := "02-inline-caches";
                                  variant := fixed; trace := true;
                                  profile := true; warmup := 1000;
                                  repeat_ := 100000 |};
                 qr_metadata := 0 |}
              Resolved 9 30 31 32 33
              (after_reachable _ _ Hs) ltac:(by vm_compute))
    as (s' & m & Hsteps & Hget & Hst & _ & Hres & _).
  exists m. split; [|by split].
  rewrite <- Hget. f_equal. f_equal. apply after_steps.
  by rewrite (steps_app _ _ _ _ Hs).
Defined.

Section crash.
Implicit Types (s : State) (m : RunMetadata) (run : QueuedRun).


End crash.



(** * From submission to completion *)

Section happy_path.
Implicit Types (s : State) (m : RunMetadata) (run : QueuedRun).

(** On an idle service a request is accepted, saved and started. *)
Lemma submit_and_start s opts uuid proc t0 t1 t2 t3 t4 :
  alive s = true → processing s = false → queue s = [] →
  let run := {| qr_id := uuid; qr_options := opts;
                qr_metadata := length (heap s) |} in
  let m0 := newMetadata uuid t0 proc opts in
  let filePath := uuid +:+ ".json" in
  steps [CreatorIo (length (creators s)) io_ok t1;
         CreatorIo (length (creators s)) io_ok t2;
         WorkerIo io_ok t3; WorkerIo io_ok t4]
    (createRun_begin opts uuid t0 proc s)
  = Some {| heap := heap s ++ [markRunning t2 m0];
            queue := [];
            currentRun := Some run;
            processing := true;
            worker := Executing run t4;
            creators := creators s;
            disk := <[filePath := JsonText (markRunning t2 m0)]>
                      (<[filePath := JsonText m0]> (disk s));
            emitted := emitted s ++ [run_start uuid];
            responses := responses s ++ [Created uuid queued] |}.
Proof.
  intros Ha Hp Hq run m0 filePath.
  set (c1 := {| cr_run := run; cr_phase := AwaitMkdir |}).
  set (c2 := {| cr_run := run; cr_phase := AwaitWriteFile filePath m0 |}).
  set (sa := createRun_begin opts uuid t0 proc s).
  set (sb := with_creators (creators s ++ [c2]) sa).
  set (sc := {| heap := heap s ++ [markRunning t2 m0]; queue := [];
                currentRun := Some run; processing := true;
                worker := SavingStart run AwaitMkdir;
                creators := creators s;
                disk := <[filePath := JsonText m0]> (disk s);
                emitted := emitted s;
                responses := responses s ++ [Created uuid queued] |}).
  set (sd := with_worker
               (SavingStart run
                  (AwaitWriteFile filePath (markRunning t2 m0))) sc).
  assert (step (CreatorIo (length (creators s)) io_ok t1) sa = Some sb) as H1.
  { apply transition_step; [exact Ha|].
    unfold transition, creatorIo, sa. simpl.
    rewrite lookup_app_r, Nat.sub_diag by done. simpl.
    rewrite lookup_app_r, Nat.sub_diag by done. simpl.
    unfold sb. do 2 f_equal.
    rewrite insert_app_r_alt, Nat.sub_diag by done. done. }
  assert (step (CreatorIo (length (creators s)) io_ok t2) sb = Some sc) as H2.
  { apply transition_step; [exact Ha|].
    unfold transition, creatorIo, sb, sa. simpl.
    rewrite lookup_app_r, Nat.sub_diag by done. simpl.
    unfold processQueue. simpl. rewrite Hp. unfold loopHead. simpl.
    rewrite Hq. simpl.
    rewrite alter_app_r_alt, Nat.sub_diag by done. simpl.
    unfold sc. f_equal. f_equal.
    by rewrite (delete_middle (creators s) [] c2), app_nil_r. }
  assert (step (WorkerIo io_ok t3) sc = Some sd) as H3.
  { unfold step, alive, transition, workerIo, sc. simpl.
    by rewrite lookup_app_r, Nat.sub_diag by done. }
  rewrite (steps_cons _ _ _ _ H1), (steps_cons _ _ _ _ H2),
    (steps_cons _ _ _ _ H3).
  done.
Qed.

(** The child exits with code 0, the record is saved, and the loop finds
    the queue empty. *)
Lemma complete_and_stop s run startTime m0 t5 t6 t7 :
  worker s = Executing run startTime → queue s = [] →
  heap s !! qr_metadata run = Some m0 →
  let m := settle Resolved (qr_options run) startTime t5 m0 in
  ∃ s', steps [ProcSettled Resolved t5; WorkerIo io_ok t6; WorkerIo io_ok t7]
          s = Some s'
        ∧ heap s' = alter (λ _, m) (qr_metadata run) (heap s)
        ∧ queue s' = [] ∧ processing s' = false ∧ worker s' = Idle
        ∧ currentRun s' = None
        ∧ disk s' = <[md_id m0 +:+ ".json" := JsonText m]> (disk s)
        ∧ emitted s' = emitted s ++ [run_complete (qr_id run) m]
        ∧ responses s' = responses s.
Proof.
  intros Hw Hq Hm0 m.
  set (h := alter (settle Resolved (qr_options run) startTime t5)
              (qr_metadata run) (heap s)).
  assert (h !! qr_metadata run = Some m) as Hm.
  { unfold h. by rewrite (lookup_alter_at _ _ _ _ _ Hm0), decide_True. }
  set (s1 := with_worker (SavingFinal run AwaitMkdir) (with_heap h s)).
  set (s2 := with_worker
               (SavingFinal run (AwaitWriteFile (md_id m0 +:+ ".json") m))
               s1).
  assert (step (ProcSettled Resolved t5) s = Some s1) as H1.
  { unfold step, alive, transition, procSettled. by rewrite Hw. }
  assert (step (WorkerIo io_ok t6) s1 = Some s2) as H2.
  { unfold step, alive, transition, workerIo, s1. simpl. by rewrite Hm. }
  rewrite (steps_cons _ _ _ _ H1), (steps_cons _ _ _ _ H2).
  unfold steps, step, alive, transition, workerIo, s2, s1. simpl. rewrite Hm. simpl.
  unfold nextIteration, loopHead. simpl. rewrite Hq. simpl.
  eexists. split; [done|]. simpl. split; [|done].
  unfold h. apply list_eq. intros i.
  rewrite !list_lookup_alter. case_decide; [|done].
  subst i. by rewrite Hm0.
Qed.
End happy_path.

(** X12. On a running service whose loop is stopped and whose queue is
    empty, a
    valid request followed by successful saves and a child that exits
    with code 0 is answered with 201, runs at once and ends completed:
    the stored record has the three timestamps of submission, start and
    end, exit code 0 with the time the child took, the validated options
    and the artifact paths; its events are [run:start] and [run:complete];
    and the service is idle again with an empty queue. *)
Theorem X12_idle_service_runs_a_request_to_completion
    (s : State) (b : RequestBody) (opts : RunOptions) (uuid : string)
    (proc : ProcessInfo) (t0 t1 t2 t3 t4 t5 t6 t7 : Z) :
  alive s = true → processing s = false → queue s = [] →
  safeParse (Some b) = Success opts →
  ∃ s' m,
    steps [PostRuns (Some b) uuid t0 proc;
           CreatorIo (length (creators s)) io_ok t1;
           CreatorIo (length (creators s)) io_ok t2;
           WorkerIo io_ok t3; WorkerIo io_ok t4;
           ProcSettled Resolved t5;
           WorkerIo io_ok t6; WorkerIo io_ok t7] s = Some s'
    ∧ responses s' = responses s ++ [Created uuid queued]
    ∧ getRun uuid (disk s') = Some (IsRun m)
    ∧ heap s' = heap s ++ [m]
    ∧ md_id m = uuid ∧ status m = completed
    ∧ timestamps m = {| ts_queued := t0; ts_started := Some t2;
                        ts_completed := Some t5 |}
    ∧ results m = Some {| exitCode := 0; durationMs := t5 - t4 |}
    ∧ options m = recorded opts
    ∧ artifacts m = successArtifacts opts
    ∧ emitted s' = emitted s ++ [run_start uuid; run_complete uuid m]
    ∧ processing s' = false ∧ queue s' = [] ∧ currentRun s' = None.
Proof.
  intros Ha Hp Hq Hok.
  set (run := {| qr_id := uuid; qr_options := opts;
                 qr_metadata := length (heap s) |}).
  set (m1 := markRunning t2 (newMetadata uuid t0 proc opts)).
  pose proof (submit_and_start s opts uuid proc t0 t1 t2 t3 t4 Ha Hp Hq)
    as Hstart. simpl in Hstart. fold run m1 in Hstart.
  match type of Hstart with _ = Some ?x => set (s5 := x) in * end.
  destruct (complete_and_stop s5 run t4 m1 t5 t6 t7)
    as (s' & Hsteps & Hheap & Hq' & Hp' & Hw' & Hc' & Hdisk & Hem & Hresp).
  { done. }
  { done. }
  { simpl. by rewrite lookup_app_r, Nat.sub_diag. }
  exists s', (settle Resolved opts t4 t5 m1).
  split.
  { assert (step (PostRuns (Some b) uuid t0 proc) s
            = Some (createRun_begin opts uuid t0 proc s)) as H0.
    { apply transition_step; [exact Ha|]. simpl.
      by rewrite (postRuns_accepts _ _ _ _ _ _ Hok). }
    rewrite (steps_cons _ _ _ _ H0).
    etrans; [|exact Hsteps].
    exact (steps_app [CreatorIo (length (creators s)) io_ok t1;
                      CreatorIo (length (creators s)) io_ok t2;
                      WorkerIo io_ok t3; WorkerIo io_ok t4]
             [ProcSettled Resolved t5; WorkerIo io_ok t6; WorkerIo io_ok t7]
             _ _ Hstart). }
  split; [by rewrite Hresp|]. split.
  { rewrite Hdisk. unfold getRun. simpl. by rewrite lookup_insert_eq. }
  split.
  { rewrite Hheap. simpl.
    by rewrite alter_app_r_alt, Nat.sub_diag by done. }
  repeat split; try done.
  rewrite Hem. simpl. by rewrite <- app_assoc.
Qed.

Lemma X12_witness :
  ∃ m, getRun "run-1"
         (disk (after (untilExecuting bareRequest
                       ++ ProcSettled Resolved 30 :: finalSave)))
       = Some (IsRun m)
       ∧ status m = completed
       ∧ results m = Some {| exitCode := 0; durationMs := 21 |}.
Proof.
  destruct (X12_idle_service_runs_a_request_to_completion
              (initial ∅) bareRequest
              {| exp := "01-hidden-classes"; variant := deopt;
                 trace := false; profile := false;
                 warmup := 1000; repeat_ := 100000 |}
              "run-1" host 5 6 7 8 9 30 31 32 eq_refl eq_refl eq_refl
              eq_refl)
    as (s' & m & Hsteps & _ & Hget & _ & _ & Hst & _ & Hres & _).
  exists m. split; [|by split].
  rewrite <- Hget. f_equal. f_equal. by apply after_steps.
Defined.

(** * The arguments of the child process *)

Section arguments.
Implicit Types (u : Decimal.uint) (z : Z) (opts : RunOptions).

Local Ltac read_digit :=
  match goal with
  | |- context [digitOf ?c] =>
      let v := eval vm_compute in (digitOf c) in
      change (digitOf c) with v; cbn [default from_option id]
  end.

Lemma digits_acc u (acc : positive) :
  digits (Some (Z.pos acc)) (NilEmpty.string_of_uint u)
  = Some (Z.pos (Pos.of_uint_acc u acc)).
Proof.
  revert acc. induction u as [|u IH|u IH|u IH|u IH|u IH|u IH|u IH|u IH|u IH
                              |u IH]; intros acc; [reflexivity|..];
    cbn [NilEmpty.string_of_uint digits Pos.of_uint_acc];
    rewrite <- IH; read_digit; do 2 f_equal; lia.
Qed.

Lemma digits_zero u :
  digits (Some 0%Z) (NilEmpty.string_of_uint u)
  = Some (Z.of_N (Pos.of_uint u)).
Proof.
  induction u as [|u IH|u IH|u IH|u IH|u IH|u IH|u IH|u IH|u IH|u IH];
    [reflexivity|exact IH|..];
    cbn [NilEmpty.string_of_uint digits Pos.of_uint Z.of_N];
    rewrite <- digits_acc; by read_digit.
Qed.

Lemma digits_None u :
  u ≠ Decimal.Nil →
  digits None (NilEmpty.string_of_uint u) = Some (Z.of_N (Pos.of_uint u)).
Proof.
  intros Hu. rewrite <- digits_zero. by destruct u.
Qed.

Lemma parseInt_digits u :
  u ≠ Decimal.Nil →
  parseInt (NilEmpty.string_of_uint u) = Some (Z.of_N (Pos.of_uint u)).
Proof.
  intros Hu. rewrite <- (digits_None u Hu). by destruct u.
Qed.

Lemma string_of_uint_nonnil u :
  u ≠ Decimal.Nil → NilZero.string_of_uint u = NilEmpty.string_of_uint u.
Proof. by destruct u. Qed.

(** [parseInt] reads back what [toString] printed. *)
Lemma parseInt_numberToString z : parseInt (numberToString z) = Some z.
Proof.
  destruct z as [|p|p]; [done|..]; unfold numberToString; simpl.
  - rewrite string_of_uint_nonnil by apply Unsigned.to_uint_nonnil.
    rewrite parseInt_digits by apply Unsigned.to_uint_nonnil.
    by rewrite DecimalPos.Unsigned.of_to.
  - rewrite string_of_uint_nonnil by apply Unsigned.to_uint_nonnil.
    unfold parseInt. simpl.
    rewrite digits_None by apply Unsigned.to_uint_nonnil.
    by rewrite DecimalPos.Unsigned.of_to.
Qed.

Lemma numberToString_truthy z : falsy (Some (numberToString z)) = false.
Proof.
  destruct z as [|p|p]; [done|..]; unfold numberToString; simpl; [|done].
  pose proof (Unsigned.to_uint_nonnil p) as Hp.
  by destruct (Pos.to_uint p).
Qed.

Lemma matchesSlug_truthy e : matchesSlug e = true → falsy (Some e) = false.
Proof. by destruct e. Qed.

Lemma isVariantName_variantName (v : Variant) :
  isVariantName (Some (variantName v)) = true.
Proof. by destruct v. Qed.

Lemma variantName_truthy (v : Variant) : falsy (Some (variantName v)) = false.
Proof. by destruct v. Qed.

Lemma parseLoop_buildArgs opts :
  parseLoop (drop 2 (processArgv (buildArgs opts))) false scriptDefaults
  = inr (scriptOptionsOf opts).
Proof.
  unfold processArgv, buildArgs, scriptOptionsOf.
  destruct opts as [e v t p w r]. cbn -[numberToString parseInt].
  unfold parseIntArg. cbn [default from_option id].
  rewrite !parseInt_numberToString. by destruct t, p.
Qed.

Lemma parseArgs_buildArgs opts :
  matchesSlug (exp opts) = true →
  parseArgs (processArgv (buildArgs opts)) = inr (scriptOptionsOf opts).
Proof.
  intros He. unfold parseArgs. rewrite parseLoop_buildArgs.
  cbn [so_exp so_variant scriptOptionsOf].
  by rewrite matchesSlug_truthy, variantName_truthy,
    isVariantName_variantName.
Qed.
End arguments.

(** * Only validated options are run *)

Section validated.
Implicit Types (s : State) (m : RunMetadata) (run : QueuedRun).
Implicit Types (opts : RunOptions).

Lemma optionalDefault_range lo hi d v n :
  optionalDefault (intRangeSchema lo hi) d v = inr n → (lo ≤ n ≤ hi)%Z.
Proof.
  intros H.
  assert (∃ v', intRangeSchema lo hi v' = inr n) as [v' Hv']
    by (unfold optionalDefault in H; destruct v; by eexists).
  by apply intRangeSchema_sound in Hv' as [? _].
Qed.

Lemma safeParse_valid body opts :
  safeParse body = Success opts → validOptions opts.
Proof.
  destruct body as [b|]; [|done].
  intros (He & _ & _ & _ & Hw & Hr)%safeParse_Success.
  apply expSchema_inr in He as (_ & Hlen & Hslug).
  apply optionalDefault_range in Hw, Hr. done.
Qed.

Lemma validRecord_newMetadata id now proc opts :
  validOptions opts → validRecord (newMetadata id now proc opts).
Proof.
  intros (Hslug & Hlen & Hw & Hr). repeat split; try done; try apply Hlen;
    try apply Hw; try apply Hr.
  by eexists.
Qed.

Lemma validRecord_touched s i m m' :
  touched s i m m' → validRecord m → validRecord m'.
Proof.
  intros (_ & He & Hv & Ho & _)%touched_static. unfold validRecord.
  by rewrite He, Hv, Ho.
Qed.

Lemma loopHead_worker now s run :
  workerRun (worker (loopHead now s)) = Some run → run ∈ queue s.
Proof.
  unfold loopHead. destruct (queue s) as [|r rest]; simpl; [done|].
  intros [= <-]. apply list_elem_of_here.
Qed.

(** The run of the worker after a step was its run before, or was in the
    queue. *)
Lemma step_worker_origin l s s' run :
  step l s = Some s' → workerRun (worker s') = Some run →
  workerRun (worker s) = Some run ∨ run ∈ queue s.
Proof.
  intros Hstep Hrun.
  destruct l as [body uuid now proc|k res now|res now
                 |chunk|chunk|res now]; apply step_transition in Hstep; simpl in Hstep.
  - injection Hstep as <-. unfold postRuns in Hrun.
    destruct (safeParse body); by left.
  - unfold creatorIo in Hstep.
    destruct (creators s !! k) as [c|]; [|done]. simpl in Hstep.
    destruct (saveMetadata_resume _ _ _ _ _) as [[ph|d|]|]; [..|done];
      injection Hstep as <-; [by left| |by left].
    simpl in Hrun. unfold processQueue in Hrun. simpl in Hrun.
    destruct (processing s); [by left|].
    right. by apply loopHead_worker in Hrun.
  - unfold workerIo in Hstep.
    destruct (worker s) as [|r ph|r t|r ph|r ph|r] eqn:Hw; try done.
    + destruct (saveMetadata_resume _ _ _ _ _) as [[ph'|d|]|]; [..|done];
        injection Hstep as <-; by left.
    + destruct (saveMetadata_resume _ _ _ _ _) as [[ph'|d|]|]; [..|done];
        simpl in Hstep.
      * injection Hstep as <-. by left.
      * destruct (heap s !! qr_metadata r) as [mr|]; [|done].
        injection Hstep as <-. unfold nextIteration in Hrun.
        right. by apply loopHead_worker in Hrun.
      * injection Hstep as <-. by left.
    + destruct (saveMetadata_resume _ _ _ _ _) as [[ph'|d|]|]; [..|done];
        injection Hstep as <-; [by left| |by left].
      unfold nextIteration in Hrun.
      right. by apply loopHead_worker in Hrun.
  - unfold procData in Hstep. destruct (worker s) eqn:Hw; try done.
    injection Hstep as <-. simpl in Hrun. rewrite Hw in Hrun. by left.
  - unfold procData in Hstep. destruct (worker s) eqn:Hw; try done.
    injection Hstep as <-. simpl in Hrun. rewrite Hw in Hrun. by left.
  - unfold procSettled in Hstep. destruct (worker s) eqn:Hw; try done.
    injection Hstep as <-. left. by destruct res.
Qed.

Lemma RunsValid_step l s s' :
  Inv s → RunsValid s → step l s = Some s' → RunsValid s'.
Proof.
  intros HI [Hq Hw Hh] Hstep. constructor.
  - intros run Hin.
    destruct (step_queue l s s' Hstep)
      as [[E _]|[(b & id & now & proc & opts & _ & Hok & E & _)
                 |(r & E & _)]].
    + apply Hq. by rewrite <- E.
    + rewrite E in Hin. apply elem_of_app in Hin as [Hin|Hin]; [by apply Hq|].
      apply list_elem_of_singleton in Hin as ->. simpl.
      by apply (safeParse_valid b).
    + apply Hq. rewrite E. by apply list_elem_of_further.
  - intros run Hrun.
    destruct (step_worker_origin l s s' run Hstep Hrun); [by apply Hw|].
    by apply Hq.
  - intros i m' Hm'.
    destruct (step_heap_back l s s' i m' HI Hstep Hm')
      as [(m & Hm & Ht)|(_ & b & id & now & proc & opts & _ & Hok & ->)].
    + apply (validRecord_touched s i m m' Ht). by apply (Hh i).
    + by apply validRecord_newMetadata, (safeParse_valid b).
Qed.

Lemma reachable_RunsValid s : reachable s → RunsValid s.
Proof.
  induction 1 as [d|s l s' Hs IH Hstep].
  - constructor; simpl; [by intros ? ?%elem_of_nil | done | done].
  - apply (RunsValid_step l s); [by apply reachable_Inv | done | done].
Qed.
End validated.

(** X13. Every record the service holds, whatever its status, has an
    experiment name of 1 to 100 letters, digits, underscores and hyphens,
    one of the three variant names, a warm-up count from 0 to 100000 and
    a repetition count from 1 to 1000000; so have the options of every
    run that waits in the queue or is with the worker. *)
Theorem X13_only_validated_options_are_held (s : State) :
  reachable s →
  (∀ i m, heap s !! i = Some m → validRecord m)
  ∧ (∀ run, run ∈ queue s ∨ workerRun (worker s) = Some run →
       validOptions (qr_options run)).
Proof.
  intros [Hq Hw Hh]%reachable_RunsValid. split; [done|].
  intros run [Hin|Hrun]; [by apply Hq | by apply Hw].
Qed.

Lemma X13_witness :
  (∀ i m, heap (after twoSubmitted) !! i = Some m → validRecord m)
  ∧ (∀ run, run ∈ queue (after twoSubmitted)
            ∨ workerRun (worker (after twoSubmitted)) = Some run →
       validOptions (qr_options run)).
Proof.
  assert (steps twoSubmitted (initial ∅) = Some (after twoSubmitted)) as Hs
    by (by vm_compute).
  exact (X13_only_validated_options_are_held (after twoSubmitted)
           (after_reachable _ _ Hs)).
Defined.

(** X14. The script reads back the options of the run the worker
    executes: on the arguments [executeRun] builds, [parseArgs] does not
    exit and returns the experiment, the variant, the two switches and
    the two counts of the validated request. *)
Theorem X14_script_reads_back_the_options
    (s : State) (run : QueuedRun) (startTime : Z) :
  reachable s → worker s = Executing run startTime →
  parseArgs (processArgv (buildArgs (qr_options run)))
  = inr (scriptOptionsOf (qr_options run)).
Proof.
  intros [_ Hw _]%reachable_RunsValid Hexec.
  apply parseArgs_buildArgs.
  apply (Hw run). by rewrite Hexec.
Qed.

Lemma X14_witness :
  parseArgs ["node"; "scripts/run-experiment.js";
             "--exp"; "01-hidden-classes"; "--variant"; "deopt";
             "--warmup"; "1000"; "--repeat"; "100000"]
  = inr {| so_exp := Some "01-hidden-classes"; so_variant := Some "deopt";
           so_trace := false; so_profile := false;
           so_warmup := Some 1000%Z; so_repeat := Some 100000%Z |}.
Proof.
  assert (steps (untilExecuting bareRequest) (initial ∅)
          = Some (after (untilExecuting bareRequest))) as Hs
    by (by vm_compute).
  exact (X14_script_reads_back_the_options
           (after (untilExecuting bareRequest))
           {| qr_id := "run-1";
              qr_options :=
                {| exp := "01-hidden-classes"; variant := deopt;
                   trace := false; profile := false;
                   warmup := 1000; repeat_ := 100000 |};
              qr_metadata := 0 |}
           9 (after_reachable _ _ Hs) ltac:(by vm_compute)).
Defined.

(** X15. The experiment the worker has started is run as the request
    asked: node gets the two trace flags exactly when [trace] was set and
    the profiler flags exactly when [profile] was set, and the warm-up and
    repetition counts the experiment reads from its environment are those
    of the validated request. *)
Theorem X15_experiment_runs_as_requested
    (s : State) (run : QueuedRun) (startTime : Z) (artifactDir : string) :
  reachable s → worker s = Executing run startTime →
  ∃ o, parseArgs (processArgv (buildArgs (qr_options run))) = inr o
       ∧ buildNodeFlags o artifactDir
         = (if trace (qr_options run)
            then ["--trace-opt"; "--trace-deopt"] else [])
           ++ (if profile (qr_options run)
               then ["--cpu-prof"; "--cpu-prof-dir=" +:+ artifactDir]
               else [])
       ∧ iterations (Some (env_WARMUP (childEnv o))) "1000"
         = Some (warmup (qr_options run))
       ∧ iterations (Some (env_REPEAT (childEnv o))) "100000"
         = Some (repeat_ (qr_options run)).
Proof.
  intros [_ Hw _]%reachable_RunsValid Hexec.
  exists (scriptOptionsOf (qr_options run)). split.
  { apply parseArgs_buildArgs. apply (Hw run). by rewrite Hexec. }
  split; [done|].
  unfold iterations, childEnv, scriptOptionsOf, toStringOrNaN.
  cbn [env_WARMUP env_REPEAT so_warmup so_repeat].
  rewrite !numberToString_truthy. cbn [default from_option id].
  by rewrite !parseInt_numberToString.
Qed.

Lemma X15_witness :
  ∃ o, parseArgs (processArgv (buildArgs
         {| exp := "02-inline-caches"; variant := fixed;
            trace := true; profile := true;
            warmup := 1000; repeat_ := 100000 |})) = inr o
       ∧ buildNodeFlags o "artifacts"
         = ["--trace-opt"; "--trace-deopt";
            "--cpu-prof"; "--cpu-prof-dir=artifacts"]
       ∧ iterations (Some (env_WARMUP (childEnv o))) "1000" = Some 1000%Z
       ∧ iterations (Some (env_REPEAT (childEnv o))) "100000"
         = Some 100000%Z.
Proof.
  assert (steps (untilExecuting tracedRequest) (initial ∅)
          = Some (after (untilExecuting tracedRequest))) as Hs
    by (by vm_compute).
  exact (X15_experiment_runs_as_requested
           (after (untilExecuting tracedRequest))
           {| qr_id := "run-1";
              qr_options :=
                {| exp := "02-inline-caches"; variant := fixed;
                   trace := true; profile := true;
                   warmup := 1000; repeat_ := 100000 |};
              qr_metadata := 0 |}
           9 "artifacts" (after_reachable _ _ Hs) ltac:(by vm_compute)).
Defined.

(** * The times of a record *)

Section times.
Implicit Types (s : State) (m : RunMetadata) (run : QueuedRun) (t : Z).

Lemma loopHead_touches_at now s0 s i m :
  heap s = heap s0 → queue s = queue s0 → heap s0 !! i = Some m →
  ∃ m', heap (loopHead now s) !! i = Some m'
        ∧ (m' = m ∨ touchedAt s0 now i m m').
Proof.
  intros Hh Hq Hm. unfold loopHead. rewrite Hq.
  destruct (queue s0) as [|run rest] eqn:Hqueue; simpl; rewrite Hh.
  - exists m. by split; [|left].
  - rewrite (lookup_alter_at _ _ _ _ _ Hm). eexists. split; [done|].
    case_decide; [right; by econstructor | by left].
Qed.

Lemma caught_touches_at run now s i m :
  workerRun (worker s) = Some run → heap s !! i = Some m →
  ∃ m', heap (caught run now s) !! i = Some m'
        ∧ (m' = m ∨ touchedAt s now i m m').
Proof.
  intros Hrun Hm. simpl. rewrite (lookup_alter_at _ _ _ _ _ Hm).
  eexists. split; [done|]. case_decide; [right; by econstructor | by left].
Qed.

(** What a step does to an object, with the reading of the clock. *)
Lemma step_touches_at l s s' i m :
  step l s = Some s' → heap s !! i = Some m →
  ∃ m', heap s' !! i = Some m'
        ∧ (m' = m ∨ ∃ now, clockOf l = Some now ∧ touchedAt s now i m m').
Proof.
  intros Hstep Hm.
  assert (∀ now s1,
            (∃ m', heap s1 !! i = Some m'
                   ∧ (m' = m ∨ touchedAt s now i m m')) →
            clockOf l = Some now →
            ∃ m', heap s1 !! i = Some m'
                  ∧ (m' = m
                     ∨ ∃ now, clockOf l = Some now ∧ touchedAt s now i m m'))
    as Hat.
  { intros now s1 (m' & Hm' & Hcase) Hl. exists m'. split; [done|].
    destruct Hcase as [->|Ht]; [by left | right; by exists now]. }
  assert (∃ m', heap s !! i = Some m'
                ∧ (m' = m
                   ∨ ∃ now, clockOf l = Some now ∧ touchedAt s now i m m'))
    as Hsame by (exists m; split; [done | by left]).
  destruct l as [body uuid now proc|k res now|res now
                 |chunk|chunk|res now]; apply step_transition in Hstep; simpl in Hstep.
  - injection Hstep as <-. unfold postRuns.
    destruct (safeParse body); [|done]. simpl.
    exists m. split; [|by left].
    by rewrite lookup_app_l by by eapply lookup_lt_Some.
  - unfold creatorIo in Hstep.
    destruct (creators s !! k) as [c|]; [|done]. simpl in Hstep.
    destruct (saveMetadata_resume _ _ _ _ _) as [[ph|d|]|]; [..|done];
      injection Hstep as <-; [done| |done].
    simpl. unfold processQueue. simpl.
    destruct (processing s) eqn:Hproc; [done|].
    apply (Hat now); [|done]. by apply loopHead_touches_at.
  - unfold workerIo in Hstep.
    destruct (worker s) as [|run ph|run t|run ph|run ph|run] eqn:Hw;
      try done.
    + destruct (saveMetadata_resume _ _ _ _ _) as [[ph'|d|]|]; [..|done];
        injection Hstep as <-; [done|done|].
      apply (Hat now); [|done].
      apply caught_touches_at; [by rewrite Hw | done].
    + destruct (saveMetadata_resume _ _ _ _ _) as [[ph'|d|]|]; [..|done];
        simpl in Hstep.
      * by injection Hstep as <-.
      * destruct (heap s !! qr_metadata run) as [mr|]; [|done].
        injection Hstep as <-. unfold nextIteration.
        apply (Hat now); [|done]. by apply loopHead_touches_at.
      * injection Hstep as <-. apply (Hat now); [|done].
        apply caught_touches_at; [by rewrite Hw | done].
    + destruct (saveMetadata_resume _ _ _ _ _) as [[ph'|d|]|]; [..|done];
        injection Hstep as <-; [done| |done].
      unfold nextIteration.
      apply (Hat now); [|done]. by apply loopHead_touches_at.
  - unfold procData in Hstep. destruct (worker s); try done.
    by injection Hstep as <-.
  - unfold procData in Hstep. destruct (worker s); try done.
    by injection Hstep as <-.
  - unfold procSettled in Hstep.
    destruct (worker s) as [|run ph|run t|run ph|run ph|run] eqn:Hw;
      try done.
    injection Hstep as <-. apply (Hat now); [|done].
    assert (∃ m', alter (settle res (qr_options run) t now)
                    (qr_metadata run) (heap s) !! i = Some m'
                  ∧ (m' = m ∨ touchedAt s now i m m')) as Hgoal.
    { rewrite (lookup_alter_at _ _ _ _ _ Hm). eexists. split; [done|].
      case_decide; [right; by econstructor | by left]. }
    by destruct res.
Qed.

(** A child that is executing was started by this step, at its reading of
    the clock, or was executing before. *)
Lemma step_executing_origin l s s' run startTime :
  step l s = Some s' → worker s' = Executing run startTime →
  worker s = Executing run startTime
  ∨ (∃ ph, worker s = SavingStart run ph) ∧ clockOf l = Some startTime.
Proof.
  intros Hstep Hexec.
  assert (∀ now s1, worker (loopHead now s1) ≠ Executing run startTime)
    as Hloop by (intros now s1; unfold loopHead; by destruct (queue s1)).
  destruct l as [body uuid now proc|k res now|res now
                 |chunk|chunk|res now]; apply step_transition in Hstep; simpl in Hstep.
  - injection Hstep as <-. unfold postRuns in Hexec.
    destruct (safeParse body); by left.
  - unfold creatorIo in Hstep.
    destruct (creators s !! k) as [c|]; [|done]. simpl in Hstep.
    destruct (saveMetadata_resume _ _ _ _ _) as [[ph|d|]|]; [..|done];
      injection Hstep as <-; [by left| |by left].
    simpl in Hexec. unfold processQueue in Hexec. simpl in Hexec.
    destruct (processing s); [by left|]. by apply Hloop in Hexec.
  - unfold workerIo in Hstep.
    destruct (worker s) as [|r ph|r t|r ph|r ph|r] eqn:Hw; try done.
    + destruct (saveMetadata_resume _ _ _ _ _) as [[ph'|d|]|]; [..|done];
        injection Hstep as <-; try done.
      simpl in Hexec. injection Hexec as -> ->. right. by split; [eexists|].
    + destruct (saveMetadata_resume _ _ _ _ _) as [[ph'|d|]|]; [..|done];
        simpl in Hstep.
      * by injection Hstep as <-.
      * destruct (heap s !! qr_metadata r) as [mr|]; [|done].
        injection Hstep as <-. unfold nextIteration in Hexec.
        by apply Hloop in Hexec.
      * by injection Hstep as <-.
    + destruct (saveMetadata_resume _ _ _ _ _) as [[ph'|d|]|]; [..|done];
        injection Hstep as <-; try done.
      unfold nextIteration in Hexec. by apply Hloop in Hexec.
  - unfold procData in Hstep. destruct (worker s) eqn:Hw; try done.
    injection Hstep as <-. simpl in Hexec. rewrite Hw in Hexec. by left.
  - unfold procData in Hstep. destruct (worker s) eqn:Hw; try done.
    injection Hstep as <-. simpl in Hexec. rewrite Hw in Hexec. by left.
  - unfold procSettled in Hstep. destruct (worker s) eqn:Hw; try done.
    injection Hstep as <-. by destruct res.
Qed.

Lemma stampsUpTo_le t t' m : (t ≤ t')%Z → stampsUpTo t m → stampsUpTo t' m.
Proof.
  intros Hle (Hq & Ha & Hc). split; [lia|]. split.
  - intros a Hsome. specialize (Ha a Hsome). lia.
  - intros c Hsome. specialize (Hc c Hsome). lia.
Qed.

(** The three assignments keep the times in order when the clock has not
    gone back. *)
Lemma touchedAt_times s t now i m m' :
  Inv s → shapeOk m → TimeInv t s → (t ≤ now)%Z →
  heap s !! i = Some m → touchedAt s now i m m' →
  timesOk m' ∧ stampsUpTo now m'.
Proof.
  intros HI Hshape [Hheap Hworker] Hle Hm Ht.
  destruct (Hheap i m Hm) as [Hok (Hq & Ha & Hc)].
  pose proof (inv_status _ HI i m Hm) as Hst. unfold statusOk in Hst.
  destruct Ht as [run rest Hqueue Href|run Hrun Href
                  |res startTime run Hexec Href].
  - assert (i ∈ queueRefs s) as Hin.
    { unfold queueRefs. rewrite Hqueue, <- Href. apply list_elem_of_here. }
    rewrite decide_True in Hst by done.
    unfold shapeOk in Hshape. rewrite Hst in Hshape.
    destruct Hshape as (_ & Hnc & _).
    split.
    + intros a [= <-]. split; [simpl; lia|].
      intros c Hsome. simpl in Hsome. congruence.
    + split; [simpl; lia|]. split.
      * by intros a [= <-].
      * intros c Hsome. simpl in Hsome. congruence.
  - destruct (inv_worker_ref _ HI run Hrun) as [Hnin _].
    rewrite Href in Hnin. rewrite decide_False in Hst by done.
    assert (status m ≠ queued) as Hnq.
    { case_decide; [congruence|]. by destruct (status m). }
    assert (∃ a, ts_started (timestamps m) = Some a) as [a Hsa].
    { unfold shapeOk in Hshape.
      destruct (status m); [done|..]; by destruct Hshape as [[a ->] _];
        exists a. }
    destruct (Hok a Hsa) as [Hqa Hrest]. specialize (Ha a Hsa).
    split.
    + intros a' Hsa'. simpl in Hsa'. rewrite Hsa in Hsa'.
      injection Hsa' as <-. split; [done|].
      intros c [= <-]. split; [lia|].
      intros r Hr. simpl in Hr.
      assert (∃ c, ts_completed (timestamps m) = Some c) as [c Hsc].
      { unfold shapeOk in Hshape. rewrite Hr in Hshape.
        destruct (status m).
        - by destruct Hshape as (_ & _ & ?).
        - by destruct Hshape as (_ & _ & ?).
        - destruct Hshape as (_ & [c ->] & _). by exists c.
        - destruct Hshape as (_ & [c ->]). by exists c. }
      destruct (Hrest c Hsc) as [_ Hdur]. specialize (Hdur r Hr).
      specialize (Hc c Hsc). lia.
    + split; [simpl; lia|]. split.
      * intros a' Hsa'. simpl in Hsa'. rewrite Hsa in Hsa'.
        injection Hsa' as <-. lia.
      * by intros c [= <-].
  - rewrite <- Href in Hm.
    destruct (Hworker run startTime m Hexec Hm) as (a & Hsa & Has & Hst').
    destruct (Hok a Hsa) as [Hqa _].
    destruct res as [|error]; (split; [|split; [simpl; lia|split]]).
    + intros a' Hsa'. simpl in Hsa'. rewrite Hsa in Hsa'.
      injection Hsa' as <-. split; [done|].
      intros c [= <-]. split; [lia|]. intros r [= <-]. simpl. lia.
    + intros a' Hsa'. simpl in Hsa'. rewrite Hsa in Hsa'.
      injection Hsa' as <-. lia.
    + by intros c [= <-].
    + intros a' Hsa'. simpl in Hsa'. rewrite Hsa in Hsa'.
      injection Hsa' as <-. split; [done|].
      intros c [= <-]. split; [lia|]. intros r [= <-]. simpl. lia.
    + intros a' Hsa'. simpl in Hsa'. rewrite Hsa in Hsa'.
      injection Hsa' as <-. lia.
    + by intros c [= <-].
Qed.

(** Only the start of a run sets its [started] time. *)
Lemma touchedAt_started s now i m m' :
  Inv s → touchedAt s now i m m' → i ∉ queueRefs s →
  ts_started (timestamps m') = ts_started (timestamps m).
Proof.
  intros HI [run rest Hqueue Href|run Hrun Href|res startTime run Hexec Href]
    Hnin.
  - exfalso. apply Hnin. unfold queueRefs. rewrite Hqueue, <- Href.
    apply list_elem_of_here.
  - done.
  - by destruct res.
Qed.

Lemma TimeInv_step l s s' t :
  reachable s → TimeInv t s → step l s = Some s' →
  (t ≤ default t (clockOf l))%Z →
  TimeInv (default t (clockOf l)) s'.
Proof.
  intros Hreach HT Hstep Hle.
  pose proof (reachable_Inv _ Hreach) as HI.
  pose proof HT as [Hheap Hworker].
  assert (∀ i m m', heap s !! i = Some m → heap s' !! i = Some m' →
            m' = m ∨ ∃ now, clockOf l = Some now ∧ touchedAt s now i m m')
    as Hback.
  { intros i m m' Hm Hm'.
    destruct (step_touches_at l s s' i m Hstep Hm) as (m1 & Hm1 & H1).
    rewrite Hm' in Hm1. by injection Hm1 as <-. }
  constructor.
  - intros i m' Hm'.
    destruct (heap s !! i) as [m|] eqn:Hm.
    + destruct (Hback i m m' Hm Hm') as [->|(now & Hl & Ht)].
      * destruct (Hheap i m Hm) as [Hok Hup]. split; [done|].
        by apply (stampsUpTo_le t).
      * rewrite Hl in Hle |- *. simpl in Hle |- *.
        apply (touchedAt_times s t now i m m'); try done.
        by apply (reachable_shapeOk s i).
    + destruct (step_heap_back l s s' i m' HI Hstep Hm')
        as [(m & Hm0 & _)|(_ & b & id & now & proc & opts & -> & _ & ->)];
        [congruence|].
      simpl. split; [by intros a|]. split; [simpl; lia|]. by split.
  - intros run startTime m' Hexec Hm'.
    assert ((qr_metadata run ∉ queueRefs s)
            ∧ ∃ m, heap s !! qr_metadata run = Some m) as [Hnin [m Hm]].
    { destruct (step_executing_origin l s s' run startTime Hstep Hexec)
        as [Hw|[[ph Hw] _]];
        (destruct (inv_worker_ref _ HI run) as [Hnin Hlt];
         [by rewrite Hw|]; split; [done|]; by apply lookup_lt_is_Some). }
    assert (ts_started (timestamps m') = ts_started (timestamps m)) as Hsame.
    { destruct (Hback _ m m' Hm Hm') as [->|(now & _ & Ht)]; [done|].
      by apply (touchedAt_started s now (qr_metadata run)). }
    rewrite Hsame.
    destruct (step_executing_origin l s s' run startTime Hstep Hexec)
      as [Hw|[[ph Hw] Hl]].
    + destruct (Hworker run startTime m Hw Hm) as (a & Hsa & Hle').
      exists a. split; [done|]. lia.
    + rewrite Hl in Hle |- *. simpl in Hle |- *.
      pose proof (inv_status _ HI _ m Hm) as Hst. unfold statusOk in Hst.
      rewrite decide_False in Hst by done.
      rewrite decide_True in Hst by (unfold runningRef; by rewrite Hw).
      pose proof (reachable_shapeOk s _ m Hreach Hm) as Hshape.
      unfold shapeOk in Hshape. rewrite Hst in Hshape.
      destruct Hshape as ([a Hsa] & _).
      exists a. split; [done|].
      destruct (Hheap _ m Hm) as [_ (_ & Ha & _)]. specialize (Ha a Hsa).
      lia.
Qed.

Lemma TimeInv_steps ls s s' t :
  reachable s → TimeInv t s → clockFrom t ls = true →
  steps ls s = Some s' → ∃ t', TimeInv t' s'.
Proof.
  revert s t. induction ls as [|l ls IH]; simpl; intros s t Hreach HT Hc Hs.
  - injection Hs as <-. by exists t.
  - destruct (step l s) as [s1|] eqn:Hstep; [|done]. simpl in Hs.
    assert ((t ≤ default t (clockOf l))%Z
            ∧ clockFrom (default t (clockOf l)) ls = true) as [Hle Hc'].
    { destruct (clockOf l) as [now|]; simpl.
      - apply andb_true_iff in Hc as [Hle%Z.leb_le Hc]. done.
      - split; [lia | done]. }
    apply (IH s1 (default t (clockOf l))); try done.
    + by apply (reachable_step s l s1).
    + by apply (TimeInv_step l s s1 t).
Qed.
End times.

(** X16. While the clock does not go back, the times of every record are
    in order: a run is started no earlier than it was queued and completed
    no earlier than it was started, and the duration in its results is at
    least 0 and at most the time from [started] to [completed]. *)
Theorem X16_times_of_a_record_are_in_order
    (ls : list Label) (d : gmap string FileContent) (s : State) (t0 : Z)
    (i : nat) (m : RunMetadata) :
  clockFrom t0 ls = true → steps ls (initial d) = Some s →
  heap s !! i = Some m →
  ∀ a, ts_started (timestamps m) = Some a →
    (ts_queued (timestamps m) ≤ a)%Z
    ∧ ∀ c, ts_completed (timestamps m) = Some c →
        (a ≤ c)%Z
        ∧ ∀ r, results m = Some r → (0 ≤ durationMs r ≤ c - a)%Z.
Proof.
  intros Hclock Hsteps Hm.
  assert (TimeInv t0 (initial d)) as H0.
  { constructor.
    - intros j m0 Hm0. simpl in Hm0. by rewrite lookup_nil in Hm0.
    - intros run startTime m0 Hw. simpl in Hw. discriminate Hw. }
  destruct (TimeInv_steps ls (initial d) s t0 (reachable_initial d) H0
              Hclock Hsteps) as [t' [Hheap _]].
  by apply (Hheap i m).
Qed.

Lemma X16_witness :
  ∃ m, heap (after twoSubmitted) !! 0 = Some m
       ∧ ts_queued (timestamps m) = 5%Z
       ∧ ts_started (timestamps m) = Some 8%Z
       ∧ ts_completed (timestamps m) = Some 30%Z
       ∧ ∀ r, results m = Some r → (0 ≤ durationMs r ≤ 30 - 8)%Z.
Proof.
  assert (steps twoSubmitted (initial ∅) = Some (after twoSubmitted)) as Hs
    by (by vm_compute).
  assert (∃ m, heap (after twoSubmitted) !! 0 = Some m
               ∧ ts_queued (timestamps m) = 5%Z
               ∧ ts_started (timestamps m) = Some 8%Z
               ∧ ts_completed (timestamps m) = Some 30%Z)
    as (m & Hm & Hq & Hsa & Hsc).
  { exists (default finishedRun (heap (after twoSubmitted) !! 0)).
    vm_compute. repeat split; reflexivity. }
  exists m. split; [exact Hm|]. split; [exact Hq|].
  split; [exact Hsa|]. split; [exact Hsc|].
  destruct (X16_times_of_a_record_are_in_order
              twoSubmitted ∅ (after twoSubmitted) 0 0 m eq_refl
              Hs Hm 8%Z Hsa) as [_ Hrest].
  destruct (Hrest 30%Z Hsc) as [_ Hdur]. exact Hdur.
Defined.

(** * The log viewer of the frontend *)

Section log_viewer.
Implicit Types (v : Viewer) (es : list RunEvent) (m : RunMetadata).

Lemma onMessage_closed frames v :
  isLive v = false → foldl (λ v e, onMessage e v) v frames = v.
Proof.
  intros Hv. induction frames as [|e frames IH]; simpl; [done|].
  unfold onMessage at 2. by rewrite Hv.
Qed.

Lemma onMessage_line v frame line :
  isLive v = true → logLine frame = Some line →
  onMessage frame v
  = {| logs := logs v ++ [line]; shown := shown v; isLive := true |}.
Proof.
  intros Hv Hline. unfold onMessage. rewrite Hv.
  destruct frame; simpl in Hline; try done; by injection Hline as <-.
Qed.

(** The viewer on the frames of its run. *)
Lemma viewer_frames id es v :
  isLive v = true →
  logs (foldl (λ v e, onMessage e v) v (framesUntilComplete id es))
  = logs v ++ omap logLine (framesUntilComplete id es)
  ∧ (∀ m, sse_complete m ∈ framesUntilComplete id es →
       shown (foldl (λ v e, onMessage e v) v (framesUntilComplete id es))
       = status m
       ∧ isLive (foldl (λ v e, onMessage e v) v (framesUntilComplete id es))
         = false)
  ∧ ((∀ m, sse_complete m ∉ framesUntilComplete id es) →
     shown (foldl (λ v e, onMessage e v) v (framesUntilComplete id es))
     = shown v
     ∧ isLive (foldl (λ v e, onMessage e v) v (framesUntilComplete id es))
       = true).
Proof.
  revert v. induction es as [|e es IH]; intros v Hv.
  - simpl. rewrite app_nil_r. split; [done|]. split; [|done].
    by intros m ?%elem_of_nil.
  - assert (∀ frame line,
              logLine frame = Some line →
              framesUntilComplete id (e :: es)
              = frame :: framesUntilComplete id es →
              (∀ m, frame ≠ sse_complete m) →
              logs (foldl (λ v e, onMessage e v) v
                      (framesUntilComplete id (e :: es)))
              = logs v ++ omap logLine (framesUntilComplete id (e :: es))
              ∧ (∀ m, sse_complete m ∈ framesUntilComplete id (e :: es) →
                   shown (foldl (λ v e, onMessage e v) v
                            (framesUntilComplete id (e :: es)))
                   = status m
                   ∧ isLive (foldl (λ v e, onMessage e v) v
                               (framesUntilComplete id (e :: es)))
                     = false)
              ∧ ((∀ m, sse_complete m ∉ framesUntilComplete id (e :: es)) →
                 shown (foldl (λ v e, onMessage e v) v
                          (framesUntilComplete id (e :: es)))
                 = shown v
                 ∧ isLive (foldl (λ v e, onMessage e v) v
                             (framesUntilComplete id (e :: es)))
                   = true)) as Hline.
    { intros frame line Hframe -> Hnc.
      assert (omap logLine (frame :: framesUntilComplete id es)
              = line :: omap logLine (framesUntilComplete id es)) as ->
        by (simpl; by rewrite Hframe).
      cbn [foldl]. rewrite (onMessage_line v frame line Hv Hframe).
      destruct (IH {| logs := logs v ++ [line]; shown := shown v;
                      isLive := true |} eq_refl) as (H1 & H2 & H3).
      split; [|split].
      - rewrite H1. cbn [logs]. by rewrite <- app_assoc.
      - intros m [Heq|Hin]%elem_of_cons; [by destruct (Hnc m)|].
        by apply H2.
      - intros Hno. apply H3. intros m Hin. apply (Hno m).
        by apply list_elem_of_further. }
    destruct e as [rid|rid chunk|rid chunk|rid message|rid metadata].
    + by apply IH.
    + cbn [framesUntilComplete frameOf] in *.
      destruct (String.eqb rid id); [|by apply IH].
      by apply (Hline (sse_stdout chunk) chunk).
    + cbn [framesUntilComplete frameOf] in *.
      destruct (String.eqb rid id); [|by apply IH].
      by apply (Hline (sse_stderr chunk) chunk).
    + cbn [framesUntilComplete frameOf] in *.
      destruct (String.eqb rid id); [|by apply IH].
      by apply (Hline (sse_error message) ("ERROR: " +:+ message)).
    + cbn [framesUntilComplete frameOf] in *.
      destruct (String.eqb rid id); [|by apply IH].
      simpl. unfold onMessage. rewrite Hv.
      cbn [logs shown isLive]. rewrite app_nil_r. split; [done|]. split.
      * by intros m [= <-]%list_elem_of_singleton.
      * intros Hno. destruct (Hno metadata). apply list_elem_of_here.
Qed.
End log_viewer.

(** X17. The log viewer mounted on a queued or running run and fed the
    frames of the stream of a run whose stored record is queued or
    running: its log is the stdout and stderr chunks and the error
    messages, each after "ERROR: ", of that run in their order; until a
    [complete] frame comes it stays live and shows the status the stream
    began with; and with the [complete] frame it shows the status of the
    final record, completed or failed, and is no longer live. *)
Theorem X17_viewer_follows_its_run
    (ls : list Label) (s s' : State) (d : gmap string FileContent)
    (id : string) (r : RunMetadata) (initialStatus : RunStatus) :
  reachable s → steps ls s = Some s' →
  getRun id d = Some (IsRun r) → status r = queued ∨ status r = running →
  initialStatus = queued ∨ initialStatus = running →
  ∃ evs st,
    emitted s' = emitted s ++ evs
    ∧ openStream id d = EventStream st
    ∧ let frames := written (foldl (λ st e, deliver id e st) st evs) in
      let v := viewerAfter initialStatus frames in
      logs v = omap logLine frames
      ∧ (∀ m, sse_complete m ∈ frames →
           shown v = status m
           ∧ (status m = completed ∨ status m = failed)
           ∧ isLive v = false)
      ∧ ((∀ m, sse_complete m ∉ frames) →
         shown v = status r ∧ isLive v = true).
Proof.
  intros Hreach Hsteps Hget Hlive Hmount.
  destruct (steps_emitted ls s s' Hsteps) as [evs Hevs].
  exists evs. eexists. split; [done|].
  unfold openStream. rewrite Hget.
  rewrite decide_False by (destruct Hlive as [-> | ->]; intros [?|?]; done).
  split; [done|].
  rewrite deliver_frames by done. cbn [written app].
  unfold viewerAfter. cbn [foldl].
  assert (onMessage (sse_status (status r)) (mountViewer initialStatus)
          = {| logs := []; shown := status r; isLive := true |}) as ->.
  { unfold mountViewer, onMessage. cbn [isLive].
    by rewrite bool_decide_eq_true_2. }
  cbn [omap logLine].
  destruct (viewer_frames id evs
              {| logs := []; shown := status r; isLive := true |} eq_refl)
    as (H1 & H2 & H3).
  split; [exact H1|]. split.
  - intros m [Heq|Hin]%elem_of_cons; [done|].
    destruct (H2 m Hin) as [Hshown Hclosed].
    split; [done|]. split; [|done].
    destruct (framesUntilComplete_complete id evs m Hin) as (Hev & _).
    assert (completeOk id m) as (_ & Hterm & _); [|done].
    apply (ev_complete s'); [|rewrite Hevs, elem_of_app; by right].
    apply reachable_EvInv. by apply (reachable_steps ls s).
  - intros Hno. apply H3. intros m Hin. apply (Hno m).
    by apply list_elem_of_further.
Qed.

Lemma X17_witness :
  ∃ evs st,
    emitted (after (untilExecuting bareRequest
                    ++ [ProcStdout "ok"; ProcSettled Resolved 30]
                    ++ finalSave))
    = emitted (after (untilExecuting bareRequest)) ++ evs
    ∧ openStream "run-1" (disk (after (untilExecuting bareRequest)))
      = EventStream st
    ∧ logs (viewerAfter queued
              (written (foldl (λ st e, deliver "run-1" e st) st evs)))
      = omap logLine
          (written (foldl (λ st e, deliver "run-1" e st) st evs)).
Proof.
  assert (steps (untilExecuting bareRequest) (initial ∅)
          = Some (after (untilExecuting bareRequest))) as Hs
    by (by vm_compute).
  set (r := runOf
              (getRun "run-1" (disk (after (untilExecuting bareRequest))))).
  destruct (X17_viewer_follows_its_run
              ([ProcStdout "ok"; ProcSettled Resolved 30] ++ finalSave)
              (after (untilExecuting bareRequest))
              (after (untilExecuting bareRequest
                      ++ [ProcStdout "ok"; ProcSettled Resolved 30]
                      ++ finalSave))
              (disk (after (untilExecuting bareRequest))) "run-1" r queued
              (after_reachable _ _ Hs) ltac:(by vm_compute)
              ltac:(by vm_compute) ltac:(by right; vm_compute)
              ltac:(by left))
    as (evs & st & Hem & Hopen & Hlogs & _).
  exists evs, st. split; [exact Hem|]. split; [exact Hopen|]. exact Hlogs.
Defined.

(** * A first save that fails *)

Section failed_first_save.
Implicit Types (s : State) (m : RunMetadata) (run : QueuedRun).

(** [createRun] pushes the run, and its save fails. *)
Lemma submit_and_fail s opts uuid proc t0 t1 :
  alive s = true →
  let run := {| qr_id := uuid; qr_options := opts;
                qr_metadata := length (heap s) |} in
  steps [CreatorIo (length (creators s)) io_error t1]
    (createRun_begin opts uuid t0 proc s)
  = Some {| heap := heap s ++ [newMetadata uuid t0 proc opts];
            queue := queue s ++ [run];
            currentRun := currentRun s;
            processing := processing s;
            worker := worker s;
            creators := creators s;
            disk := disk s;
            emitted := emitted s;
            responses := responses s ++ [ServerError] |}.
Proof.
  intros Ha run. unfold steps, step.
  change (alive (createRun_begin opts uuid t0 proc s)) with (alive s).
  rewrite Ha. unfold transition, creatorIo. simpl.
  rewrite lookup_app_r, Nat.sub_diag by done. simpl.
  do 2 f_equal.
  by rewrite (delete_middle (creators s) []), app_nil_r.
Qed.

(** The next request is saved, and the loop starts with the head of the
    queue. *)
Lemma submit_behind s run opts uuid proc t2 t3 t4 m0 :
  alive s = true → processing s = false → queue s = [run] →
  heap s !! qr_metadata run = Some m0 →
  let run2 := {| qr_id := uuid; qr_options := opts;
                 qr_metadata := length (heap s) |} in
  ∃ s2, steps [CreatorIo (length (creators s)) io_ok t3;
               CreatorIo (length (creators s)) io_ok t4]
          (createRun_begin opts uuid t2 proc s) = Some s2
        ∧ currentRun s2 = Some run
        ∧ worker s2 = SavingStart run AwaitMkdir
        ∧ queue s2 = [run2]
        ∧ heap s2 !! qr_metadata run = Some (markRunning t4 m0)
        ∧ responses s2 = responses s ++ [Created uuid queued].
Proof.
  intros Ha Hp Hq Hm0 run2.
  set (m2 := newMetadata uuid t2 proc opts).
  set (c2 := {| cr_run := run2;
                cr_phase := AwaitWriteFile (uuid +:+ ".json") m2 |}).
  set (sa := createRun_begin opts uuid t2 proc s).
  set (sb := with_creators (creators s ++ [c2]) sa).
  assert (step (CreatorIo (length (creators s)) io_ok t3) sa = Some sb) as H1.
  { apply transition_step; [exact Ha|].
    unfold transition, creatorIo, sa. simpl.
    rewrite lookup_app_r, Nat.sub_diag by done. simpl.
    rewrite lookup_app_r, Nat.sub_diag by done. simpl.
    unfold sb. do 2 f_equal.
    rewrite insert_app_r_alt, Nat.sub_diag by done. done. }
  rewrite (steps_cons _ _ _ _ H1).
  unfold steps, step. change (alive sb) with (alive s). rewrite Ha.
  unfold transition, creatorIo, sb, sa. simpl.
  rewrite lookup_app_r, Nat.sub_diag by done. simpl.
  unfold processQueue. simpl. rewrite Hp. unfold loopHead. simpl.
  rewrite Hq. simpl.
  eexists. split; [done|]. simpl. repeat split; try done.
  pose proof (lookup_lt_Some _ _ _ Hm0) as Hlt.
  rewrite alter_app_l by done. rewrite lookup_app_l by by rewrite length_alter.
  by rewrite (lookup_alter_at _ _ _ _ _ Hm0), decide_True.
Qed.
End failed_first_save.

(** X18. When the first save of [createRun] fails on a running service
    whose loop is stopped and whose queue is empty,
    the request is answered with a server error and no file is written,
    but the run stays in the queue: the loop is not started, and once
    the save of a later request succeeds, the loop starts with the run of
    the request that was answered with the error. *)
Theorem X18_failed_first_save_leaves_the_run_queued
    (s : State) (b : RequestBody) (opts : RunOptions) (uuid : string)
    (proc : ProcessInfo) (t0 t1 : Z) :
  alive s = true → processing s = false → queue s = [] →
  safeParse (Some b) = Success opts →
  let run := {| qr_id := uuid; qr_options := opts;
                qr_metadata := length (heap s) |} in
  ∃ s1,
    steps [PostRuns (Some b) uuid t0 proc;
           CreatorIo (length (creators s)) io_error t1] s = Some s1
    ∧ responses s1 = responses s ++ [ServerError]
    ∧ disk s1 = disk s
    ∧ queue s1 = [run] ∧ processing s1 = false
    ∧ heap s1 = heap s ++ [newMetadata uuid t0 proc opts]
    ∧ ∀ b2 opts2 uuid2 proc2 t2 t3 t4,
        safeParse (Some b2) = Success opts2 →
        ∃ s2,
          steps [PostRuns (Some b2) uuid2 t2 proc2;
                 CreatorIo (length (creators s)) io_ok t3;
                 CreatorIo (length (creators s)) io_ok t4] s1 = Some s2
          ∧ currentRun s2 = Some run
          ∧ heap s2 !! length (heap s)
            = Some (markRunning t4 (newMetadata uuid t0 proc opts))
          ∧ responses s2
            = responses s ++ [ServerError; Created uuid2 queued].
Proof.
  intros Ha Hp Hq Hok run.
  pose proof (submit_and_fail s opts uuid proc t0 t1 Ha) as Hfail.
  cbn zeta in Hfail. fold run in Hfail. rewrite Hq in Hfail.
  match type of Hfail with _ = Some ?x => set (s1 := x) in * end.
  assert (step (PostRuns (Some b) uuid t0 proc) s
          = Some (createRun_begin opts uuid t0 proc s)) as H0.
  { apply transition_step; [exact Ha|]. simpl.
    by rewrite (postRuns_accepts _ _ _ _ _ _ Hok). }
  exists s1. split; [by rewrite (steps_cons _ _ _ _ H0)|].
  do 5 (split; [done|]).
  intros b2 opts2 uuid2 proc2 t2 t3 t4 Hok2.
  destruct (submit_behind s1 run opts2 uuid2 proc2 t2 t3 t4
              (newMetadata uuid t0 proc opts))
    as (s2 & Hsteps & Hcur & _ & _ & Hheap & Hresp); try done.
  { simpl. by rewrite lookup_app_r, Nat.sub_diag. }
  exists s2. split.
  { assert (step (PostRuns (Some b2) uuid2 t2 proc2) s1
            = Some (createRun_begin opts2 uuid2 t2 proc2 s1)) as H2.
    { apply transition_step; [exact Ha|]. simpl.
      by rewrite (postRuns_accepts _ _ _ _ _ _ Hok2). }
    by rewrite (steps_cons _ _ _ _ H2). }
  split; [done|]. split; [done|].
  rewrite Hresp. simpl. by rewrite <- app_assoc.
Qed.

Lemma X18_witness :
  ∃ s1,
    steps [PostRuns (Some bareRequest) "run-1" 5 host;
           CreatorIo 0 io_error 6] (initial ∅) = Some s1
    ∧ responses s1 = [ServerError]
    ∧ queue s1
      = [{| qr_id := "run-1";
            qr_options :=
              {| exp := "01-hidden-classes"; variant := deopt;
                 trace := false; profile := false;
                 warmup := 1000; repeat_ := 100000 |};
            qr_metadata := 0 |}].
Proof.
  destruct (X18_failed_first_save_leaves_the_run_queued
              (initial ∅) bareRequest
              {| exp := "01-hidden-classes"; variant := deopt;
                 trace := false; profile := false;
                 warmup := 1000; repeat_ := 100000 |}
              "run-1" host 5 6 eq_refl eq_refl eq_refl eq_refl)
    as (s1 & Hsteps & Hresp & _ & Hqueue & _).
  exists s1. split; [exact Hsteps|]. split; [exact Hresp | exact Hqueue].
Defined.

(** * The files are snapshots of the run objects *)

Section snapshots.
Implicit Types (s : State) (m : RunMetadata) (d : gmap string FileContent).

Lemma behind_refl m : behind m m.
Proof. by repeat split. Qed.

Lemma behind_touched s i m m1 m2 :
  Inv s → heap s !! i = Some m1 → touched s i m1 m2 →
  behind m m1 → behind m m2.
Proof.
  intros HI Hm1 Ht (E1 & E2 & E3 & E4 & E5 & E6 & Hrank).
  destruct (touched_rank s i m1 m2 HI Hm1 Ht) as [Hle _].
  apply touched_static in Ht as (F1 & F2 & F3 & F4 & F5 & F6).
  repeat split; try congruence. lia.
Qed.

(** A snapshot stays one. *)
Lemma snapshot_step l s s' m :
  Inv s → step l s = Some s' → snapshot s m → snapshot s' m.
Proof.
  intros HI Hstep (i & m1 & Hm1 & Hb).
  destruct (step_touches l s s' i m1 HI Hstep Hm1) as (m2 & Hm2 & Ht).
  exists i, m2. split; [done|]. by apply (behind_touched s i m m1 m2).
Qed.

Lemma phaseSnapshot_step l s s' ph :
  Inv s → step l s = Some s' → phaseSnapshot s ph → phaseSnapshot s' ph.
Proof.
  intros HI Hstep. destruct ph as [|path content]; [done|].
  by apply (snapshot_step l s).
Qed.

Lemma filesFrom_insert d0 s d path content :
  filesFrom d0 s d → snapshot s content →
  filesFrom d0 s (<[path := JsonText content]> d).
Proof.
  intros Hd Hc name m Hm.
  destruct (decide (path = name)) as [->|Hne].
  - rewrite lookup_insert_eq in Hm. injection Hm as <-. by right.
  - rewrite lookup_insert_ne in Hm by done. by apply Hd.
Qed.

Lemma saveMetadata_resume_snapshot d0 s res ph ref p :
  saveMetadata_resume res ph ref (heap s) (disk s) = Some p →
  filesFrom d0 s (disk s) → phaseSnapshot s ph →
  match p with
  | SaveContinues ph' => phaseSnapshot s ph'
  | SaveDone d' => filesFrom d0 s d'
  | SaveFailed => True
  end.
Proof.
  intros Hp Hd Hph. destruct res, ph as [|filePath content]; simpl in Hp.
  - destruct (heap s !! ref) as [m|] eqn:Hm; [|done]. injection Hp as <-.
    simpl. exists ref, m. split; [done | apply behind_refl].
  - injection Hp as <-. by apply filesFrom_insert.
  - by injection Hp as <-.
  - by injection Hp as <-.
Qed.

(** The state after a step, from its parts as they stand before it. *)
Lemma SnapInv_after l d0 s s' :
  Inv s → step l s = Some s' →
  filesFrom d0 s (disk s') →
  Forall (λ c, phaseSnapshot s (cr_phase c)) (creators s') →
  (∀ ph, workerPhase (worker s') = Some ph → phaseSnapshot s ph) →
  SnapInv d0 s'.
Proof.
  intros HI Hstep Hd Hc Hw. constructor.
  - intros name m Hm. destruct (Hd name m Hm) as [?|Hs]; [by left|].
    right. by apply (snapshot_step l s).
  - eapply Forall_impl; [exact Hc|]. intros c Hph. simpl in Hph.
    by apply (phaseSnapshot_step l s).
  - intros ph Hph. by apply (phaseSnapshot_step l s), Hw.
Qed.

Lemma SnapInv_step l d0 s s' :
  Inv s → SnapInv d0 s → step l s = Some s' → SnapInv d0 s'.
Proof.
  intros HI [Hd Hc Hw] Hstep0.
  apply (SnapInv_after l d0 s s' HI Hstep0); pose proof Hstep0 as Hstep;
    destruct l as [body uuid now proc|k res now|res now
                   |chunk|chunk|res now]; apply step_transition in Hstep; simpl in Hstep.
  (* the files *)
  - injection Hstep as <-. unfold postRuns. by destruct (safeParse body).
  - unfold creatorIo in Hstep.
    destruct (creators s !! k) as [c|] eqn:Hk; [|done]. simpl in Hstep.
    destruct (saveMetadata_resume _ _ _ _ _) as [p|] eqn:Hp; [|done].
    injection Hstep as <-.
    pose proof (saveMetadata_resume_snapshot d0 _ _ _ _ _ Hp Hd
                  (proj1 (Forall_lookup _ _) Hc k c Hk)) as Hsnap.
    destruct p as [ph|d|]; simpl; try done.
    unfold processQueue. simpl. destruct (processing s); [done|].
    by destruct (loopHead_frame now
                   (with_processing true
                      (with_disk d
                         (with_creators (delete k (creators s)) s))))
      as (-> & _).
  - unfold workerIo in Hstep.
    destruct (worker s) as [|run ph|run t|run ph|run ph|run] eqn:Ew;
      try done.
    + destruct (saveMetadata_resume _ _ _ _ _) as [p|] eqn:Hp; [|done].
      injection Hstep as <-.
      pose proof (saveMetadata_resume_snapshot d0 _ _ _ _ _ Hp Hd
                    (Hw ph eq_refl)) as Hsnap.
      by destruct p as [ph'|d|].
    + destruct (saveMetadata_resume _ _ _ _ _) as [p|] eqn:Hp; [|done].
      pose proof (saveMetadata_resume_snapshot d0 _ _ _ _ _ Hp Hd
                    (Hw ph eq_refl)) as Hsnap.
      destruct p as [ph'|d|]; simpl in Hstep.
      * by injection Hstep as <-.
      * destruct (heap s !! qr_metadata run) as [mr|]; [|done].
        injection Hstep as <-. unfold nextIteration.
        by destruct (loopHead_frame now
                       (with_currentRun None
                          (emit (run_complete (qr_id run) mr)
                             (with_disk d s)))) as (-> & _).
      * by injection Hstep as <-.
    + destruct (saveMetadata_resume _ _ _ _ _) as [p|] eqn:Hp; [|done].
      injection Hstep as <-.
      pose proof (saveMetadata_resume_snapshot d0 _ _ _ _ _ Hp Hd
                    (Hw ph eq_refl)) as Hsnap.
      destruct p as [ph'|d|]; try done.
      unfold nextIteration.
      by destruct (loopHead_frame now (with_currentRun None (with_disk d s)))
        as (-> & _).
  - unfold procData in Hstep. destruct (worker s); try done.
    by injection Hstep as <-.
  - unfold procData in Hstep. destruct (worker s); try done.
    by injection Hstep as <-.
  - unfold procSettled in Hstep. destruct (worker s); try done.
    injection Hstep as <-. by destruct res.
  (* the saves of [createRun] under way *)
  - injection Hstep as <-. unfold postRuns.
    destruct (safeParse body); [|done]. simpl.
    apply Forall_app. split; [done|]. by repeat constructor.
  - unfold creatorIo in Hstep.
    destruct (creators s !! k) as [c|] eqn:Hk; [|done]. simpl in Hstep.
    destruct (saveMetadata_resume _ _ _ _ _) as [p|] eqn:Hp; [|done].
    injection Hstep as <-.
    pose proof (saveMetadata_resume_snapshot d0 _ _ _ _ _ Hp Hd
                  (proj1 (Forall_lookup _ _) Hc k c Hk)) as Hsnap.
    destruct p as [ph|d|]; simpl.
    + by apply Forall_insert.
    + unfold processQueue. simpl.
      destruct (processing s); [by apply Forall_delete|].
      destruct (loopHead_frame now
                  (with_processing true
                     (with_disk d
                        (with_creators (delete k (creators s)) s))))
        as (_ & _ & _ & ->).
      by apply Forall_delete.
    + by apply Forall_delete.
  - unfold workerIo in Hstep.
    destruct (worker s) as [|run ph|run t|run ph|run ph|run] eqn:Ew;
      try done.
    + destruct (saveMetadata_resume _ _ _ _ _) as [[ph'|d|]|]; [..|done];
        by injection Hstep as <-.
    + destruct (saveMetadata_resume _ _ _ _ _) as [[ph'|d|]|]; [..|done];
        simpl in Hstep.
      * by injection Hstep as <-.
      * destruct (heap s !! qr_metadata run) as [mr|]; [|done].
        injection Hstep as <-. unfold nextIteration.
        by destruct (loopHead_frame now
                       (with_currentRun None
                          (emit (run_complete (qr_id run) mr)
                             (with_disk d s)))) as (_ & _ & _ & ->).
      * by injection Hstep as <-.
    + destruct (saveMetadata_resume _ _ _ _ _) as [[ph'|d|]|]; [..|done];
        injection Hstep as <-; try done.
      unfold nextIteration.
      by destruct (loopHead_frame now (with_currentRun None (with_disk d s)))
        as (_ & _ & _ & ->).
  - unfold procData in Hstep. destruct (worker s); try done.
    by injection Hstep as <-.
  - unfold procData in Hstep. destruct (worker s); try done.
    by injection Hstep as <-.
  - unfold procSettled in Hstep. destruct (worker s); try done.
    injection Hstep as <-. by destruct res.
  (* the save of the worker under way *)
  - injection Hstep as <-. unfold postRuns.
    by destruct (safeParse body).
  - unfold creatorIo in Hstep.
    destruct (creators s !! k) as [c|] eqn:Hk; [|done]. simpl in Hstep.
    destruct (saveMetadata_resume _ _ _ _ _) as [[ph|d|]|]; [..|done];
      injection Hstep as <-; try done.
    simpl. unfold processQueue. simpl. destruct (processing s); [done|].
    intros ph Hph.
    destruct (loopHead_workerPhase now
                (with_processing true
                   (with_disk d (with_creators (delete k (creators s)) s))))
      as [E|E]; rewrite E in Hph; [done | by injection Hph as <-].
  - unfold workerIo in Hstep.
    destruct (worker s) as [|run ph|run t|run ph|run ph|run] eqn:Ew;
      try done.
    + destruct (saveMetadata_resume _ _ _ _ _) as [p|] eqn:Hp; [|done].
      injection Hstep as <-.
      pose proof (saveMetadata_resume_snapshot d0 _ _ _ _ _ Hp Hd
                    (Hw ph eq_refl)) as Hsnap.
      destruct p as [ph'|d|]; simpl; intros ? [= <-]; done.
    + destruct (saveMetadata_resume _ _ _ _ _) as [p|] eqn:Hp; [|done].
      pose proof (saveMetadata_resume_snapshot d0 _ _ _ _ _ Hp Hd
                    (Hw ph eq_refl)) as Hsnap.
      destruct p as [ph'|d|]; simpl in Hstep.
      * injection Hstep as <-. simpl. by intros ? [= <-].
      * destruct (heap s !! qr_metadata run) as [mr|]; [|done].
        injection Hstep as <-. unfold nextIteration. intros ph0 Hph.
        destruct (loopHead_workerPhase now
                    (with_currentRun None
                       (emit (run_complete (qr_id run) mr)
                          (with_disk d s))))
          as [E|E]; rewrite E in Hph; [done | by injection Hph as <-].
      * injection Hstep as <-. simpl. by intros ? [= <-].
    + destruct (saveMetadata_resume _ _ _ _ _) as [p|] eqn:Hp; [|done].
      injection Hstep as <-.
      pose proof (saveMetadata_resume_snapshot d0 _ _ _ _ _ Hp Hd
                    (Hw ph eq_refl)) as Hsnap.
      destruct p as [ph'|d|]; simpl.
      * by intros ? [= <-].
      * unfold nextIteration. intros ph0 Hph.
        destruct (loopHead_workerPhase now
                    (with_currentRun None (with_disk d s)))
          as [E|E]; rewrite E in Hph; [done | by injection Hph as <-].
      * done.
  - unfold procData in Hstep. destruct (worker s) eqn:Ew; try done.
    injection Hstep as <-. simpl. by rewrite Ew.
  - unfold procData in Hstep. destruct (worker s) eqn:Ew; try done.
    injection Hstep as <-. simpl. by rewrite Ew.
  - unfold procSettled in Hstep. destruct (worker s); try done.
    injection Hstep as <-. destruct res; simpl; by intros ? [= <-].
Qed.

Lemma SnapInv_steps ls d0 s :
  steps ls (initial d0) = Some s → SnapInv d0 s.
Proof.
  intros Hsteps.
  assert (SnapInv d0 (initial d0)) as H0.
  { constructor; simpl; [by left | done | done]. }
  pose proof (Inv_initial d0) as HI.
  revert H0 HI Hsteps. generalize (initial d0).
  induction ls as [|l ls IH]; simpl; intros s0 H0 HI Hsteps.
  - by injection Hsteps as <-.
  - destruct (step l s0) as [s1|] eqn:Hstep; [|done].
    apply (IH s1); [by eapply SnapInv_step | by eapply Inv_step | done].
Qed.
End snapshots.

(** X19. What [getRun] returns for an id that is a plain file name is a
    file that was there at start-up or a snapshot of a run object of the
    service: it has the id, experiment, variant, options, environment and
    queued time of that object, and its status is not further on than the
    object's. *)
Theorem X19_getRun_returns_a_snapshot
    (ls : list Label) (d0 : gmap string FileContent) (s : State)
    (id : string) (m : RunMetadata) :
  singleSegment id = true →
  steps ls (initial d0) = Some s →
  getRun id (disk s) = Some (IsRun m) →
  getRun id d0 = Some (IsRun m)
  ∨ ∃ i m', heap s !! i = Some m'
            ∧ md_id m = md_id m' ∧ experiment m = experiment m'
            ∧ md_variant m = md_variant m' ∧ options m = options m'
            ∧ environment m = environment m'
            ∧ ts_queued (timestamps m) = ts_queued (timestamps m')
            ∧ statusRank (status m) ≤ statusRank (status m').
Proof.
  intros _ Hsteps Hget. apply getRun_Some in Hget.
  destruct (snap_disk d0 s (SnapInv_steps ls d0 s Hsteps) _ m Hget)
    as [H0|(i & m' & Hm' & Hb)].
  - left. by apply getRun_Some.
  - right. by exists i, m'.
Qed.

Lemma X19_witness :
  ∃ m m', getRun "run-1" (disk (after twoSubmitted)) = Some (IsRun m)
          ∧ heap (after twoSubmitted) !! 0 = Some m'
          ∧ status m = running ∧ status m' = completed
          ∧ md_id m = md_id m' ∧ options m = options m'.
Proof.
  assert (∃ m, getRun "run-1" (disk (after twoSubmitted)) = Some (IsRun m)
               ∧ status m = running ∧ md_id m = "run-1")
    as (m & Hget & Hst & Hid).
  { exists (runOf
              (getRun "run-1" (disk (after twoSubmitted)))).
    vm_compute. repeat split; reflexivity. }
  assert (∀ i m', heap (after twoSubmitted) !! i = Some m' →
            md_id m' = "run-1" →
            heap (after twoSubmitted) !! 0 = Some m'
            ∧ status m' = completed) as Hheap.
  { intros [|[|i]] m' Hm' Hid'; vm_compute in Hm'.
    - injection Hm' as <-. split; vm_compute; reflexivity.
    - injection Hm' as <-. vm_compute in Hid'. discriminate Hid'.
    - discriminate Hm'. }
  destruct (X19_getRun_returns_a_snapshot
              twoSubmitted ∅ (after twoSubmitted) "run-1" m eq_refl
              ltac:(vm_compute; exact eq_refl) Hget)
    as [H0|(i & m' & Hm' & Eid & _ & _ & Eopts & _)].
  - vm_compute in H0. discriminate H0.
  - destruct (Hheap i m' Hm' (eq_trans (eq_sym Eid) Hid)) as [Hm0 Hst'].
    exists m, m'. split; [exact Hget|]. split; [exact Hm0|].
    split; [exact Hst|]. split; [exact Hst'|].
    split; [exact Eid | exact Eopts].
Defined.
